(** * Pseudo-probe encoding and decoding (llvm/lib/MC/MCPseudoProbe.cpp)

    A shallow embedding of the pseudo-probe section emitter and of the
    pseudo-probe decoder, with the properties of the specification that
    concern them.

    Conventions.
    - Fixed-width integers are [Z] with the wrap-around written out.
    - Bytes are [Z] in [0, 256).
    - [InlineSite] is the source's [std::tuple<uint64_t, uint32_t>]: the
      GUID is component 0 and the call-site probe index is component 1.
    - The object streamer is an external collaborator: its calls are
      recorded as a list of [MCOSCall] events.
    - The decoder's [Data]/[End] pointers are offsets into the section
      bytes; the decoded inline forest, whose nodes point at their parents,
      is an arena of nodes addressed by index, index 0 being
      [DummyInlineRoot]. *)

From stdpp Require Import gmap list sorting.
From Stdlib Require Import ZArith Lia.

Local Open Scope Z_scope.

(** ** Integer types of the template instantiations *)

Inductive IntTy := uint8_t | uint32_t | uint64_t | int64_t.

Definition sizeof (T : IntTy) : nat :=
  match T with uint8_t => 1 | uint32_t => 4 | uint64_t => 8 | int64_t => 8 end%nat.

Definition is_signed (T : IntTy) : bool :=
  match T with int64_t => true | _ => false end.

(** [std::numeric_limits<T>::max()] *)
Definition numeric_limits_max (T : IntTy) : Z :=
  match T with
  | uint8_t => 2 ^ 8 - 1
  | uint32_t => 2 ^ 32 - 1
  | uint64_t => 2 ^ 64 - 1
  | int64_t => 2 ^ 63 - 1
  end.

Definition wrap64 (v : Z) : Z := v mod 2 ^ 64.

(** [static_cast<T>(v)]: reduction modulo the width, re-read as signed for
    a signed [T]. *)
Definition static_cast (T : IntTy) (v : Z) : Z :=
  let w := 8 * Z.of_nat (sizeof T) in
  let u := v mod 2 ^ w in
  if is_signed T && (2 ^ (w - 1) <=? u) then u - 2 ^ w else u.

(** Little-endian value of a run of bytes ([endian::readNext<T, little>]). *)
Definition readLE (bs : list Z) : Z :=
  foldr (fun b acc => b + 256 * acc) 0 bs.

(** ** LEB128 decoding

    Modelled from the spec: llvm/Support/LEB128.h is not under src/.  The
    decoders take the memory that starts at the read pointer and return
    the decoded value together with the number of bytes read.  They are not
    handed the end pointer (the source calls them with two arguments), so
    the byte count may reach past [End]; a byte past the modelled memory
    reads as a terminating zero byte. *)

Fixpoint decodeULEB128_model (p : list Z) : Z * nat :=
  match p with
  | [] => (0, 1%nat)
  | b :: rest =>
      if b <? 128 then (b, 1%nat)
      else let '(v, n) := decodeULEB128_model rest in
           (Z.land b 127 + 128 * v, S n)
  end.

Fixpoint decodeSLEB128_model (p : list Z) : Z * nat :=
  match p with
  | [] => (0, 1%nat)
  | b :: rest =>
      if b <? 128 then ((if 64 <=? b then b - 128 else b), 1%nat)
      else let '(v, n) := decodeSLEB128_model rest in
           (Z.land b 127 + 128 * v, S n)
  end.

(** ** The read cursor *)

Inductive ErrorOr (T : Type) : Type :=
| Err : ErrorOr T
| Ok : T -> ErrorOr T.
Arguments Err {T}.
Arguments Ok {T} _.

(** [Mem] holds the section bytes, [Data] and [End] are offsets into it. *)
Record Cursor := mkCursor { Mem : list Z; Data : nat; End : nat }.

Definition advance (n : nat) (c : Cursor) : Cursor :=
  {| Mem := Mem c; Data := (Data c + n)%nat; End := End c |}.

(** Bytes from the read pointer on. *)
Definition atData (c : Cursor) : list Z := drop (Data c) (Mem c).

(** ** Records of the encoder and of the decoder *)

(** [std::tuple<uint64_t, uint32_t>]: GUID first, call-site probe index
    second. *)
Abbreviation InlineSite := (Z * Z)%type.

(** [MCSymbol *] and [MCSection *] are opaque references, and so is the
    key under which [MCProbeDivisions] files the tree of a section. *)
Definition MCSymbol : Type := nat.
Definition MCSection : Type := nat.
Definition SectionKey : Type := nat.

Module MCPseudoProbe.
Record t := mk {
  Label : MCSymbol;
  Guid : Z;
  Index : Z;
  Type_ : Z;
  Attributes : Z
}.
End MCPseudoProbe.

Set Warnings "-register-all".

(** Encoder inline tree.  [Children] is the source's unordered map from
    inline site to owned child, kept as an association list with unique
    keys whose order stands for the unspecified iteration order. *)
Inductive MCPseudoProbeInlineTree : Type :=
| Node (Guid : Z) (Probes : list MCPseudoProbe.t)
       (Children : list (InlineSite * MCPseudoProbeInlineTree)).

Definition tree_Guid (t : MCPseudoProbeInlineTree) : Z :=
  match t with Node g _ _ => g end.
Definition tree_Probes (t : MCPseudoProbeInlineTree) : list MCPseudoProbe.t :=
  match t with Node _ ps _ => ps end.
Definition tree_Children (t : MCPseudoProbeInlineTree)
  : list (InlineSite * MCPseudoProbeInlineTree) :=
  match t with Node _ _ cs => cs end.

(** Calls made on the object streamer, in order. *)
Inductive MCOSCall : Type :=
| emitULEB128IntValue (v : Z)
| emitInt8 (v : Z)
| emitInt64 (v : Z)
| emitSLEB128IntValue (v : Z)
| emitSymbolValue (Sym : MCSymbol) (Size : nat)
| insertAddrFragment (A B : MCSymbol)
| SwitchSection (S : MCSection).

Module MCPseudoProbeFuncDesc.
Record t := mk { FuncGUID : Z; FuncHash : Z; FuncName : list Z }.
End MCPseudoProbeFuncDesc.

Module MCDecodedPseudoProbe.
Record t := mk {
  Address : Z;
  Guid : Z;
  Index : Z;
  Type_ : Z;
  Attributes : Z;
  InlineTree : nat
}.
End MCDecodedPseudoProbe.

(** A node of the decoded forest.  [Parent] is [None] while the pointer is
    uninitialised (the dummy root); [Probes] holds pointers into the
    address index: the address and the position in the list stored there. *)
Module MCDecodedPseudoProbeInlineTree.
Record t := mk {
  Guid : Z;
  ISite : InlineSite;
  Parent : option nat;
  Children : gmap InlineSite nat;
  Probes : list (Z * nat)
}.
End MCDecodedPseudoProbeInlineTree.

Module MCPseudoProbeDecoder.
Record t := mk {
  cur : Cursor;
  GUID2FuncDescMap : gmap Z MCPseudoProbeFuncDesc.t;
  Address2ProbesMap : gmap Z (list MCDecodedPseudoProbe.t);
  Nodes : list MCDecodedPseudoProbeInlineTree.t
}.
End MCPseudoProbeDecoder.

(** Modelled from the spec: [isRoot] and [hasInlineSite] are declared in
    llvm/MC/MCPseudoProbe.h, which is not under src/.  The root is the
    node with GUID 0; the inline site is absent for the synthetic root
    and for the top-level functions, the children of the root. *)
Definition isRoot (nodes : list MCDecodedPseudoProbeInlineTree.t) (id : nat) : bool :=
  match nodes !! id with
  | Some n => MCDecodedPseudoProbeInlineTree.Guid n =? 0
  | None => true
  end.

Definition hasInlineSite_model (nodes : list MCDecodedPseudoProbeInlineTree.t)
    (id : nat) : bool :=
  negb (isRoot nodes id) &&
  match nodes !! id with
  | Some n =>
      match MCDecodedPseudoProbeInlineTree.Parent n with
      | Some p => negb (isRoot nodes p)
      | None => false
      end
  | None => false
  end.

(** ** Worked inputs *)

(** A probe section with one top-level function, GUID 0xAAAA, and two
    block probes at 0x1000 and 0x1005, the second as a delta of 5. *)
Definition sectionDelta : list Z :=
  [0xAA; 0xAA; 0; 0; 0; 0; 0; 0;  2;  0;
   1; 0;  0; 0x10; 0; 0; 0; 0; 0; 0;
   2; 0x80;  5].

(** Two top-level functions, GUIDs 1 and 2, one block probe each: the
    first at 0x1000, the second as a delta of 5 from it. *)
Definition sectionTwo : list Z :=
  [1; 0; 0; 0; 0; 0; 0; 0;  1;  0;
   1; 0;  0; 0x10; 0; 0; 0; 0; 0; 0;
   2; 0; 0; 0; 0; 0; 0; 0;  1;  0;
   1; 0x80;  5].

(** Function 10 with a direct-call probe 7 at 0x1000, and function 11
    inlined at that call site with a block probe 1 four bytes further. *)
Definition sectionInlined : list Z :=
  [10; 0; 0; 0; 0; 0; 0; 0;  1;  1;
   7; 2;  0; 0x10; 0; 0; 0; 0; 0; 0;
   7;  11; 0; 0; 0; 0; 0; 0; 0;  1;  0;
   1; 0x80;  4].

(** The descriptors of functions 10, named A, and 11, named B. *)
Definition descInlined : list Z :=
  [10; 0; 0; 0; 0; 0; 0; 0;  0; 0; 0; 0; 0; 0; 0; 0;  1;  65;
   11; 0; 0; 0; 0; 0; 0; 0;  0; 0; 0; 0; 0; 0; 0; 0;  1;  66].


(** A GUID followed by a probe count encoded as the ULEB128 of 2^32, and
    five more bytes. *)
Definition sectionOverflow : list Z :=
  [1; 0; 0; 0; 0; 0; 0; 0;  0x80; 0x80; 0x80; 0x80; 0x10;  0; 0; 0;  0;  0].


(** A node with two inlinees: function 2 at call site 1 and function 1
    at call site 5. *)
Definition treeTwoInlinees : MCPseudoProbeInlineTree :=
  Node 10 [] [((2, 1), Node 2 [] []); ((1, 5), Node 1 [] [])].

(** The probes of the comment in [addPseudoProbe]: a probe of function 3
    inlined into 2 at probe 66, itself inlined into 1 at probe 88; and a
    direct-call probe of function 1.  Their labels stand at 20 and 16. *)
Definition probeC : MCPseudoProbe.t := MCPseudoProbe.mk 20%nat 3 1 0 0.
Definition probeA : MCPseudoProbe.t := MCPseudoProbe.mk 16%nat 1 88 2 1.

(** Symbols that stand at the address of their number, so that every
    difference folds; and sections named after their key. *)
Definition foldAll (A B : MCSymbol) : option Z :=
  Some (Z.of_nat A - Z.of_nat B).
Definition sectionOfKey (key : SectionKey) : option MCSection := Some key.

(** The order of inline sites by call-site index first and by GUID on
    equal indices. *)
Definition index_then_guid (a b : InlineSite) : Prop :=
  a.2 < b.2 ∨ (a.2 = b.2 ∧ a.1 < b.1).

(** The decoder once the descriptor section and the probe section of the
    inlining example have been parsed: the root, function 10 below it as
    top-level function 0, and function 11 below that at call site 7. *)
Definition decodedInlined : MCPseudoProbeDecoder.t :=
  MCPseudoProbeDecoder.mk
    (mkCursor sectionInlined 34 34)
    (<[10 := MCPseudoProbeFuncDesc.mk 10 0 [65]]>
       {[11 := MCPseudoProbeFuncDesc.mk 11 0 [66]]})
    (<[4096 := [MCDecodedPseudoProbe.mk 4096 10 7 2 0 1]]>
       {[4100 := [MCDecodedPseudoProbe.mk 4100 11 1 0 0 2]]})
    [MCDecodedPseudoProbeInlineTree.mk 0 (0, 0) None {[(10, 0) := 1%nat]} [];
     MCDecodedPseudoProbeInlineTree.mk 10 (10, 0) (Some 0%nat)
       {[(11, 7) := 2%nat]} [(4096, 0%nat)];
     MCDecodedPseudoProbeInlineTree.mk 11 (11, 7) (Some 1%nat) ∅ [(4100, 0%nat)]].

(** Modelled from the spec: [isCall] is declared in
    llvm/MC/MCPseudoProbe.h, which is not under src/.  A probe is a call
    probe when its kind is IndirectCall (1) or DirectCall (2). *)
Definition isCall_model (Probe : MCDecodedPseudoProbe.t) : bool :=
  (MCDecodedPseudoProbe.Type_ Probe =? 1) || (MCDecodedPseudoProbe.Type_ Probe =? 2).

(** A descriptor section in which function 10 is described twice, first
    under the name A and then under the name C. *)
Definition descRepeated : list Z :=
  [10; 0; 0; 0; 0; 0; 0; 0;  0; 0; 0; 0; 0; 0; 0; 0;  1;  65;
   10; 0; 0; 0; 0; 0; 0; 0;  7; 0; 0; 0; 0; 0; 0; 0;  1;  67].

(** The probe section of the inlining example followed by three stray
    bytes. *)
Definition sectionTrailing : list Z := sectionInlined ++ [1; 2; 3].

(** The decimal digits of a call-site index, as a string stream writes
    an unsigned number of at most ten digits. *)
Definition showDecimal (n : Z) : list Z :=
  (fix digits (fuel : nat) (n : Z) : list Z :=
     match fuel with
     | O => []
     | S fuel' =>
         (if n <? 10 then [] else digits fuel' (n / 10)) ++ [48 + n mod 10]
     end) 10%nat n.

Abbreviation DecNode := MCDecodedPseudoProbeInlineTree.t.
Abbreviation Decoder := MCPseudoProbeDecoder.t.

Section PseudoProbe.

Set Default Proof Using "Type".

(** External collaborators of the emitter. *)
Variable evaluateAsAbsolute : MCSymbol -> MCSymbol -> option Z.
Variable getCodePointerSize : nat.
Variable getPseudoProbeSection : SectionKey -> option MCSection.

(** The LEB128 helpers are parameters of the decoder. *)
Variable decodeULEB128 : list Z -> Z * nat.
Variable decodeSLEB128 : list Z -> Z * nat.

(** ** Encoder *)

(** Modelled from the spec: the enumerator [MCPseudoProbeFlag::AddressDelta]
    is declared in llvm/MC/MCPseudoProbe.h, which is not under src/.  Bit 7
    of the packed byte is 1 for an address delta. *)
Definition AddressDelta : Z := 1.

(** The byte written by [MCPseudoProbe::emit]: [Flag | PackedType], both
    [uint8_t]. *)
Definition PackedType (Probe : MCPseudoProbe.t) : Z :=
  Z.lor (MCPseudoProbe.Type_ Probe)
        (Z.shiftl (MCPseudoProbe.Attributes Probe) 4) mod 256.

Definition Flag (LastProbe : option MCPseudoProbe.t) : Z :=
  match LastProbe with
  | Some _ => Z.shiftl AddressDelta 7 mod 256
  | None => 0
  end.

(** [MCPseudoProbe::emit].  The two assertions on [Type] and [Attributes]
    are not part of the emitted calls; the properties that need the bounds
    state them. *)
Definition MCPseudoProbe_emit (Probe : MCPseudoProbe.t)
    (LastProbe : option MCPseudoProbe.t) : list MCOSCall :=
  [emitULEB128IntValue (MCPseudoProbe.Index Probe);
   emitInt8 (Z.lor (Flag LastProbe) (PackedType Probe))] ++
  match LastProbe with
  | Some Last =>
      match evaluateAsAbsolute (MCPseudoProbe.Label Probe)
                               (MCPseudoProbe.Label Last) with
      | Some Delta => [emitSLEB128IntValue Delta]
      | None => [insertAddrFragment (MCPseudoProbe.Label Probe)
                                    (MCPseudoProbe.Label Last)]
      end
  | None => [emitSymbolValue (MCPseudoProbe.Label Probe) getCodePointerSize]
  end.

(** The loop over [Probes] in [MCPseudoProbeInlineTree::emit]: each probe
    is emitted against [LastProbe], which then points at it. *)
Fixpoint emitProbes (Probes : list MCPseudoProbe.t)
    (LastProbe : option MCPseudoProbe.t)
  : list MCOSCall * option MCPseudoProbe.t :=
  match Probes with
  | [] => ([], LastProbe)
  | Probe :: rest =>
      let '(tr, Last') := emitProbes rest (Some Probe) in
      (MCPseudoProbe_emit Probe LastProbe ++ tr, Last')
  end.

(** [std::less<InlineSite>]: lexicographic on the tuple, component 0 (the
    GUID) first. *)
Definition site_lt (a b : InlineSite) : bool :=
  (a.1 <? b.1) || ((a.1 =? b.1) && (a.2 <? b.2)).

(** [Inlinees[key] = value] on the [std::map], kept sorted by key. *)
Fixpoint map_assign {V : Type} (k : InlineSite) (v : V)
    (m : list (InlineSite * V)) : list (InlineSite * V) :=
  match m with
  | [] => [(k, v)]
  | (k', v') :: m' =>
      if site_lt k k' then (k, v) :: m
      else if site_lt k' k then (k', v') :: map_assign k v m'
      else (k', v) :: m'
  end.

(** The [std::map] filled from [Children]. *)
Definition Inlinees {V : Type} (Children : list (InlineSite * V))
  : list (InlineSite * V) :=
  foldl (fun m Child => map_assign Child.1 Child.2 m) [] Children.

(** The loop over [Inlinees]; [emitChild] is the recursive call on the
    pointed child. *)
Fixpoint emitInlinees {V : Type}
    (emitChild : V -> option MCPseudoProbe.t ->
                 list MCOSCall * option MCPseudoProbe.t)
    (Guid : Z) (inl : list (InlineSite * V))
    (LastProbe : option MCPseudoProbe.t)
  : list MCOSCall * option MCPseudoProbe.t :=
  match inl with
  | [] => ([], LastProbe)
  | Inlinee :: rest =>
      let idx := if Guid =? 0 then [] else [emitULEB128IntValue Inlinee.1.2] in
      let '(tr, Last1) := emitChild Inlinee.2 LastProbe in
      let '(tr', Last2) := emitInlinees emitChild Guid rest Last1 in
      (idx ++ tr ++ tr', Last2)
  end.

(** [MCPseudoProbeInlineTree::emit].  [LastProbe] is passed by reference:
    the updated value is returned next to the calls.  The recursive calls
    are attached to the children before the sorted map is built, which
    only looks at the keys. *)
Fixpoint MCPseudoProbeInlineTree_emit (t : MCPseudoProbeInlineTree)
    (LastProbe : option MCPseudoProbe.t)
  : list MCOSCall * option MCPseudoProbe.t :=
  match t with
  | Node Guid Probes Children =>
      let '(hdr, Last1) :=
        if Guid =? 0 then ([], LastProbe)
        else
          let '(tr, Last') := emitProbes Probes LastProbe in
          ([emitInt64 Guid;
            emitULEB128IntValue (Z.of_nat (length Probes));
            emitULEB128IntValue (Z.of_nat (length Children))] ++ tr, Last')
      in
      let '(tr, Last2) :=
        emitInlinees (fun k => k) Guid
          (Inlinees
             (map (fun Child => (Child.1, MCPseudoProbeInlineTree_emit Child.2))
                  Children))
          Last1
      in
      (hdr ++ tr, Last2)
  end.

(** [MCPseudoProbeSection::emit] over [MCProbeDivisions], listed in its
    iteration order. *)
Definition MCPseudoProbeSection_emit
    (MCProbeDivisions : list (SectionKey * MCPseudoProbeInlineTree))
  : list MCOSCall :=
  flat_map
    (fun ProbeSec =>
       match getPseudoProbeSection ProbeSec.1 with
       | Some Sec =>
           SwitchSection Sec :: (MCPseudoProbeInlineTree_emit ProbeSec.2 None).1
       | None => []
       end)
    MCProbeDivisions.

(** Modelled from the spec: [getOrAddNode] is declared in
    llvm/MC/MCPseudoProbe.h, which is not under src/.  The child keyed by
    [Site] is installed when missing, with the GUID of the site, and
    reused otherwise; [f] is what the caller then does to the node the
    returned pointer designates. *)
Fixpoint withChild (Site : InlineSite)
    (f : MCPseudoProbeInlineTree -> MCPseudoProbeInlineTree)
    (Children : list (InlineSite * MCPseudoProbeInlineTree))
  : list (InlineSite * MCPseudoProbeInlineTree) :=
  match Children with
  | [] => [(Site, f (Node Site.1 [] []))]
  | (k, c) :: rest =>
      if decide (k = Site) then (k, f c) :: rest
      else (k, c) :: withChild Site f rest
  end.

Definition getOrAddNode (Site : InlineSite)
    (f : MCPseudoProbeInlineTree -> MCPseudoProbeInlineTree)
    (t : MCPseudoProbeInlineTree) : MCPseudoProbeInlineTree :=
  match t with
  | Node g ps cs => Node g ps (withChild Site f cs)
  end.

(** The inline sites that [addPseudoProbe] passes to [getOrAddNode] after
    the top edge: [Index] is the probe id of the previous stack entry. *)
Fixpoint interiorEdges (Index : Z) (Iter : list InlineSite) (ProbeGuid : Z)
  : list InlineSite :=
  match Iter with
  | [] => [(ProbeGuid, Index)]
  | it :: rest => (it.1, Index) :: interiorEdges it.2 rest ProbeGuid
  end.

Definition probeEdges (Probe : MCPseudoProbe.t) (InlineStack : list InlineSite)
  : list InlineSite :=
  match InlineStack with
  | [] => [(MCPseudoProbe.Guid Probe, 0)]
  | front :: rest =>
      (front.1, 0) :: interiorEdges front.2 rest (MCPseudoProbe.Guid Probe)
  end.

Definition push_back (Probe : MCPseudoProbe.t) (t : MCPseudoProbeInlineTree)
  : MCPseudoProbeInlineTree :=
  match t with Node g ps cs => Node g (ps ++ [Probe]) cs end.

(** [Cur] walks down one [getOrAddNode] per edge; the probe is pushed on
    the node it ends at. *)
Fixpoint addAlong (edges : list InlineSite) (Probe : MCPseudoProbe.t)
    (t : MCPseudoProbeInlineTree) : MCPseudoProbeInlineTree :=
  match edges with
  | [] => push_back Probe t
  | Site :: rest => getOrAddNode Site (addAlong rest Probe) t
  end.

(** [MCPseudoProbeInlineTree::addPseudoProbe], called on the root. *)
Definition addPseudoProbe (Probe : MCPseudoProbe.t)
    (InlineStack : list InlineSite) (t : MCPseudoProbeInlineTree)
  : MCPseudoProbeInlineTree :=
  addAlong (probeEdges Probe InlineStack) Probe t.

(** ** Decoder: read primitives *)

Definition readUnencodedNumber (T : IntTy) (c : Cursor) : ErrorOr Z * Cursor :=
  if (End c <? Data c + sizeof T)%nat then (Err, c)
  else
    let Val := static_cast T (readLE (take (sizeof T) (atData c))) in
    (Ok Val, advance (sizeof T) c).

Definition readUnsignedNumber (T : IntTy) (c : Cursor) : ErrorOr Z * Cursor :=
  let '(Val, NumBytesRead) := decodeULEB128 (atData c) in
  if (numeric_limits_max T <? Val) || (End c <? Data c + NumBytesRead)%nat
  then (Err, c)
  else (Ok (static_cast T Val), advance NumBytesRead c).

Definition readSignedNumber (T : IntTy) (c : Cursor) : ErrorOr Z * Cursor :=
  let '(Val, NumBytesRead) := decodeSLEB128 (atData c) in
  if (numeric_limits_max T <? Val) || (End c <? Data c + NumBytesRead)%nat
  then (Err, c)
  else (Ok (static_cast T Val), advance NumBytesRead c).

Definition readString (Size : Z) (c : Cursor) : ErrorOr (list Z) * Cursor :=
  let Str := take (Z.to_nat Size) (atData c) in
  if (End c <? Data c + Z.to_nat Size)%nat then (Err, c)
  else (Ok Str, advance (Z.to_nat Size) c).

(** ** Decoder: state *)

Definition set_cur (c : Cursor) (d : Decoder) : Decoder :=
  MCPseudoProbeDecoder.mk c
    (MCPseudoProbeDecoder.GUID2FuncDescMap d)
    (MCPseudoProbeDecoder.Address2ProbesMap d)
    (MCPseudoProbeDecoder.Nodes d).

Definition set_descs (m : gmap Z MCPseudoProbeFuncDesc.t) (d : Decoder) : Decoder :=
  MCPseudoProbeDecoder.mk (MCPseudoProbeDecoder.cur d) m
    (MCPseudoProbeDecoder.Address2ProbesMap d)
    (MCPseudoProbeDecoder.Nodes d).

Definition set_probes (m : gmap Z (list MCDecodedPseudoProbe.t)) (d : Decoder)
  : Decoder :=
  MCPseudoProbeDecoder.mk (MCPseudoProbeDecoder.cur d)
    (MCPseudoProbeDecoder.GUID2FuncDescMap d) m
    (MCPseudoProbeDecoder.Nodes d).

Definition set_nodes (ns : list DecNode) (d : Decoder) : Decoder :=
  MCPseudoProbeDecoder.mk (MCPseudoProbeDecoder.cur d)
    (MCPseudoProbeDecoder.GUID2FuncDescMap d)
    (MCPseudoProbeDecoder.Address2ProbesMap d) ns.

(** [&DummyInlineRoot] *)
Definition DummyInlineRoot : nat := 0%nat.

(** The default-constructed root: GUID 0, a value-initialised inline site,
    no parent. *)
Definition rootNode : DecNode :=
  MCDecodedPseudoProbeInlineTree.mk 0 (0, 0) None ∅ [].

(** A decoder before any section is parsed. *)
Definition freshDecoder : Decoder :=
  MCPseudoProbeDecoder.mk (mkCursor [] 0 0) ∅ ∅ [rootNode].

(** [Data = Start; End = Data + Size;] *)
Definition setInput (Start : list Z) (d : Decoder) : Decoder :=
  set_cur (mkCursor Start 0 (length Start)) d.

Definition dData (d : Decoder) : nat := Data (MCPseudoProbeDecoder.cur d).
Definition dEnd (d : Decoder) : nat := End (MCPseudoProbeDecoder.cur d).

(** A read primitive run on the decoder's cursor. *)
Definition rd {A : Type} (r : Cursor -> ErrorOr A * Cursor) (d : Decoder)
  : ErrorOr A * Decoder :=
  let '(x, c) := r (MCPseudoProbeDecoder.cur d) in (x, set_cur c d).

(** ** Decoder: descriptor section *)

(** [GUID2FuncDescMap.emplace(GUID, Desc)]: an existing entry is kept. *)
Definition emplace (GUID : Z) (Desc : MCPseudoProbeFuncDesc.t)
    (m : gmap Z MCPseudoProbeFuncDesc.t) : gmap Z MCPseudoProbeFuncDesc.t :=
  match m !! GUID with
  | Some _ => m
  | None => <[GUID := Desc]> m
  end.

(** The [while (Data < End)] loop of [buildGUID2FuncDescMap]; [None] only
    when the iteration budget runs out. *)
Fixpoint descLoop (fuel : nat) (d : Decoder) : option (bool * Decoder) :=
  if (dData d <? dEnd d)%nat then
    match fuel with
    | O => None
    | S fuel' =>
        match rd (readUnencodedNumber uint64_t) d with
        | (Err, d1) => Some (false, d1)
        | (Ok GUID, d1) =>
        match rd (readUnencodedNumber uint64_t) d1 with
        | (Err, d2) => Some (false, d2)
        | (Ok Hash, d2) =>
        match rd (readUnsignedNumber uint32_t) d2 with
        | (Err, d3) => Some (false, d3)
        | (Ok NameSize, d3) =>
        match rd (readString NameSize) d3 with
        | (Err, d4) => Some (false, d4)
        | (Ok Name, d4) =>
            descLoop fuel'
              (set_descs
                 (emplace GUID (MCPseudoProbeFuncDesc.mk GUID Hash Name)
                    (MCPseudoProbeDecoder.GUID2FuncDescMap d4)) d4)
        end end end end
    end
  else Some (true, d).

(** [buildGUID2FuncDescMap(Start, Size)].  Every completed iteration
    consumes at least sixteen bytes, so the budget is never exhausted. *)
Definition buildGUID2FuncDescMap (Start : list Z) (d : Decoder)
  : option (bool * Decoder) :=
  descLoop (S (length Start)) (setInput Start d).

(** ** Decoder: probe section *)

Definition set_Guid (g : Z) (n : DecNode) : DecNode :=
  MCDecodedPseudoProbeInlineTree.mk g
    (MCDecodedPseudoProbeInlineTree.ISite n)
    (MCDecodedPseudoProbeInlineTree.Parent n)
    (MCDecodedPseudoProbeInlineTree.Children n)
    (MCDecodedPseudoProbeInlineTree.Probes n).

Definition set_Parent (p : nat) (n : DecNode) : DecNode :=
  MCDecodedPseudoProbeInlineTree.mk
    (MCDecodedPseudoProbeInlineTree.Guid n)
    (MCDecodedPseudoProbeInlineTree.ISite n)
    (Some p)
    (MCDecodedPseudoProbeInlineTree.Children n)
    (MCDecodedPseudoProbeInlineTree.Probes n).

Definition add_Child (Site : InlineSite) (c : nat) (n : DecNode) : DecNode :=
  MCDecodedPseudoProbeInlineTree.mk
    (MCDecodedPseudoProbeInlineTree.Guid n)
    (MCDecodedPseudoProbeInlineTree.ISite n)
    (MCDecodedPseudoProbeInlineTree.Parent n)
    (<[Site := c]> (MCDecodedPseudoProbeInlineTree.Children n))
    (MCDecodedPseudoProbeInlineTree.Probes n).

(** [addProbes(Probe)] *)
Definition addProbes (Probe : Z * nat) (n : DecNode) : DecNode :=
  MCDecodedPseudoProbeInlineTree.mk
    (MCDecodedPseudoProbeInlineTree.Guid n)
    (MCDecodedPseudoProbeInlineTree.ISite n)
    (MCDecodedPseudoProbeInlineTree.Parent n)
    (MCDecodedPseudoProbeInlineTree.Children n)
    (MCDecodedPseudoProbeInlineTree.Probes n ++ [Probe]).

(** Modelled from the spec: the decoded tree's [getOrAddNode] is declared
    in llvm/MC/MCPseudoProbe.h, which is not under src/.  The child keyed
    by [Site] under node [this] is looked up or created (with [Site] as its
    inline site and GUID 0), its parent link is set to [this], and its
    index is returned.  A new node is allocated at the end of the arena.
    The parse only ever holds pointers to nodes of the arena; for an index
    that designates none the arena is left as it is. *)
Definition decGetOrAddNode (this : nat) (Site : InlineSite)
    (nodes : list DecNode) : nat * list DecNode :=
  match nodes !! this with
  | None => (this, nodes)
  | Some n =>
      match MCDecodedPseudoProbeInlineTree.Children n !! Site with
      | Some c => (c, alter (set_Parent this) c nodes)
      | None =>
          let c := length nodes in
          (c, <[this := add_Child Site c n]> nodes ++
              [MCDecodedPseudoProbeInlineTree.mk 0 Site (Some this) ∅ []])
      end
  end.

(** [Cur->Guid] *)
Definition nodeGuid (nodes : list DecNode) (Cur : nat) : Z :=
  match nodes !! Cur with
  | Some n => MCDecodedPseudoProbeInlineTree.Guid n
  | None => 0
  end.

(** [Cur->getChildren().size()], which the source stores in a
    [uint32_t]. *)
Definition childCount (nodes : list DecNode) (Cur : nat) : Z :=
  match nodes !! Cur with
  | Some n => Z.of_nat (size (MCDecodedPseudoProbeInlineTree.Children n))
  | None => 0
  end.

(** The fields unpacked from the type/flag byte of a probe record. *)
Definition Kind_of (Value : Z) : Z := Z.land Value 0xf.
Definition Attr_of (Value : Z) : Z := Z.shiftr (Z.land Value 0x70) 4.
Definition delta_flag (Value : Z) : bool := negb (Z.land Value 0x80 =? 0).

(** The address field of a probe record whose type/flag byte is [Value]:
    [LastAddr + Offset] on [uint64_t] for a delta, the fixed [int64_t]
    converted to [uint64_t] otherwise. *)
Definition readAddr (Value LastAddr : Z) (c : Cursor) : ErrorOr Z * Cursor :=
  if delta_flag Value then
    match readSignedNumber int64_t c with
    | (Err, c') => (Err, c')
    | (Ok Offset, c') => (Ok (wrap64 (LastAddr + Offset)), c')
    end
  else
    match readUnencodedNumber int64_t c with
    | (Err, c') => (Err, c')
    | (Ok Addr, c') => (Ok (wrap64 Addr), c')
    end.

(** The part of the probe loop's body guarded by [if (Cur)]. *)
Definition populate (Cur : option nat) (Addr Index Kind Attr : Z) (d : Decoder)
  : Decoder :=
  match Cur with
  | None => d
  | Some cur =>
      let nodes := MCPseudoProbeDecoder.Nodes d in
      let Probes := default [] (MCPseudoProbeDecoder.Address2ProbesMap d !! Addr) in
      let Probe :=
        MCDecodedPseudoProbe.mk Addr (nodeGuid nodes cur) Index Kind Attr cur in
      set_nodes (alter (addProbes (Addr, length Probes)) cur nodes)
        (set_probes
           (<[Addr := Probes ++ [Probe]]> (MCPseudoProbeDecoder.Address2ProbesMap d))
           d)
  end.

(** One iteration of the loop over the probes of a node.  The result is
    [false] where the source returns false, with [LastAddr] as it stands. *)
Definition decodeProbe (Cur : option nat) (LastAddr : Z) (d : Decoder)
  : bool * Z * Decoder :=
  match rd (readUnsignedNumber uint32_t) d with
  | (Err, d1) => (false, LastAddr, d1)
  | (Ok Index, d1) =>
  match rd (readUnencodedNumber uint8_t) d1 with
  | (Err, d2) => (false, LastAddr, d2)
  | (Ok Value, d2) =>
  match rd (readAddr Value LastAddr) d2 with
  | (Err, d3) => (false, LastAddr, d3)
  | (Ok Addr, d3) =>
      (true, Addr, populate Cur Addr Index (Kind_of Value) (Attr_of Value) d3)
  end end end.

Fixpoint decodeProbes (NodeCount : nat) (Cur : option nat) (LastAddr : Z)
    (d : Decoder) : bool * Z * Decoder :=
  match NodeCount with
  | O => (true, LastAddr, d)
  | S n =>
      match decodeProbe Cur LastAddr d with
      | (false, la, d') => (false, la, d')
      | (true, la, d') => decodeProbes n Cur la d'
      end
  end.

(** Lines 393-421 of the recursive [buildAddress2ProbeMap]: the inline
    site index, the GUID, the filter and the move of [Cur] to the child. *)
Definition enterNode (Cur : option nat) (GuildFilter : gset Z) (d : Decoder)
  : ErrorOr (option nat) * Decoder :=
  match (if bool_decide (Cur = Some DummyInlineRoot)
         then (Ok (static_cast uint32_t
                 (childCount (MCPseudoProbeDecoder.Nodes d) DummyInlineRoot)), d)
         else rd (readUnsignedNumber uint32_t) d) with
  | (Err, d1) => (Err, d1)
  | (Ok Index, d1) =>
  match rd (readUnencodedNumber uint64_t) d1 with
  | (Err, d2) => (Err, d2)
  | (Ok Guid, d2) =>
      let Cur1 :=
        if bool_decide (Cur = Some DummyInlineRoot) &&
           negb (bool_decide (GuildFilter = ∅)) &&
           negb (bool_decide (Guid ∈ GuildFilter))
        then None else Cur in
      match Cur1 with
      | None => (Ok None, d2)
      | Some cur =>
          let '(c, nodes) :=
            decGetOrAddNode cur (Guid, Index) (MCPseudoProbeDecoder.Nodes d2) in
          (Ok (Some c), set_nodes (alter (set_Guid Guid) c nodes) d2)
      end
  end end.

(** The loop over the inlinees of a node: [call] is the recursive call,
    whose boolean result is dropped, as in the source. *)
Fixpoint inlineesLoop (call : Z -> Decoder -> option (bool * Z * Decoder))
    (ChildrenToProcess : nat) (LastAddr : Z) (d : Decoder)
  : option (bool * Z * Decoder) :=
  match ChildrenToProcess with
  | O => Some (true, LastAddr, d)
  | S n =>
      match call LastAddr d with
      | None => None
      | Some (_, la, d') => inlineesLoop call n la d'
      end
  end.

(** The recursive [buildAddress2ProbeMap(Cur, LastAddr, GuildFilter)].
    [LastAddr] is passed by reference: its value on return is the second
    component.  The function returns false at the first read of its own
    that fails, and true after the loop over its inlinees.  [None] only
    when the recursion budget [fuel] runs out. *)
Fixpoint buildAddress2ProbeMap_rec (fuel : nat) (Cur : option nat)
    (LastAddr : Z) (GuildFilter : gset Z) (d : Decoder)
  : option (bool * Z * Decoder) :=
  match fuel with
  | O => None
  | S fuel' =>
      match enterNode Cur GuildFilter d with
      | (Err, d1) => Some (false, LastAddr, d1)
      | (Ok Cur', d1) =>
      match rd (readUnsignedNumber uint32_t) d1 with
      | (Err, d2) => Some (false, LastAddr, d2)
      | (Ok NodeCount, d2) =>
      match rd (readUnsignedNumber uint32_t) d2 with
      | (Err, d3) => Some (false, LastAddr, d3)
      | (Ok ChildrenToProcess, d3) =>
      match decodeProbes (Z.to_nat NodeCount) Cur' LastAddr d3 with
      | (false, la, d4) => Some (false, la, d4)
      | (true, la, d4) =>
          inlineesLoop
            (fun la d => buildAddress2ProbeMap_rec fuel' Cur' la GuildFilter d)
            (Z.to_nat ChildrenToProcess) la d4
      end end end end
  end.

(** The [while (Data < End)] loop of the top-level
    [buildAddress2ProbeMap]: the result of each call is dropped.  The
    loop ends with [LastAddr] and the decoder as they stand.  A nesting
    level is entered only after the eight bytes of a GUID have been read,
    so the budget handed to the recursive function is never exhausted;
    [None] stands for a loop that does not end within [fuel] iterations. *)
Fixpoint topLoop (fuel : nat) (LastAddr : Z) (GuildFilter : gset Z)
    (d : Decoder) : option (Z * Decoder) :=
  if (dData d <? dEnd d)%nat then
    match fuel with
    | O => None
    | S fuel' =>
        match buildAddress2ProbeMap_rec (S (dEnd d - dData d))
                (Some DummyInlineRoot) LastAddr GuildFilter d with
        | None => None
        | Some (_, la, d') => topLoop fuel' la GuildFilter d'
        end
    end
  else Some (LastAddr, d).

(** [buildAddress2ProbeMap(Start, Size, GuildFilter)]: when the loop
    ends the function returns true. *)
Definition buildAddress2ProbeMap (fuel : nat) (Start : list Z)
    (GuildFilter : gset Z) (d : Decoder) : option (bool * Decoder) :=
  let LastAddr := 0 in
  match topLoop fuel LastAddr GuildFilter (setInput Start d) with
  | Some (_, d') => Some (true, d')
  | None => None
  end.

(** ** Decoder: inline context of a probe *)

(** [hasInlineSite] is a parameter of the context queries. *)
Variable hasInlineSite : list DecNode -> nat -> bool.

(** [MCPseduoProbeFrameLocation]: function name and probe index. *)
Definition Frame : Type := (list Z * Z)%type.

(** [getProbeFNameForGUID]; [None] where the assertion fails. *)
Definition getProbeFNameForGUID (GUID2FuncMAP : gmap Z MCPseudoProbeFuncDesc.t)
    (GUID : Z) : option (list Z) :=
  MCPseudoProbeFuncDesc.FuncName <$> GUID2FuncMAP !! GUID.

(** The [while (Cur->hasInlineSite())] loop of [getInlineContext].
    [None] when a pointer that is followed is not set, when a name is
    missing, or when [fuel] iterations do not finish the walk. *)
Fixpoint inlineContextLoop (fuel : nat) (nodes : list DecNode)
    (GUID2FuncMAP : gmap Z MCPseudoProbeFuncDesc.t) (Cur : nat)
    (ContextStack : list Frame) : option (list Frame) :=
  if hasInlineSite nodes Cur then
    match fuel with
    | O => None
    | S fuel' =>
        n ← nodes !! Cur;
        p ← MCDecodedPseudoProbeInlineTree.Parent n;
        pn ← nodes !! p;
        FuncName ← getProbeFNameForGUID GUID2FuncMAP
                      (MCDecodedPseudoProbeInlineTree.Guid pn);
        inlineContextLoop fuel' nodes GUID2FuncMAP p
          (ContextStack ++ [(FuncName, (MCDecodedPseudoProbeInlineTree.ISite n).2)])
    end
  else Some ContextStack.

(** [MCDecodedPseudoProbe::getInlineContext] *)
Definition getInlineContext (fuel : nat) (nodes : list DecNode)
    (Probe : MCDecodedPseudoProbe.t) (ContextStack : list Frame)
    (GUID2FuncMAP : gmap Z MCPseudoProbeFuncDesc.t) : option (list Frame) :=
  let Begin := length ContextStack in
  cs ← inlineContextLoop fuel nodes GUID2FuncMAP
         (MCDecodedPseudoProbe.InlineTree Probe) ContextStack;
  Some (take Begin cs ++ reverse (drop Begin cs)).

(** [MCPseudoProbeDecoder::getInlineContextForProbe] *)
Definition getInlineContextForProbe (fuel : nat) (d : Decoder)
    (Probe : MCDecodedPseudoProbe.t) (InlineContextStack : list Frame)
    (IncludeLeaf : bool) : option (list Frame) :=
  cs ← getInlineContext fuel (MCPseudoProbeDecoder.Nodes d) Probe
         InlineContextStack (MCPseudoProbeDecoder.GUID2FuncDescMap d);
  if negb IncludeLeaf then Some cs
  else
    FuncDesc ← MCPseudoProbeDecoder.GUID2FuncDescMap d
                 !! MCDecodedPseudoProbe.Guid Probe;
    Some (cs ++ [(MCPseudoProbeFuncDesc.FuncName FuncDesc,
                  MCDecodedPseudoProbe.Index Probe)]).

(** ** Wire format of the two sections, as predicates on cursors *)

(** PROBE := INDEX PACKED ADDRESS.  The address of the record is computed
    from the address of the record before it, [LastAddr]. *)
Inductive ProbeRecord : Z -> Cursor -> Z -> Cursor -> Prop :=
| probe_record LastAddr c Index c1 Value c2 Addr c3 :
    readUnsignedNumber uint32_t c = (Ok Index, c1) ->
    readUnencodedNumber uint8_t c1 = (Ok Value, c2) ->
    readAddr Value LastAddr c2 = (Ok Addr, c3) ->
    ProbeRecord LastAddr c Addr c3.

(** [n] probe records; the last two indices are the address of the last
    record parsed and the cursor after it. *)
Inductive ProbeRecords : nat -> Z -> Cursor -> Z -> Cursor -> Prop :=
| probes_nil la c : ProbeRecords 0 la c la c
| probes_cons n la c la1 c1 la2 c2 :
    ProbeRecord la c la1 c1 -> ProbeRecords n la1 c1 la2 c2 ->
    ProbeRecords (S n) la c la2 c2.

(** FUNCTION_BODY, with its INLINE_SITE_INDEX unless [top]. *)
Inductive FunctionBody : bool -> Z -> Cursor -> Z -> Cursor -> Prop :=
| function_body (top : bool) la c c0 Guid c1 NProbes c2 NumInlined c3
                la4 c4 la5 c5 :
    (if top then c0 = c
     else ∃ Index, readUnsignedNumber uint32_t c = (Ok Index, c0)) ->
    readUnencodedNumber uint64_t c0 = (Ok Guid, c1) ->
    readUnsignedNumber uint32_t c1 = (Ok NProbes, c2) ->
    readUnsignedNumber uint32_t c2 = (Ok NumInlined, c3) ->
    ProbeRecords (Z.to_nat NProbes) la c3 la4 c4 ->
    InlinedBodies (Z.to_nat NumInlined) la4 c4 la5 c5 ->
    FunctionBody top la c la5 c5
with InlinedBodies : nat -> Z -> Cursor -> Z -> Cursor -> Prop :=
| inlined_nil la c : InlinedBodies 0 la c la c
| inlined_cons n la c la1 c1 la2 c2 :
    FunctionBody false la c la1 c1 -> InlinedBodies n la1 c1 la2 c2 ->
    InlinedBodies (S n) la c la2 c2.

(** A probe section from a cursor on: top-level function bodies up to
    [End], the address of the last record parsed being carried from one
    body to the next.  The last index is that address at the end. *)
Inductive ProbeSection : Z -> Cursor -> Z -> Prop :=
| section_end la c : (End c <= Data c)%nat -> ProbeSection la c la
| section_body la c la1 c1 la2 :
    (Data c < End c)%nat -> FunctionBody true la c la1 c1 ->
    ProbeSection la1 c1 la2 ->
    ProbeSection la c la2.

(** One record of the descriptor section. *)
Inductive DescRecord : Cursor -> Cursor -> Prop :=
| desc_record c GUID c1 Hash c2 NameSize c3 Name c4 :
    readUnencodedNumber uint64_t c = (Ok GUID, c1) ->
    readUnencodedNumber uint64_t c1 = (Ok Hash, c2) ->
    readUnsignedNumber uint32_t c2 = (Ok NameSize, c3) ->
    readString NameSize c3 = (Ok Name, c4) ->
    DescRecord c c4.

Inductive DescSection : Cursor -> Prop :=
| desc_end c : (End c <= Data c)%nat -> DescSection c
| desc_more c c' :
    (Data c < End c)%nat -> DescRecord c c' -> DescSection c' ->
    DescSection c.

(** ** Properties of the decoded forest *)

(** The node is below a top-level function (a child of the dummy root)
    whose GUID is in [F]. *)
Inductive TopLevelGuidIn (F : gset Z) (nodes : list DecNode) : nat -> Prop :=
| top_level id n :
    nodes !! id = Some n ->
    MCDecodedPseudoProbeInlineTree.Parent n = Some DummyInlineRoot ->
    MCDecodedPseudoProbeInlineTree.Guid n ∈ F ->
    TopLevelGuidIn F nodes id
| top_above id n p :
    nodes !! id = Some n ->
    MCDecodedPseudoProbeInlineTree.Parent n = Some p ->
    TopLevelGuidIn F nodes p ->
    TopLevelGuidIn F nodes id.

(** The frames the context walk collects from a node upwards: one per
    node that has an inline site, made of the name of the parent's
    function and of the node's call-site index. *)
Inductive ContextWalk (nodes : list DecNode)
    (GUID2FuncMAP : gmap Z MCPseudoProbeFuncDesc.t) : nat -> list Frame -> Prop :=
| walk_done id : hasInlineSite nodes id = false -> ContextWalk nodes GUID2FuncMAP id []
| walk_up id n p pn FuncDesc frames :
    hasInlineSite nodes id = true ->
    nodes !! id = Some n ->
    MCDecodedPseudoProbeInlineTree.Parent n = Some p ->
    nodes !! p = Some pn ->
    GUID2FuncMAP !! MCDecodedPseudoProbeInlineTree.Guid pn = Some FuncDesc ->
    ContextWalk nodes GUID2FuncMAP p frames ->
    ContextWalk nodes GUID2FuncMAP id
      ((MCPseudoProbeFuncDesc.FuncName FuncDesc,
        (MCDecodedPseudoProbeInlineTree.ISite n).2) :: frames).

(** Whether the address index holds, last at [Addr], a probe with that
    address; asked only when the node pointer is not null. *)
Definition storedAt (Cur : option nat) (Addr : Z) (d : Decoder) : Prop :=
  match Cur with
  | None => True
  | Some cur =>
      ∃ ps p, MCPseudoProbeDecoder.Address2ProbesMap d !! Addr = Some (ps ++ [p]) ∧
              MCDecodedPseudoProbe.Address p = Addr ∧
              MCDecodedPseudoProbe.InlineTree p = cur
  end.

(** Ascending order of inline sites: by GUID, then by call-site index. *)
Definition site_before (a b : InlineSite) : Prop :=
  a.1 < b.1 ∨ (a.1 = b.1 ∧ a.2 < b.2).

(** The order of the inline sites of the children that [emit] walks. *)
Definition childOrder (t : MCPseudoProbeInlineTree) : list InlineSite :=
  (Inlinees (tree_Children t)).*1.

(** The header and the probes that [emit] writes for a node that is not
    the root. *)
Definition emitHeader (Guid : Z) (Probes : list MCPseudoProbe.t)
    (NumChildren : nat) (LastProbe : option MCPseudoProbe.t)
  : list MCOSCall * option MCPseudoProbe.t :=
  if Guid =? 0 then ([], LastProbe)
  else
    ([emitInt64 Guid;
      emitULEB128IntValue (Z.of_nat (length Probes));
      emitULEB128IntValue (Z.of_nat NumChildren)] ++
     (emitProbes Probes LastProbe).1,
     (emitProbes Probes LastProbe).2).

(** The body of the loop over [Inlinees] in [emit], for one inlinee: its
    call-site index, unless the node is the root, then the calls of the
    child's own [emit]. *)
Definition inlineeCalls (Guid : Z)
    (Inlinee : InlineSite * MCPseudoProbeInlineTree)
    (LastProbe : option MCPseudoProbe.t) : list MCOSCall :=
  (if Guid =? 0 then [] else [emitULEB128IntValue Inlinee.1.2]) ++
  (MCPseudoProbeInlineTree_emit Inlinee.2 LastProbe).1.

(** Specification of the walk, to be compared with the loop of [emit]:
    [WalkedInOrder Guid l Last tr Last'] says that [tr] is made of the
    calls of the inlinees of [l] taken from the first to the last, each
    one started with [LastProbe] as the one before it left it, and that
    [Last'] is [LastProbe] after the last one. *)
Inductive WalkedInOrder (Guid : Z) :
    list (InlineSite * MCPseudoProbeInlineTree) -> option MCPseudoProbe.t ->
    list MCOSCall -> option MCPseudoProbe.t -> Prop :=
  | walked_none Last : WalkedInOrder Guid [] Last [] Last
  | walked_next Inlinee rest Last tr Last' :
      WalkedInOrder Guid rest
        (MCPseudoProbeInlineTree_emit Inlinee.2 Last).2 tr Last' ->
      WalkedInOrder Guid (Inlinee :: rest) Last
        (inlineeCalls Guid Inlinee Last ++ tr) Last'.

(** The probes of a tree in the order [emit] reaches them: those of the
    node, unless it is the root, then those of the children in the order
    of the sorted map. *)
Fixpoint emittedProbes (t : MCPseudoProbeInlineTree) : list MCPseudoProbe.t :=
  match t with
  | Node Guid Probes Children =>
      (if Guid =? 0 then [] else Probes) ++
      concat (Inlinees (map (fun Child => (Child.1, emittedProbes Child.2))
                            Children)).*2
  end.

(** The calls that only [MCPseudoProbe::emit] makes: the type/flag byte
    and the address field. *)
Definition isProbeCall (c : MCOSCall) : bool :=
  match c with
  | emitInt8 _ | emitSLEB128IntValue _ | emitSymbolValue _ _
  | insertAddrFragment _ _ => true
  | _ => false
  end.

Definition probeCalls (tr : list MCOSCall) : list MCOSCall :=
  List.filter isProbeCall tr.

(** The type/flag byte and the address field of the first probe record
    of a walk: delta flag clear, symbolic code address. *)
Definition firstRecordCalls (Probe : MCPseudoProbe.t) : list MCOSCall :=
  [emitInt8 (MCPseudoProbe.Type_ Probe + 16 * MCPseudoProbe.Attributes Probe);
   emitSymbolValue (MCPseudoProbe.Label Probe) getCodePointerSize].

(** The same two calls for a probe emitted after [Last]: delta flag set,
    address relative to [Last]. *)
Definition deltaRecordCalls (Probe Last : MCPseudoProbe.t) : list MCOSCall :=
  [emitInt8 (128 + (MCPseudoProbe.Type_ Probe + 16 * MCPseudoProbe.Attributes Probe));
   match evaluateAsAbsolute (MCPseudoProbe.Label Probe)
                            (MCPseudoProbe.Label Last) with
   | Some Delta => emitSLEB128IntValue Delta
   | None => insertAddrFragment (MCPseudoProbe.Label Probe)
                                (MCPseudoProbe.Label Last)
   end].

Definition recordCalls (Probe : MCPseudoProbe.t)
    (LastProbe : option MCPseudoProbe.t) : list MCOSCall :=
  match LastProbe with
  | None => firstRecordCalls Probe
  | Some Last => deltaRecordCalls Probe Last
  end.

Definition probeInBounds (Probe : MCPseudoProbe.t) : Prop :=
  0 <= MCPseudoProbe.Type_ Probe <= 15 ∧ 0 <= MCPseudoProbe.Attributes Probe <= 7.

(** The child of a node under an inline site, and the node at the end of
    a path of inline sites. *)
Fixpoint findChild (Site : InlineSite)
    (Children : list (InlineSite * MCPseudoProbeInlineTree))
  : option MCPseudoProbeInlineTree :=
  match Children with
  | [] => None
  | (k, c) :: rest => if decide (k = Site) then Some c else findChild Site rest
  end.

Fixpoint nodeAt (path : list InlineSite) (t : MCPseudoProbeInlineTree)
  : option MCPseudoProbeInlineTree :=
  match path with
  | [] => Some t
  | Site :: rest => c ← findChild Site (tree_Children t); nodeAt rest c
  end.

(** The probes held at a path; none where there is no node. *)
Definition probesAt (path : list InlineSite) (t : MCPseudoProbeInlineTree)
  : list MCPseudoProbe.t :=
  from_option tree_Probes [] (nodeAt path t).

(** The path of the specification for a probe and its inline stack:
    the top-level function under call site 0, then for every further
    stack entry its GUID under the call site of the entry before it, and
    last the probe's GUID under the call site of the last entry. *)
Definition claimedPath (Probe : MCPseudoProbe.t) (InlineStack : list InlineSite)
  : list InlineSite :=
  match InlineStack with
  | [] => [(MCPseudoProbe.Guid Probe, 0)]
  | first :: later =>
      (first.1, 0) ::
      zip_with (fun prev entry => (entry.1, prev.2)) InlineStack later ++
      [(MCPseudoProbe.Guid Probe, (List.last InlineStack first).2)]
  end.

(** [c'] is a later position of the cursor [c] over the same bytes. *)
Definition follows (c c' : Cursor) : Prop :=
  Mem c' = Mem c ∧ End c' = End c ∧ (Data c <= Data c')%nat ∧
  ((Data c <= End c)%nat -> (Data c' <= End c')%nat).

Definition dfollows (d d' : Decoder) : Prop :=
  follows (MCPseudoProbeDecoder.cur d) (MCPseudoProbeDecoder.cur d').

(** The links of the decoded forest are consistent: the root is there,
    and every entry of a children map designates a node other than the
    root whose parent link points back at the owner of the map. *)
Definition store_ok (nodes : list DecNode) : Prop :=
  is_Some (nodes !! DummyInlineRoot) ∧
  ∀ id n Site c,
    nodes !! id = Some n ->
    MCDecodedPseudoProbeInlineTree.Children n !! Site = Some c ->
    c ≠ DummyInlineRoot ∧
    ∃ nc, nodes !! c = Some nc ∧
          MCDecodedPseudoProbeInlineTree.Parent nc = Some id.

(** With a filter in force ([G] not empty), the node is below a
    top-level function whose GUID passes it. *)
Definition under (G : gset Z) (nodes : list DecNode) (id : nat) : Prop :=
  G = ∅ ∨ TopLevelGuidIn G nodes id.

(** Every node keeps its index, its parent link and its GUID. *)
Definition kept (nodes nodes' : list DecNode) : Prop :=
  ∀ id n, nodes !! id = Some n ->
    ∃ n', nodes' !! id = Some n' ∧
          MCDecodedPseudoProbeInlineTree.Parent n' =
            MCDecodedPseudoProbeInlineTree.Parent n ∧
          MCDecodedPseudoProbeInlineTree.Guid n' =
            MCDecodedPseudoProbeInlineTree.Guid n.

(** Nodes stay, and stay below the top-level functions they were below. *)
Definition extends (G : gset Z) (nodes nodes' : list DecNode) : Prop :=
  (∀ id, is_Some (nodes !! id) -> is_Some (nodes' !! id)) ∧
  (∀ id, under G nodes id -> under G nodes' id).

(** What the probe-section parse maintains: consistent links, and every
    node other than the root and every stored probe below a top-level
    function that passes the filter. *)
Definition decoder_ok (G : gset Z) (d : Decoder) : Prop :=
  store_ok (MCPseudoProbeDecoder.Nodes d) ∧
  (∀ id, id ≠ DummyInlineRoot ->
         is_Some (MCPseudoProbeDecoder.Nodes d !! id) ->
         under G (MCPseudoProbeDecoder.Nodes d) id) ∧
  (∀ Addr ps p,
     MCPseudoProbeDecoder.Address2ProbesMap d !! Addr = Some ps -> p ∈ ps ->
     MCDecodedPseudoProbe.InlineTree p ≠ DummyInlineRoot ∧
     is_Some (MCPseudoProbeDecoder.Nodes d !! MCDecodedPseudoProbe.InlineTree p)).

(** A node pointer is null or designates a node of the arena. *)
Definition cur_valid (nodes : list DecNode) (Cur : option nat) : Prop :=
  match Cur with
  | None => True
  | Some id => is_Some (nodes !! id)
  end.

Definition valid_kept (nodes nodes' : list DecNode) : Prop :=
  ∀ id, is_Some (nodes !! id) -> is_Some (nodes' !! id).

Scheme FunctionBody_min := Minimality for FunctionBody Sort Prop
  with InlinedBodies_min := Minimality for InlinedBodies Sort Prop.
Combined Scheme body_mutind from FunctionBody_min, InlinedBodies_min.

(** The encoder tree after the two probes of the worked input. *)
Definition treeABC : MCPseudoProbeInlineTree :=
  addPseudoProbe probeC [(1, 88); (2, 66)]
    (addPseudoProbe probeA [] (Node 0 [] [])).

(** ** Content of a descriptor section *)

(** The descriptors read from a cursor on, in the order of the records,
    and the cursor after the last of them. *)
Inductive DescRecordsAt : Cursor -> list MCPseudoProbeFuncDesc.t -> Cursor -> Prop :=
| records_none c : DescRecordsAt c [] c
| records_more c GUID c1 Hash c2 NameSize c3 Name c4 rest c' :
    (Data c < End c)%nat ->
    readUnencodedNumber uint64_t c = (Ok GUID, c1) ->
    readUnencodedNumber uint64_t c1 = (Ok Hash, c2) ->
    readUnsignedNumber uint32_t c2 = (Ok NameSize, c3) ->
    readString NameSize c3 = (Ok Name, c4) ->
    DescRecordsAt c4 rest c' ->
    DescRecordsAt c (MCPseudoProbeFuncDesc.mk GUID Hash Name :: rest) c'.

(** The first descriptor of a list that describes [GUID]. *)
Fixpoint firstDesc (GUID : Z) (recs : list MCPseudoProbeFuncDesc.t)
  : option MCPseudoProbeFuncDesc.t :=
  match recs with
  | [] => None
  | r :: rest =>
      if decide (MCPseudoProbeFuncDesc.FuncGUID r = GUID) then Some r
      else firstDesc GUID rest
  end.

(** Top-level function bodies read from a cursor on, and the cursor and
    the address of the last record after the last of them. *)
Inductive TopBodies : Z -> Cursor -> Z -> Cursor -> Prop :=
| bodies_none la c : TopBodies la c la c
| bodies_more la c la1 c1 la2 c2 :
    (Data c < End c)%nat -> FunctionBody true la c la1 c1 ->
    TopBodies la1 c1 la2 c2 ->
    TopBodies la c la2 c2.

(** ** The updates made by the probe-section parse *)

(** Lines 419-420 of the recursive [buildAddress2ProbeMap]: the move to
    the child under [Site], looked up or created, and the assignment of
    its GUID. *)
Definition enterChild (cur : nat) (Site : InlineSite) (nodes : list DecNode)
  : list DecNode :=
  alter (set_Guid Site.1) (decGetOrAddNode cur Site nodes).1
        (decGetOrAddNode cur Site nodes).2.

(** The parse changes the decoder in three ways only: it moves the read
    cursor, it enters a child node, and it files a probe under a node.
    With [valid], the node pointers involved designate nodes of a forest
    whose links are consistent. *)
Inductive ParseStep (valid : Prop) : Decoder -> Decoder -> Prop :=
| step_cursor c d : ParseStep valid d (set_cur c d)
| step_node cur Site d :
    (valid -> store_ok (MCPseudoProbeDecoder.Nodes d) ∧
              is_Some (MCPseudoProbeDecoder.Nodes d !! cur)) ->
    ParseStep valid d
      (set_nodes (enterChild cur Site (MCPseudoProbeDecoder.Nodes d)) d)
| step_probe cur Addr Index Kind Attr d :
    (valid -> is_Some (MCPseudoProbeDecoder.Nodes d !! cur) ∧
              cur ≠ DummyInlineRoot) ->
    ParseStep valid d (populate (Some cur) Addr Index Kind Attr d).

(** The tables of [d'] extend those of [d]: every list of the address
    index has grown at its end, and every node is still at its index,
    with its inline site, with the children it had and with a list of
    probes that has grown at its end. *)
Definition grown (d d' : Decoder) : Prop :=
  (∀ Addr ps,
     MCPseudoProbeDecoder.Address2ProbesMap d !! Addr = Some ps ->
     ∃ ps', MCPseudoProbeDecoder.Address2ProbesMap d' !! Addr = Some (ps ++ ps')) ∧
  (∀ id n,
     MCPseudoProbeDecoder.Nodes d !! id = Some n ->
     ∃ n', MCPseudoProbeDecoder.Nodes d' !! id = Some n' ∧
           MCDecodedPseudoProbeInlineTree.ISite n' =
             MCDecodedPseudoProbeInlineTree.ISite n ∧
           MCDecodedPseudoProbeInlineTree.Probes n `prefix_of`
             MCDecodedPseudoProbeInlineTree.Probes n' ∧
           MCDecodedPseudoProbeInlineTree.Children n ⊆
             MCDecodedPseudoProbeInlineTree.Children n').

(** The address index and the forest point at each other: a probe is
    filed under its own address and its node lists it, by address and
    position; and what a node lists is a probe of the index that points
    back at the node. *)
Definition index_linked (d : Decoder) : Prop :=
  (∀ Addr ps i p,
     MCPseudoProbeDecoder.Address2ProbesMap d !! Addr = Some ps ->
     ps !! i = Some p ->
     MCDecodedPseudoProbe.Address p = Addr ∧
     ∃ n, MCPseudoProbeDecoder.Nodes d !! MCDecodedPseudoProbe.InlineTree p = Some n ∧
          (Addr, i) ∈ MCDecodedPseudoProbeInlineTree.Probes n) ∧
  (∀ id n Addr i,
     MCPseudoProbeDecoder.Nodes d !! id = Some n ->
     (Addr, i) ∈ MCDecodedPseudoProbeInlineTree.Probes n ->
     ∃ ps p, MCPseudoProbeDecoder.Address2ProbesMap d !! Addr = Some ps ∧
             ps !! i = Some p ∧ MCDecodedPseudoProbe.InlineTree p = id).

(** The GUIDs agree: a child is filed under its own inline site, the GUID
    of a node is the GUID of its inline site, and the GUID of a probe is
    the GUID of its node. *)
Definition guids_agree (d : Decoder) : Prop :=
  (∀ id n Site c,
     MCPseudoProbeDecoder.Nodes d !! id = Some n ->
     MCDecodedPseudoProbeInlineTree.Children n !! Site = Some c ->
     ∃ nc, MCPseudoProbeDecoder.Nodes d !! c = Some nc ∧
           MCDecodedPseudoProbeInlineTree.ISite nc = Site) ∧
  (∀ id n,
     MCPseudoProbeDecoder.Nodes d !! id = Some n ->
     MCDecodedPseudoProbeInlineTree.Guid n =
       (MCDecodedPseudoProbeInlineTree.ISite n).1) ∧
  (∀ Addr ps p,
     MCPseudoProbeDecoder.Address2ProbesMap d !! Addr = Some ps -> p ∈ ps ->
     ∃ n, MCPseudoProbeDecoder.Nodes d !! MCDecodedPseudoProbe.InlineTree p = Some n ∧
          MCDecodedPseudoProbe.Guid p = MCDecodedPseudoProbeInlineTree.Guid n).

(** ** Decoder: queries on the decoded tables *)

(** [isCall] is a parameter of the call-probe query. *)
Variable isCall : MCDecodedPseudoProbe.t -> bool.

(** [MCPseudoProbeDecoder::getCallProbeForAddr].  The loop keeps the last
    call probe it meets; the assertion is not part of the result.  The
    pointer returned is rendered as the probe it designates, [None] for
    the null pointer. *)
Definition getCallProbeForAddr (d : Decoder) (Address : Z)
  : option MCDecodedPseudoProbe.t :=
  match MCPseudoProbeDecoder.Address2ProbesMap d !! Address with
  | None => None
  | Some Probes =>
      foldl (fun CallProbe Probe => if isCall Probe then Some Probe else CallProbe)
            None Probes
  end.

(** [MCPseudoProbeDecoder::getFuncDescForGUID]; [None] where the
    assertion fails. *)
Definition getFuncDescForGUID (d : Decoder) (GUID : Z)
  : option MCPseudoProbeFuncDesc.t :=
  MCPseudoProbeDecoder.GUID2FuncDescMap d !! GUID.

(** [MCPseudoProbeDecoder::getInlinerDescForProbe].  [Some None] stands
    for the null pointer; the result is [None] when a pointer that is
    followed is not set or when the descriptor is missing. *)
Definition getInlinerDescForProbe (d : Decoder) (Probe : MCDecodedPseudoProbe.t)
  : option (option MCPseudoProbeFuncDesc.t) :=
  let InlinerNode := MCDecodedPseudoProbe.InlineTree Probe in
  if negb (hasInlineSite (MCPseudoProbeDecoder.Nodes d) InlinerNode) then Some None
  else
    n ← MCPseudoProbeDecoder.Nodes d !! InlinerNode;
    p ← MCDecodedPseudoProbeInlineTree.Parent n;
    pn ← MCPseudoProbeDecoder.Nodes d !! p;
    Some <$> getFuncDescForGUID d (MCDecodedPseudoProbeInlineTree.Guid pn).

(** The decimal digits that the string stream writes for a [uint32_t]
    are a parameter of the context string. *)
Variable showIndex : Z -> list Z.

(** The loop of [getInlineContextStr] over the frames, from the string
    accumulated so far: the separator is written when that string is not
    empty, then the name, a colon and the index. *)
Definition contextStrLoop (ContextStack : list Frame) (OContextStr : list Z)
  : list Z :=
  foldl (fun OContextStr Cxt =>
           (if (0 <? length OContextStr)%nat
            then OContextStr ++ [32; 64; 32] else OContextStr) ++
           Cxt.1 ++ [58] ++ showIndex Cxt.2)
        OContextStr ContextStack.

(** [MCDecodedPseudoProbe::getInlineContextStr]; characters are bytes. *)
Definition getInlineContextStr (fuel : nat) (nodes : list DecNode)
    (Probe : MCDecodedPseudoProbe.t)
    (GUID2FuncMAP : gmap Z MCPseudoProbeFuncDesc.t) : option (list Z) :=
  ContextStack ← getInlineContext fuel nodes Probe [] GUID2FuncMAP;
  Some (contextStrLoop ContextStack []).

(** A frame written as its name, a colon and its index; and strings put
    one after the other with a separator between them. *)
Definition showFrame (Cxt : Frame) : list Z := Cxt.1 ++ [58] ++ showIndex Cxt.2.

Definition joinWith (sep : list Z) (parts : list (list Z)) : list Z :=
  match parts with
  | [] => []
  | first :: rest => first ++ concat (map (fun part => sep ++ part) rest)
  end.

(** [buildAddress2ProbeMap(Start, Size)]: the filter is empty. *)
Definition buildAddress2ProbeMap_unfiltered (fuel : nat) (Start : list Z)
    (d : Decoder) : option (bool * Decoder) :=
  let GuildFilter : gset Z := ∅ in
  buildAddress2ProbeMap fuel Start GuildFilter d.

(** ** Well-formed encoder trees *)

(** At every node of the tree the inline sites of the children are
    distinct, as the keys of a map are, and every child carries the GUID
    of the inline site it is filed under. *)
Fixpoint tree_wf (t : MCPseudoProbeInlineTree) : Prop :=
  match t with
  | Node Guid Probes Children =>
      NoDup Children.*1 ∧
      foldr (fun Child rest =>
               (tree_Guid Child.2 = Child.1.1 ∧ tree_wf Child.2) ∧ rest)
            True Children
  end.

(** The GUID of the node that [addAlong] ends at: the GUID of the last
    inline site of the path, or that of the tree for the empty path. *)
Definition targetGuid (edges : list InlineSite) (t : MCPseudoProbeInlineTree) : Z :=
  match last edges with
  | Some Site => Site.1
  | None => tree_Guid t
  end.

(** ** The format of the emitted calls *)

(** The call that writes the address field of a probe record. *)
Definition isAddrCall (c : MCOSCall) : bool :=
  match c with
  | emitSLEB128IntValue _ | emitSymbolValue _ _ | insertAddrFragment _ _ => true
  | _ => false
  end.

(** PROBE: the index, the packed type/flag byte and the address. *)
Inductive RecordCalls : list MCOSCall -> Prop :=
| record_calls Index Value a :
    isAddrCall a = true ->
    RecordCalls [emitULEB128IntValue Index; emitInt8 Value; a].

(** FUNCTION BODY: the GUID, the number of probe records, the number of
    inlined bodies, then as many probe records and as many inlined bodies
    as announced, each inlined body after the index of its call site. *)
Inductive BodyCalls : list MCOSCall -> Prop :=
| body_calls Guid (recs : list (list MCOSCall))
             (bodies : list (Z * list MCOSCall)) :
    Guid ≠ 0 ->
    Forall RecordCalls recs ->
    Forall (fun body => BodyCalls body.2) bodies ->
    BodyCalls
      ([emitInt64 Guid;
        emitULEB128IntValue (Z.of_nat (length recs));
        emitULEB128IntValue (Z.of_nat (length bodies))] ++
       concat recs ++
       concat (map (fun body => emitULEB128IntValue body.1 :: body.2) bodies)).

(** No node of the tree has the GUID 0. *)
Fixpoint guids_nonzero (t : MCPseudoProbeInlineTree) : Prop :=
  match t with
  | Node Guid Probes Children =>
      Guid ≠ 0 ∧
      foldr (fun Child rest => guids_nonzero Child.2 ∧ rest) True Children
  end.

(** A probe section from a cursor on, with the GUIDs of its top-level
    function bodies in the order of the section. *)
Inductive TopGuids : Z -> Cursor -> list Z -> Prop :=
| top_guids_end la c : (End c <= Data c)%nat -> TopGuids la c []
| top_guids_more la c Guid c0 la1 c1 rest :
    (Data c < End c)%nat ->
    readUnencodedNumber uint64_t c = (Ok Guid, c0) ->
    FunctionBody true la c la1 c1 ->
    TopGuids la1 c1 rest ->
    TopGuids la c (Guid :: rest).

(** ** Content of a probe section *)

(** The fields that a probe record fixes: address, index, kind and
    attributes. *)
Definition ProbeFields : Type := (Z * Z * Z * Z)%type.

Definition fieldsOf (Probe : MCDecodedPseudoProbe.t) : ProbeFields :=
  (MCDecodedPseudoProbe.Address Probe, MCDecodedPseudoProbe.Index Probe,
   MCDecodedPseudoProbe.Type_ Probe, MCDecodedPseudoProbe.Attributes Probe).

(** The records at one address, in the order of the list. *)
Definition fieldsAt (Addr : Z) (recs : list ProbeFields) : list ProbeFields :=
  filter (fun r => r.1.1.1 = Addr) recs.

(** [n] probe records, with the fields they hold in the order of the
    section. *)
Inductive ProbeRecordsT : nat -> Z -> Cursor -> Z -> Cursor ->
                          list ProbeFields -> Prop :=
| probesT_nil la c : ProbeRecordsT 0 la c la c []
| probesT_cons n la c Index c1 Value c2 Addr c3 la2 c4 rest :
    readUnsignedNumber uint32_t c = (Ok Index, c1) ->
    readUnencodedNumber uint8_t c1 = (Ok Value, c2) ->
    readAddr Value la c2 = (Ok Addr, c3) ->
    ProbeRecordsT n Addr c3 la2 c4 rest ->
    ProbeRecordsT (S n) la c la2 c4
      ((Addr, Index, Kind_of Value, Attr_of Value) :: rest).

(** A function body with its GUID and with the records of its probes
    followed by those of its inlined bodies. *)
Inductive FunctionBodyT : bool -> Z -> Z -> Cursor -> Z -> Cursor ->
                          list ProbeFields -> Prop :=
| function_bodyT (top : bool) la c c0 Guid c1 NProbes c2 NumInlined c3
                 la4 c4 la5 c5 own inl :
    (if top then c0 = c
     else ∃ Index, readUnsignedNumber uint32_t c = (Ok Index, c0)) ->
    readUnencodedNumber uint64_t c0 = (Ok Guid, c1) ->
    readUnsignedNumber uint32_t c1 = (Ok NProbes, c2) ->
    readUnsignedNumber uint32_t c2 = (Ok NumInlined, c3) ->
    ProbeRecordsT (Z.to_nat NProbes) la c3 la4 c4 own ->
    InlinedBodiesT (Z.to_nat NumInlined) la4 c4 la5 c5 inl ->
    FunctionBodyT top Guid la c la5 c5 (own ++ inl)
with InlinedBodiesT : nat -> Z -> Cursor -> Z -> Cursor ->
                      list ProbeFields -> Prop :=
| inlinedT_nil la c : InlinedBodiesT 0 la c la c []
| inlinedT_cons n Guid la c la1 c1 la2 c2 first rest :
    FunctionBodyT false Guid la c la1 c1 first ->
    InlinedBodiesT n la1 c1 la2 c2 rest ->
    InlinedBodiesT (S n) la c la2 c2 (first ++ rest).

(** A probe section from a cursor on: for each top-level function body,
    in the order of the section, its GUID and its records. *)
Inductive ProbeSectionT : Z -> Cursor -> list (Z * list ProbeFields) -> Prop :=
| sectionT_end la c : (End c <= Data c)%nat -> ProbeSectionT la c []
| sectionT_body la c Guid la1 c1 first rest :
    (Data c < End c)%nat -> FunctionBodyT true Guid la c la1 c1 first ->
    ProbeSectionT la1 c1 rest ->
    ProbeSectionT la c ((Guid, first) :: rest).

Scheme FunctionBodyT_min := Minimality for FunctionBodyT Sort Prop
  with InlinedBodiesT_min := Minimality for InlinedBodiesT Sort Prop.
Combined Scheme bodyT_mutind from FunctionBodyT_min, InlinedBodiesT_min.

(** Whether the body of function [Guid] entered from [Cur] is kept: the
    pointer is not null and, for a top-level function, there is no filter
    or the filter holds the GUID. *)
Definition keeps (F : gset Z) (top : bool) (Guid : Z) (Cur : option nat) : bool :=
  match Cur with
  | None => false
  | Some _ => negb top || bool_decide (F = ∅) || bool_decide (Guid ∈ F)
  end.

(** The records of the top-level functions that pass the filter. *)
Definition keptRecords (F : gset Z) (bodies : list (Z * list ProbeFields))
  : list ProbeFields :=
  concat (map (fun body =>
                 if bool_decide (F = ∅) || bool_decide (body.1 ∈ F)
                 then body.2 else [])
              bodies).

(** The address index of [d'] is that of [d] with the records [recs]
    appended, each at the end of the list of its address. *)
Definition indexed (d d' : Decoder) (recs : list ProbeFields) : Prop :=
  ∀ Addr,
    fieldsOf <$> default [] (MCPseudoProbeDecoder.Address2ProbesMap d' !! Addr) =
    (fieldsOf <$> default [] (MCPseudoProbeDecoder.Address2ProbesMap d !! Addr)) ++
    fieldsAt Addr recs.

(** * Properties *)

(** ** Read primitives *)

Lemma rd_cur {A : Type} (r : Cursor -> ErrorOr A * Cursor) (d : Decoder) :
  rd r d = ((r (MCPseudoProbeDecoder.cur d)).1,
            set_cur (r (MCPseudoProbeDecoder.cur d)).2 d).
Proof. unfold rd. by destruct (r _). Qed.

Lemma set_cur_id (d : Decoder) : set_cur (MCPseudoProbeDecoder.cur d) d = d.
Proof. by destruct d. Qed.

(** C10. Each read primitive is atomic with respect to the cursor: when
    it reports an error the cursor is exactly the one it was called with,
    and when it succeeds the cursor has moved forward by the number of
    bytes of the field just read. *)
Theorem read_primitives_atomic (T : IntTy) (Size : Z) (c : Cursor) :
  match readUnencodedNumber T c with
  | (Err, c') => c' = c
  | (Ok _, c') => c' = advance (sizeof T) c
  end ∧
  match readUnsignedNumber T c with
  | (Err, c') => c' = c
  | (Ok _, c') => c' = advance (decodeULEB128 (atData c)).2 c
  end ∧
  match readSignedNumber T c with
  | (Err, c') => c' = c
  | (Ok _, c') => c' = advance (decodeSLEB128 (atData c)).2 c
  end ∧
  match readString Size c with
  | (Err, c') => c' = c
  | (Ok _, c') => c' = advance (Z.to_nat Size) c
  end.
Proof.
  unfold readUnencodedNumber, readUnsignedNumber, readSignedNumber, readString.
  repeat split.
  - by destruct (_ <? _)%nat.
  - destruct (decodeULEB128 (atData c)) as [Val n]; simpl.
    by destruct (_ || _).
  - destruct (decodeSLEB128 (atData c)) as [Val n]; simpl.
    by destruct (_ || _).
  - by destruct (_ <? _)%nat.
Qed.

(** ** The packed type/flag byte *)

Lemma small_cases (x n : Z) :
  0 <= x <= n -> Exists (fun k => x = k) (map Z.of_nat (seq 0 (S (Z.to_nat n)))).
Proof.
  intros H. apply Exists_exists. exists x. split; [|done].
  apply list_elem_of_In, in_map_iff. exists (Z.to_nat x).
  split; [lia|]. apply in_seq. lia.
Qed.

(** C5. For a probe whose type is at most 15 and whose attributes are at
    most 7, the byte that the emitter writes is a [uint8_t] from which the
    decoder's unpacking recovers the type and the attributes, and whose
    bit 7 is set exactly when a previous probe was supplied. *)
Theorem packed_byte_round_trip (Probe : MCPseudoProbe.t)
    (LastProbe : option MCPseudoProbe.t) :
  0 <= MCPseudoProbe.Type_ Probe <= 15 ->
  0 <= MCPseudoProbe.Attributes Probe <= 7 ->
  ∃ Value,
    MCPseudoProbe_emit Probe LastProbe !! 1%nat = Some (emitInt8 Value) ∧
    static_cast uint8_t (readLE [Value]) = Value ∧
    Kind_of Value = MCPseudoProbe.Type_ Probe ∧
    Attr_of Value = MCPseudoProbe.Attributes Probe ∧
    delta_flag Value = bool_decide (is_Some LastProbe).
Proof.
  intros Ht Ha. eexists. split; [reflexivity|].
  unfold PackedType.
  destruct Probe as [l g i t a]; simpl in *.
  assert (Hl : bool_decide (is_Some LastProbe) =
               match LastProbe with Some _ => true | None => false end).
  { destruct LastProbe; [apply bool_decide_eq_true; eauto|].
    apply bool_decide_eq_false. by intros [? ?]. }
  rewrite Hl. clear Hl.
  apply small_cases in Ht. apply small_cases in Ha.
  repeat (apply Exists_cons in Ht; destruct Ht as [->|Ht]);
    [..|by apply Exists_nil in Ht];
    (repeat (apply Exists_cons in Ha; destruct Ha as [->|Ha]);
      [..|by apply Exists_nil in Ha]);
    destruct LastProbe; vm_compute; done.
Qed.

(** ** Addresses of the decoded probes *)

Lemma wrap64_static_cast_int64 (v : Z) :
  wrap64 (static_cast int64_t v) = v mod 2 ^ 64.
Proof.
  unfold wrap64, static_cast. cbv zeta.
  change (8 * Z.of_nat (sizeof int64_t)) with 64.
  change (is_signed int64_t) with true. cbn [andb].
  pose proof (Z.mod_pos_bound v (2 ^ 64) ltac:(lia)) as Hu.
  set (u := v mod 2 ^ 64) in *.
  destruct (_ <=? _).
  - symmetry. apply (Z.mod_unique _ _ (-1)); lia.
  - apply Z.mod_small. lia.
Qed.

Lemma readLE_bound (bs : list Z) :
  Forall (fun b => 0 <= b < 256) bs -> 0 <= readLE bs < 256 ^ Z.of_nat (length bs).
Proof.
  induction 1 as [|b bs Hb _ IH]; [done|].
  cbn [readLE foldr length]. fold (readLE bs).
  rewrite Nat2Z.inj_succ, Z.pow_succ_r by lia. nia.
Qed.

Lemma readLE_take8 (bs : list Z) :
  Forall (fun b => 0 <= b < 256) bs -> readLE (take 8 bs) mod 2 ^ 64 = readLE (take 8 bs).
Proof.
  intros H. apply Z.mod_small.
  pose proof (readLE_bound (take 8 bs) (Forall_take _ _ _ H)) as Hb.
  assert (256 ^ Z.of_nat (length (take 8 bs)) <= 256 ^ 8)
    by (apply Z.pow_le_mono_r; rewrite ?length_take; lia).
  change (2 ^ 64) with (256 ^ 8). lia.
Qed.

Lemma populate_storedAt (Cur : option nat) (Addr Index Kind Attr : Z) (d : Decoder) :
  storedAt Cur Addr (populate Cur Addr Index Kind Attr d).
Proof.
  destruct Cur as [cur|]; [|done]. simpl.
  eexists _, _. rewrite lookup_insert_eq. done.
Qed.

Lemma populate_cur (Cur : option nat) (Addr Index Kind Attr : Z) (d : Decoder) :
  MCPseudoProbeDecoder.cur (populate Cur Addr Index Kind Attr d) =
  MCPseudoProbeDecoder.cur d.
Proof. by destruct Cur. Qed.

(** ** Order of emission *)

Lemma site_lt_spec (a b : InlineSite) : site_lt a b = true ↔ site_before a b.
Proof.
  unfold site_lt, site_before.
  by rewrite orb_true_iff, andb_true_iff, !Z.ltb_lt, Z.eqb_eq.
Qed.

Lemma site_before_trans (a b c : InlineSite) :
  site_before a b -> site_before b c -> site_before a c.
Proof. unfold site_before. lia. Qed.

Lemma site_total (a b : InlineSite) :
  site_lt a b = false -> site_lt b a = false -> a = b.
Proof.
  intros H1 H2.
  assert (¬ site_before a b) as N1 by (rewrite <- site_lt_spec; congruence).
  assert (¬ site_before b a) as N2 by (rewrite <- site_lt_spec; congruence).
  unfold site_before in *. destruct a, b; simpl in *. f_equal; lia.
Qed.

Lemma map_assign_keys {V : Type} (k : InlineSite) (v : V) m x :
  x ∈ (map_assign k v m).*1 -> x = k ∨ x ∈ m.*1.
Proof.
  induction m as [|[k' v'] m IH]; simpl.
  - rewrite list_elem_of_singleton. auto.
  - destruct (site_lt k k'); [|destruct (site_lt k' k)]; simpl;
      rewrite !elem_of_cons;
      [intros [?|[?|?]]; auto
      |intros [?|H]; [auto|apply IH in H as [?|?]; auto]
      |intros [?|?]; auto].
Qed.

Lemma map_assign_sorted {V : Type} (k : InlineSite) (v : V) m :
  StronglySorted site_before m.*1 ->
  StronglySorted site_before (map_assign k v m).*1.
Proof.
  induction m as [|[k' v'] m IH]; simpl; intros Hs.
  - repeat constructor.
  - apply StronglySorted_cons in Hs as [Hall Hs].
    destruct (site_lt k k') eqn:E1; [|destruct (site_lt k' k) eqn:E2]; simpl.
    + apply site_lt_spec in E1. apply StronglySorted_cons. split.
      * constructor; [done|].
        eapply Forall_impl; [exact Hall|]. intros y Hy.
        by eapply site_before_trans.
      * by apply StronglySorted_cons.
    + apply site_lt_spec in E2. apply StronglySorted_cons. split; [|auto].
      apply Forall_forall. intros y Hy.
      apply map_assign_keys in Hy as [->|Hy]; [done|].
      by eapply Forall_forall in Hall.
    + by apply StronglySorted_cons.
Qed.

Lemma map_assign_fresh {V : Type} (k : InlineSite) (v : V) m :
  k ∉ m.*1 -> map_assign k v m ≡ₚ (k, v) :: m.
Proof.
  induction m as [|[k' v'] m IH]; simpl; intros Hk; [done|].
  apply not_elem_of_cons in Hk as [Hne Hk].
  destruct (site_lt k k') eqn:E1; [done|].
  destruct (site_lt k' k) eqn:E2.
  - rewrite IH by done. apply Permutation_swap.
  - by apply site_total in E2.
Qed.

Lemma Inlinees_from {V : Type} (Children acc : list (InlineSite * V)) :
  StronglySorted site_before acc.*1 ->
  StronglySorted site_before
    (foldl (fun m Child => map_assign Child.1 Child.2 m) acc Children).*1 ∧
  (NoDup (acc.*1 ++ Children.*1) ->
   foldl (fun m Child => map_assign Child.1 Child.2 m) acc Children
     ≡ₚ acc ++ Children).
Proof.
  revert acc. induction Children as [|[k v] cs IH]; simpl; intros acc Hs.
  - split; [done|]. intros _. by rewrite app_nil_r.
  - destruct (IH (map_assign k v acc) (map_assign_sorted k v acc Hs)) as [H1 H2].
    split; [done|]. intros Hnd.
    assert (Hk : k ∉ acc.*1).
    { apply NoDup_app in Hnd as (_ & Hd & _). intros Hin.
      apply (Hd k Hin). left. }
    rewrite H2.
    + rewrite map_assign_fresh by done. simpl. apply Permutation_middle.
    + rewrite (fmap_Permutation fst _ _ (map_assign_fresh k v acc Hk)).
      simpl. by rewrite <- Permutation_middle in Hnd.
Qed.

Lemma map_assign_values {V W : Type} (f : V -> W) k v (m : list (InlineSite * V)) :
  map_assign k (f v) (map (fun c => (c.1, f c.2)) m) =
  map (fun c => (c.1, f c.2)) (map_assign k v m).
Proof.
  induction m as [|[k' v'] m IH]; simpl; [done|].
  destruct (site_lt k k'); [done|]. destruct (site_lt k' k); [|done].
  simpl. by rewrite IH.
Qed.

Lemma Inlinees_values {V W : Type} (f : V -> W) (Children : list (InlineSite * V)) :
  Inlinees (map (fun c => (c.1, f c.2)) Children) =
  map (fun c => (c.1, f c.2)) (Inlinees Children).
Proof.
  unfold Inlinees.
  change (@nil (InlineSite * W)) with (map (fun c : InlineSite * V => (c.1, f c.2)) []).
  generalize (@nil (InlineSite * V)).
  induction Children as [|[k v] cs IH]; simpl; intros acc; [done|].
  by rewrite map_assign_values, IH.
Qed.

Lemma emitInlinees_values {V : Type}
    (f : V -> option MCPseudoProbe.t -> list MCOSCall * option MCPseudoProbe.t)
    (Guid : Z) (inl : list (InlineSite * V)) (LastProbe : option MCPseudoProbe.t) :
  emitInlinees (fun k => k) Guid (map (fun c => (c.1, f c.2)) inl) LastProbe =
  emitInlinees f Guid inl LastProbe.
Proof.
  revert LastProbe. induction inl as [|[k v] inl IH]; simpl; intros L; [done|].
  destruct (f v L) as [tr L1]. by rewrite IH.
Qed.

(** The equation of [emit] with the recursive calls made on the children
    in the order of the sorted map. *)
Lemma MCPseudoProbeInlineTree_emit_eq Guid Probes Children LastProbe :
  MCPseudoProbeInlineTree_emit (Node Guid Probes Children) LastProbe =
  let '(hdr, Last1) := emitHeader Guid Probes (length Children) LastProbe in
  let '(tr, Last2) :=
    emitInlinees MCPseudoProbeInlineTree_emit Guid (Inlinees Children) Last1 in
  (hdr ++ tr, Last2).
Proof.
  cbn [MCPseudoProbeInlineTree_emit]. unfold emitHeader.
  rewrite (Inlinees_values MCPseudoProbeInlineTree_emit).
  destruct (Guid =? 0).
  - by rewrite emitInlinees_values.
  - destruct (emitProbes Probes LastProbe) as [tr L']. simpl.
    by rewrite emitInlinees_values.
Qed.

(** The probes of a node are emitted in the order of the list, each one
    against the probe emitted before it. *)
Lemma emitProbes_order (Probes : list MCPseudoProbe.t)
    (LastProbe : option MCPseudoProbe.t) :
  (emitProbes Probes LastProbe).1 =
    concat (zip_with MCPseudoProbe_emit Probes (LastProbe :: map Some Probes)) ∧
  (emitProbes Probes LastProbe).2 = last (LastProbe :: map Some Probes) ≫= id.
Proof.
  revert LastProbe. induction Probes as [|p ps IH]; intros L; [done|].
  cbn [emitProbes]. destruct (emitProbes ps (Some p)) as [tr L'] eqn:E.
  destruct (IH (Some p)) as [H1 H2]. rewrite E in H1, H2. simpl in *.
  split; [by rewrite H1|]. rewrite H2. by destruct ps.
Qed.

Lemma emitInlinees_cons {V : Type}
    (f : V -> option MCPseudoProbe.t -> list MCOSCall * option MCPseudoProbe.t)
    (Guid : Z) k c (l : list (InlineSite * V)) (L : option MCPseudoProbe.t) :
  emitInlinees f Guid ((k, c) :: l) L =
  ((if Guid =? 0 then [] else [emitULEB128IntValue k.2]) ++
   (f c L).1 ++ (emitInlinees f Guid l (f c L).2).1,
   (emitInlinees f Guid l (f c L).2).2).
Proof.
  simpl. destruct (f c L) as [tr L1]. simpl.
  by destruct (emitInlinees f Guid l L1).
Qed.

Lemma MCPseudoProbeInlineTree_emit_proj Guid Probes Children L :
  MCPseudoProbeInlineTree_emit (Node Guid Probes Children) L =
  ((emitHeader Guid Probes (length Children) L).1 ++
   (emitInlinees MCPseudoProbeInlineTree_emit Guid (Inlinees Children)
      (emitHeader Guid Probes (length Children) L).2).1,
   (emitInlinees MCPseudoProbeInlineTree_emit Guid (Inlinees Children)
      (emitHeader Guid Probes (length Children) L).2).2).
Proof.
  rewrite MCPseudoProbeInlineTree_emit_eq.
  destruct (emitHeader _ _ _ _) as [hdr L1]. simpl.
  by destruct (emitInlinees _ _ _ _).
Qed.

(** The loop of [emit] takes the inlinees from the first of the sorted
    map to the last. *)
Lemma emitInlinees_walked (Guid : Z)
    (l : list (InlineSite * MCPseudoProbeInlineTree))
    (L : option MCPseudoProbe.t) :
  WalkedInOrder Guid l L
    (emitInlinees MCPseudoProbeInlineTree_emit Guid l L).1
    (emitInlinees MCPseudoProbeInlineTree_emit Guid l L).2.
Proof.
  revert L. induction l as [|[k c] l IH]; intros L; [constructor|].
  rewrite emitInlinees_cons. cbn [fst snd]. rewrite app_assoc.
  apply (walked_next Guid (k, c) l L). apply IH.
Qed.

Lemma walked_app (Guid : Z) (l1 l2 : list (InlineSite * MCPseudoProbeInlineTree))
    (L L' : option MCPseudoProbe.t) (tr : list MCOSCall) :
  WalkedInOrder Guid (l1 ++ l2) L tr L' ->
  ∃ tr1 tr2 Lm, tr = tr1 ++ tr2 ∧
                WalkedInOrder Guid l1 L tr1 Lm ∧ WalkedInOrder Guid l2 Lm tr2 L'.
Proof.
  revert L tr. induction l1 as [|a l1 IH]; intros L tr H.
  - exists [], tr, L. split; [done|]. split; [constructor|done].
  - inversion H as [|? ? ? tr' ? H']; subst.
    destruct (IH _ _ H') as (tr1 & tr2 & Lm & -> & H1 & H2).
    exists (inlineeCalls Guid a L ++ tr1), tr2, Lm.
    split; [by rewrite app_assoc|]. split; [by constructor|done].
Qed.

(** In a walk, the calls of an inlinee that stands earlier in the list
    come earlier in the stream. *)
Lemma walked_pair (Guid : Z) (l1 l2 l3 : list (InlineSite * MCPseudoProbeInlineTree))
    (a b : InlineSite * MCPseudoProbeInlineTree)
    (L L' : option MCPseudoProbe.t) (tr : list MCOSCall) :
  WalkedInOrder Guid (l1 ++ a :: l2 ++ b :: l3) L tr L' ->
  ∃ pre mid post La Lb,
    tr = pre ++ inlineeCalls Guid a La ++ mid ++ inlineeCalls Guid b Lb ++ post.
Proof.
  intros H.
  apply walked_app in H as (pre & tr2 & La & -> & _ & H).
  inversion H as [|? ? ? tr3 ? H3]; subst.
  apply walked_app in H3 as (mid & tr4 & Lb & -> & _ & H4).
  inversion H4 as [|? ? ? post ? _]; subst.
  by exists pre, mid, post, La, Lb.
Qed.

(** In a list sorted by inline site, an entry with the smaller site
    stands before one with the larger site. *)
Lemma sorted_sites_before {V : Type} (l : list (InlineSite * V))
    (a b : InlineSite * V) :
  StronglySorted site_before l.*1 -> a ∈ l -> b ∈ l -> site_before a.1 b.1 ->
  ∃ l1 l2 l3, l = l1 ++ a :: l2 ++ b :: l3.
Proof.
  intros Hs Ha Hb Hab.
  apply list_elem_of_split in Ha as (l1 & r & ->).
  rewrite fmap_app, fmap_cons in Hs.
  apply elem_of_app in Hb as [Hb|Hb].
  - exfalso.
    assert (Hba : site_before b.1 a.1).
    { apply (StronglySorted_app_1_elem_of _ _ _ _ _ Hs).
      - by apply list_elem_of_fmap_2.
      - left. }
    unfold site_before in Hab, Hba. lia.
  - apply elem_of_cons in Hb as [->|Hb].
    + exfalso. unfold site_before in Hab. lia.
    + apply list_elem_of_split in Hb as (l2 & l3 & ->). by exists l1, l2, l3.
Qed.

(** C2 (amended). A node's children are walked in ascending order of
    their inline site compared as the tuple it is, by GUID first and by
    call-site index on equal GUIDs.  The walked list is sorted in that
    order and holds every child once; the stream is the header and the
    probes of the node followed by the calls of the inlinees taken from
    the first of that list to the last; so of two children, the calls of
    the one with the smaller site stand earlier in the stream.  The probes
    of the node are emitted in insertion order. *)
Theorem children_emitted_in_site_order (t : MCPseudoProbeInlineTree)
    (LastProbe : option MCPseudoProbe.t) :
  NoDup (tree_Children t).*1 ->
  StronglySorted site_before (childOrder t) ∧
  Inlinees (tree_Children t) ≡ₚ tree_Children t ∧
  (∃ tr Last2,
     WalkedInOrder (tree_Guid t) (Inlinees (tree_Children t))
       (emitHeader (tree_Guid t) (tree_Probes t)
          (length (tree_Children t)) LastProbe).2 tr Last2 ∧
     MCPseudoProbeInlineTree_emit t LastProbe =
       ((emitHeader (tree_Guid t) (tree_Probes t)
           (length (tree_Children t)) LastProbe).1 ++ tr, Last2)) ∧
  (∀ a b, a ∈ tree_Children t -> b ∈ tree_Children t ->
          site_before a.1 b.1 ->
     ∃ pre mid post La Lb,
       (MCPseudoProbeInlineTree_emit t LastProbe).1 =
         pre ++ inlineeCalls (tree_Guid t) a La ++
         mid ++ inlineeCalls (tree_Guid t) b Lb ++ post) ∧
  (emitProbes (tree_Probes t) LastProbe).1 =
    concat (zip_with MCPseudoProbe_emit (tree_Probes t)
              (LastProbe :: map Some (tree_Probes t))).
Proof.
  destruct t as [Guid Probes Children]. unfold childOrder.
  cbn [tree_Guid tree_Probes tree_Children]. intros Hnd.
  destruct (Inlinees_from Children [] (SSorted_nil _)) as [H1 H2].
  specialize (H2 Hnd). simpl in H2.
  split; [exact H1|]. split; [exact H2|].
  pose proof (emitInlinees_walked Guid (Inlinees Children)
                (emitHeader Guid Probes (length Children) LastProbe).2) as W.
  split; [|split; [|apply emitProbes_order]].
  - eexists _, _. split; [exact W|apply MCPseudoProbeInlineTree_emit_proj].
  - intros a b Ha Hb Hab.
    rewrite <- H2 in Ha, Hb.
    destruct (sorted_sites_before _ a b H1 Ha Hb Hab) as (l1 & l2 & l3 & E).
    rewrite MCPseudoProbeInlineTree_emit_proj. cbn [fst].
    revert W.
    generalize (emitInlinees MCPseudoProbeInlineTree_emit Guid (Inlinees Children)
                  (emitHeader Guid Probes (length Children) LastProbe).2).
    unfold Inlinees in E. fold (Inlinees Children) in E. rewrite E.
    intros [tr L'] W. cbn [fst snd] in *.
    apply walked_pair in W as (pre & mid & post & La & Lb & ->).
    exists ((emitHeader Guid Probes (length Children) LastProbe).1 ++ pre),
           mid, post, La, Lb.
    by rewrite <- app_assoc.
Qed.

(** ** The [LastProbe] cursor of a section *)

Lemma tree_induction (P : MCPseudoProbeInlineTree -> Prop) :
  (∀ Guid Probes Children,
     Forall (fun Child => P Child.2) Children -> P (Node Guid Probes Children)) ->
  ∀ t, P t.
Proof.
  intros H. fix IH 1. intros [Guid Probes Children]. apply H.
  induction Children as [|[k c] cs IHcs]; constructor; [apply IH|apply IHcs].
Qed.

Lemma map_assign_Forall {V : Type} (P : V -> Prop) k v (m : list (InlineSite * V)) :
  P v -> Forall (fun c => P c.2) m -> Forall (fun c => P c.2) (map_assign k v m).
Proof.
  intros Hv. induction 1 as [|[k' v'] m Hx Hm IH]; simpl.
  - by repeat constructor.
  - destruct (site_lt k k'); [|destruct (site_lt k' k)];
      repeat constructor; auto.
Qed.

Lemma Inlinees_Forall {V : Type} (P : V -> Prop) (Children : list (InlineSite * V)) :
  Forall (fun c => P c.2) Children -> Forall (fun c => P c.2) (Inlinees Children).
Proof.
  unfold Inlinees. assert (Hacc : Forall (fun c : InlineSite * V => P c.2) []) by constructor.
  revert Hacc. generalize (@nil (InlineSite * V)).
  induction Children as [|[k v] cs IH]; simpl; intros acc Hacc Hc; [done|].
  apply Forall_cons in Hc as [Hv Hc].
  apply IH; [|done]. by apply map_assign_Forall.
Qed.

Lemma emittedProbes_eq Guid Probes Children :
  emittedProbes (Node Guid Probes Children) =
  (if Guid =? 0 then [] else Probes) ++
  concat (map (fun c => emittedProbes c.2) (Inlinees Children)).
Proof.
  cbn [emittedProbes]. rewrite (Inlinees_values emittedProbes).
  f_equal. f_equal. induction (Inlinees Children) as [|[k c] l IH]; [done|].
  simpl. by rewrite <- IH.
Qed.

Lemma emitProbes_app (ps1 ps2 : list MCPseudoProbe.t) (L : option MCPseudoProbe.t) :
  emitProbes (ps1 ++ ps2) L =
  ((emitProbes ps1 L).1 ++ (emitProbes ps2 (emitProbes ps1 L).2).1,
   (emitProbes ps2 (emitProbes ps1 L).2).2).
Proof.
  revert L. induction ps1 as [|p ps1 IH]; intros L; simpl.
  - by destruct (emitProbes ps2 L).
  - rewrite IH. destruct (emitProbes ps1 (Some p)); simpl.
    by rewrite app_assoc.
Qed.

Lemma probeCalls_app (a b : list MCOSCall) :
  probeCalls (a ++ b) = probeCalls a ++ probeCalls b.
Proof. apply List.filter_app. Qed.

Lemma emitHeader_probes Guid Probes n L :
  probeCalls (emitHeader Guid Probes n L).1 =
    probeCalls (emitProbes (if Guid =? 0 then [] else Probes) L).1 ∧
  (emitHeader Guid Probes n L).2 =
    (emitProbes (if Guid =? 0 then [] else Probes) L).2.
Proof. unfold emitHeader. by destruct (Guid =? 0). Qed.

(** As far as probe records and the cursor go, walking a tree is emitting
    its probes one after the other. *)
Lemma emit_as_emitProbes (t : MCPseudoProbeInlineTree) :
  ∀ L, probeCalls (MCPseudoProbeInlineTree_emit t L).1 =
         probeCalls (emitProbes (emittedProbes t) L).1 ∧
       (MCPseudoProbeInlineTree_emit t L).2 = (emitProbes (emittedProbes t) L).2.
Proof.
  induction t as [Guid Probes Children IH] using tree_induction. intros L.
  rewrite MCPseudoProbeInlineTree_emit_proj, emittedProbes_eq, emitProbes_app.
  apply (Inlinees_Forall
           (fun c => ∀ L, probeCalls (MCPseudoProbeInlineTree_emit c L).1 =
                          probeCalls (emitProbes (emittedProbes c) L).1 ∧
                          (MCPseudoProbeInlineTree_emit c L).2 =
                          (emitProbes (emittedProbes c) L).2)) in IH.
  destruct (emitHeader_probes Guid Probes (length Children) L) as [Hh1 Hh2].
  cbn [fst snd]. rewrite probeCalls_app, Hh1, Hh2.
  generalize (emitProbes (if Guid =? 0 then [] else Probes) L).2. intros L1.
  rewrite probeCalls_app.
  enough (Hin :
    probeCalls (emitInlinees MCPseudoProbeInlineTree_emit Guid (Inlinees Children) L1).1 =
    probeCalls (emitProbes
      (concat (map (fun c => emittedProbes c.2) (Inlinees Children))) L1).1 ∧
    (emitInlinees MCPseudoProbeInlineTree_emit Guid (Inlinees Children) L1).2 =
    (emitProbes
      (concat (map (fun c => emittedProbes c.2) (Inlinees Children))) L1).2).
  { destruct Hin as [-> ->]. done. }
  revert L1. induction IH as [|[k c] l Hc _ IHl]; intros L1; [done|].
  rewrite emitInlinees_cons. cbn [map concat fst snd].
  rewrite emitProbes_app. cbn [fst snd].
  destruct (Hc L1) as [Hc1 Hc2]. cbn [snd] in Hc1, Hc2.
  rewrite Hc2. destruct (IHl (emitProbes (emittedProbes c) L1).2) as [Hl1 Hl2].
  rewrite !probeCalls_app, Hc1, Hl1, Hl2. split; [|done].
  by destruct (Guid =? 0).
Qed.

Lemma packed_byte_value (Probe : MCPseudoProbe.t) (LastProbe : option MCPseudoProbe.t) :
  probeInBounds Probe ->
  Z.lor (Flag LastProbe) (PackedType Probe) =
  match LastProbe with Some _ => 128 | None => 0 end +
  (MCPseudoProbe.Type_ Probe + 16 * MCPseudoProbe.Attributes Probe).
Proof.
  intros [Ht Ha]. unfold PackedType.
  destruct Probe as [l g i t a]; simpl in *.
  apply small_cases in Ht. apply small_cases in Ha.
  repeat (apply Exists_cons in Ht; destruct Ht as [->|Ht]);
    [..|by apply Exists_nil in Ht];
    (repeat (apply Exists_cons in Ha; destruct Ha as [->|Ha]);
      [..|by apply Exists_nil in Ha]);
    by destruct LastProbe.
Qed.

Lemma emitProbes_records (Probes : list MCPseudoProbe.t)
    (LastProbe : option MCPseudoProbe.t) :
  Forall probeInBounds Probes ->
  probeCalls (emitProbes Probes LastProbe).1 =
  concat (zip_with recordCalls Probes (LastProbe :: map Some Probes)).
Proof.
  intros H. revert LastProbe.
  induction H as [|p ps Hp _ IH]; intros L; [done|].
  cbn [emitProbes]. specialize (IH (Some p)).
  destruct (emitProbes ps (Some p)) as [tr L']. simpl in IH.
  cbn [fst map zip_with concat]. rewrite probeCalls_app, IH. f_equal.
  unfold MCPseudoProbe_emit. rewrite (packed_byte_value p L Hp).
  destruct L as [Last|]; simpl; [|done].
  unfold deltaRecordCalls. by destruct (evaluateAsAbsolute _ _).
Qed.

(** C8. The walk of each section that resolves starts from an empty
    [LastProbe], whatever was emitted for the sections before it.  In a
    walk whose probes satisfy the encoder's bounds, the first probe
    record has its delta flag clear and carries the symbolic code address
    of its label; every later record, in whichever node, has the flag set
    and carries the address relative to the probe emitted just before. *)
Theorem section_walk_delta_flags
    (before after : list (SectionKey * MCPseudoProbeInlineTree))
    (key : SectionKey) (Sec : MCSection) (t : MCPseudoProbeInlineTree) :
  getPseudoProbeSection key = Some Sec ->
  Forall probeInBounds (emittedProbes t) ->
  MCPseudoProbeSection_emit (before ++ (key, t) :: after) =
    MCPseudoProbeSection_emit before ++
    SwitchSection Sec :: (MCPseudoProbeInlineTree_emit t None).1 ++
    MCPseudoProbeSection_emit after ∧
  probeCalls (MCPseudoProbeInlineTree_emit t None).1 =
    match emittedProbes t with
    | [] => []
    | first :: rest =>
        firstRecordCalls first ++
        concat (zip_with deltaRecordCalls rest (first :: rest))
    end ∧
  Forall (fun Probe =>
            delta_flag (MCPseudoProbe.Type_ Probe +
                        16 * MCPseudoProbe.Attributes Probe) = false ∧
            delta_flag (128 + (MCPseudoProbe.Type_ Probe +
                               16 * MCPseudoProbe.Attributes Probe)) = true)
         (emittedProbes t).
Proof.
  intros Hsec Hb. split; [|split].
  - unfold MCPseudoProbeSection_emit.
    rewrite flat_map_app. cbn [flat_map fst snd]. by rewrite Hsec.
  - destruct (emit_as_emitProbes t None) as [-> _].
    rewrite emitProbes_records by done.
    destruct (emittedProbes t) as [|first rest]; [done|].
    cbn [map zip_with concat recordCalls]. f_equal. f_equal.
    change (Some first :: map Some rest) with (map Some (first :: rest)).
    generalize (first :: rest). clear.
    induction rest as [|p ps IH]; intros [|q l]; simpl; try done.
    by rewrite IH.
  - eapply Forall_impl; [exact Hb|]. intros [l g i ty a] [Ht Ha]; simpl in *.
    apply small_cases in Ht. apply small_cases in Ha.
    repeat (apply Exists_cons in Ht; destruct Ht as [->|Ht]);
      [..|by apply Exists_nil in Ht];
      (repeat (apply Exists_cons in Ha; destruct Ha as [->|Ha]);
        [..|by apply Exists_nil in Ha]); done.
Qed.

(** ** Insertion of a probe under its inline stack *)

Lemma last_nonempty {A : Type} (l : list A) (a b : A) :
  l ≠ [] -> List.last l a = List.last l b.
Proof.
  induction l as [|x l IH]; [done|]. intros _.
  destruct l as [|y l]; [done|]. by apply IH.
Qed.

Lemma interiorEdges_claimed (prev : InlineSite) (later : list InlineSite) (g : Z) :
  interiorEdges prev.2 later g =
  zip_with (fun prev entry => (entry.1, prev.2)) (prev :: later) later ++
  [(g, (List.last (prev :: later) prev).2)].
Proof.
  revert prev. induction later as [|e later IH]; intros prev; [done|].
  cbn [interiorEdges zip_with]. rewrite IH. simpl. do 3 f_equal.
  destruct later as [|x later]; [done|]. by rewrite (last_nonempty _ e prev).
Qed.

Lemma probeEdges_claimed (Probe : MCPseudoProbe.t) (InlineStack : list InlineSite) :
  probeEdges Probe InlineStack = claimedPath Probe InlineStack.
Proof.
  destruct InlineStack as [|first later]; [done|].
  unfold probeEdges, claimedPath. by rewrite interiorEdges_claimed.
Qed.

Lemma findChild_withChild (Site Site' : InlineSite) f Children :
  findChild Site' (withChild Site f Children) =
  if decide (Site' = Site)
  then Some (f (default (Node Site.1 [] []) (findChild Site Children)))
  else findChild Site' Children.
Proof.
  induction Children as [|[k c] cs IH]; simpl.
  - destruct (decide (Site = Site')), (decide (Site' = Site)); congruence.
  - destruct (decide (k = Site)) as [->|Hk]; simpl.
    + destruct (decide (Site = Site')), (decide (Site' = Site)); congruence.
    + destruct (decide (k = Site')) as [->|Hk'].
      * destruct (decide (Site' = Site)); congruence.
      * exact IH.
Qed.

Lemma probesAt_new (Guid : Z) (q : list InlineSite) :
  probesAt q (Node Guid [] []) = [].
Proof. by destruct q. Qed.

Lemma addAlong_probesAt (path : list InlineSite) (Probe : MCPseudoProbe.t) :
  ∀ t q,
    probesAt q (addAlong path Probe t) =
    if decide (q = path) then probesAt q t ++ [Probe] else probesAt q t.
Proof.
  induction path as [|Site rest IH]; intros [g ps cs] q.
  - destruct q as [|s r]; [done|].
    destruct (decide (s :: r = [])); done.
  - destruct q as [|s r]; [done|].
    unfold probesAt. cbn [addAlong getOrAddNode nodeAt tree_Children].
    rewrite findChild_withChild.
    destruct (decide (s = Site)) as [->|Hs].
    + cbn [mbind option_bind].
      change (from_option tree_Probes []
                (nodeAt r (addAlong rest Probe
                   (default (Node Site.1 [] []) (findChild Site cs)))))
        with (probesAt r (addAlong rest Probe
                (default (Node Site.1 [] []) (findChild Site cs)))).
      rewrite IH.
      destruct (findChild Site cs) as [c|]; cbn [default mbind option_bind from_option];
        rewrite ?probesAt_new;
        destruct (decide (r = rest)), (decide (Site :: r = Site :: rest));
        first [congruence | done].
    + destruct (decide (s :: r = Site :: rest)); congruence.
Qed.

Lemma addAlong_keeps (path : list InlineSite) (Probe : MCPseudoProbe.t) :
  ∀ t q n,
    nodeAt q t = Some n ->
    ∃ n', nodeAt q (addAlong path Probe t) = Some n' ∧ tree_Guid n' = tree_Guid n.
Proof.
  induction path as [|Site rest IH]; intros [g ps cs] q n Hn.
  - destruct q as [|s r]; simpl in *; [|eauto].
    inversion Hn; subst. eauto.
  - destruct q as [|s r]; cbn [addAlong getOrAddNode nodeAt tree_Children] in *.
    { inversion Hn; subst. eauto. }
    rewrite findChild_withChild.
    destruct (decide (s = Site)) as [->|Hs]; [|eauto].
    destruct (findChild Site cs) as [c|]; [|done].
    cbn [mbind option_bind default] in *. eauto.
Qed.

(** C6. [addPseudoProbe] walks the path of the specification: the
    top-level function under call site 0, each further stack entry under
    the call site of the entry before it, and the probe's function under
    the call site of the last entry.  The probe is appended to the node
    at the end of that path, which exists afterwards; the probes held at
    every other path are the same as before, and every node that was
    there is still there with its GUID. *)
Theorem addPseudoProbe_path (Probe : MCPseudoProbe.t)
    (InlineStack : list InlineSite) (t : MCPseudoProbeInlineTree) :
  probeEdges Probe InlineStack = claimedPath Probe InlineStack ∧
  probesAt (claimedPath Probe InlineStack) (addPseudoProbe Probe InlineStack t) =
    probesAt (claimedPath Probe InlineStack) t ++ [Probe] ∧
  is_Some (nodeAt (claimedPath Probe InlineStack)
             (addPseudoProbe Probe InlineStack t)) ∧
  (∀ q, q ≠ claimedPath Probe InlineStack ->
        probesAt q (addPseudoProbe Probe InlineStack t) = probesAt q t) ∧
  (∀ q n, nodeAt q t = Some n ->
          ∃ n', nodeAt q (addPseudoProbe Probe InlineStack t) = Some n' ∧
                tree_Guid n' = tree_Guid n).
Proof.
  unfold addPseudoProbe. rewrite probeEdges_claimed.
  set (path := claimedPath Probe InlineStack).
  assert (Hat : probesAt path (addAlong path Probe t) = probesAt path t ++ [Probe]).
  { rewrite addAlong_probesAt. by destruct (decide (path = path)). }
  repeat split.
  - exact Hat.
  - unfold probesAt in Hat.
    destruct (nodeAt path (addAlong path Probe t)); [eauto|].
    simpl in Hat. by destruct (from_option tree_Probes [] (nodeAt path t)).
  - intros q Hq. rewrite addAlong_probesAt. by destruct (decide (q = path)).
  - apply addAlong_keeps.
Qed.

(** ** Movement of the cursor *)

Lemma follows_refl (c : Cursor) : follows c c.
Proof. by unfold follows. Qed.

Lemma follows_trans (c1 c2 c3 : Cursor) :
  follows c1 c2 -> follows c2 c3 -> follows c1 c3.
Proof. unfold follows. intros (-> & -> & ? & ?) (-> & -> & ? & ?). repeat split; lia. Qed.

Lemma follows_advance (n : nat) (c : Cursor) :
  (Data c + n <= End c)%nat -> follows c (advance n c).
Proof. unfold follows, advance. simpl. intros. repeat split; lia. Qed.

Lemma readUnencodedNumber_Ok T c v c' :
  readUnencodedNumber T c = (Ok v, c') ->
  c' = advance (sizeof T) c ∧ (Data c + sizeof T <= End c)%nat.
Proof.
  unfold readUnencodedNumber.
  destruct (Nat.ltb_spec (End c) (Data c + sizeof T)); [done|].
  intros [= <- <-]. done.
Qed.

Lemma readUnencodedNumber_follows T c :
  follows c (readUnencodedNumber T c).2.
Proof.
  unfold readUnencodedNumber.
  destruct (Nat.ltb_spec (End c) (Data c + sizeof T)); simpl.
  - apply follows_refl.
  - by apply follows_advance.
Qed.

Lemma readUnsignedNumber_follows T c :
  follows c (readUnsignedNumber T c).2.
Proof.
  unfold readUnsignedNumber. destruct (decodeULEB128 (atData c)) as [Val n].
  destruct (numeric_limits_max T <? Val); simpl; [apply follows_refl|].
  destruct (Nat.ltb_spec (End c) (Data c + n)); simpl.
  - apply follows_refl.
  - by apply follows_advance.
Qed.

Lemma readSignedNumber_follows T c :
  follows c (readSignedNumber T c).2.
Proof.
  unfold readSignedNumber. destruct (decodeSLEB128 (atData c)) as [Val n].
  destruct (numeric_limits_max T <? Val); simpl; [apply follows_refl|].
  destruct (Nat.ltb_spec (End c) (Data c + n)); simpl.
  - apply follows_refl.
  - by apply follows_advance.
Qed.

Lemma readString_follows Size c :
  follows c (readString Size c).2.
Proof.
  unfold readString.
  destruct (Nat.ltb_spec (End c) (Data c + Z.to_nat Size)); simpl.
  - apply follows_refl.
  - by apply follows_advance.
Qed.

Lemma readAddr_follows Value LastAddr c :
  follows c (readAddr Value LastAddr c).2.
Proof.
  unfold readAddr. destruct (delta_flag Value).
  - pose proof (readSignedNumber_follows int64_t c).
    by destruct (readSignedNumber int64_t c) as [[|?] ?].
  - pose proof (readUnencodedNumber_follows int64_t c).
    by destruct (readUnencodedNumber int64_t c) as [[|?] ?].
Qed.

Lemma rd_follows {A : Type} (r : Cursor -> ErrorOr A * Cursor) (d : Decoder) :
  (∀ c, follows c (r c).2) -> dfollows d (rd r d).2.
Proof. intros H. rewrite rd_cur. apply H. Qed.

Lemma rd_eq {A : Type} (r : Cursor -> ErrorOr A * Cursor) (d : Decoder) x d' :
  rd r d = (x, d') ->
  r (MCPseudoProbeDecoder.cur d) = (x, MCPseudoProbeDecoder.cur d') ∧
  d' = set_cur (MCPseudoProbeDecoder.cur d') d.
Proof.
  rewrite rd_cur. destruct (r (MCPseudoProbeDecoder.cur d)) as [y c].
  intros [= <- <-]. done.
Qed.

Lemma dfollows_refl d : dfollows d d.
Proof. apply follows_refl. Qed.

Lemma dfollows_trans d1 d2 d3 : dfollows d1 d2 -> dfollows d2 d3 -> dfollows d1 d3.
Proof. apply follows_trans. Qed.

Lemma dfollows_remaining d d' :
  dfollows d d' -> (dEnd d' - dData d' <= dEnd d - dData d)%nat.
Proof.
  unfold dfollows, follows, dEnd, dData. intros (_ & HE & HD & _).
  rewrite HE. lia.
Qed.

Lemma decodeProbe_follows Cur la d :
  dfollows d (decodeProbe Cur la d).2.
Proof.
  unfold decodeProbe.
  pose proof (rd_follows (readUnsignedNumber uint32_t) d
                (readUnsignedNumber_follows _)) as H1.
  destruct (rd (readUnsignedNumber uint32_t) d) as [[|Index] d1]; [done|].
  pose proof (rd_follows (readUnencodedNumber uint8_t) d1
                (readUnencodedNumber_follows _)) as H2.
  destruct (rd (readUnencodedNumber uint8_t) d1) as [[|Value] d2];
    [by eapply dfollows_trans|].
  pose proof (rd_follows (readAddr Value la) d2 (readAddr_follows _ _)) as H3.
  destruct (rd (readAddr Value la) d2) as [[|Addr] d3]; simpl in *.
  - eauto using dfollows_trans.
  - unfold dfollows. rewrite populate_cur.
    change (dfollows d d3). eauto using dfollows_trans.
Qed.

Lemma decodeProbes_follows n Cur la d :
  dfollows d (decodeProbes n Cur la d).2.
Proof.
  revert la d. induction n as [|n IH]; intros la d; [apply dfollows_refl|].
  simpl. pose proof (decodeProbe_follows Cur la d) as H.
  destruct (decodeProbe Cur la d) as [[[] la'] d']; simpl in *; [|done].
  eapply dfollows_trans; [exact H|apply IH].
Qed.

Lemma enterNode_follows Cur F d :
  dfollows d (enterNode Cur F d).2.
Proof.
  unfold enterNode.
  assert (H1 : dfollows d
    (if bool_decide (Cur = Some DummyInlineRoot)
     then (Ok (static_cast uint32_t
                 (childCount (MCPseudoProbeDecoder.Nodes d) DummyInlineRoot)), d)
     else rd (readUnsignedNumber uint32_t) d).2).
  { destruct (bool_decide _); [apply dfollows_refl|].
    apply rd_follows, readUnsignedNumber_follows. }
  destruct (if bool_decide (Cur = Some DummyInlineRoot) then _ else _)
    as [[|Index] d1]; [done|].
  pose proof (rd_follows (readUnencodedNumber uint64_t) d1
                (readUnencodedNumber_follows _)) as H2.
  destruct (rd (readUnencodedNumber uint64_t) d1) as [[|Guid] d2];
    [by eapply dfollows_trans|].
  simpl in *.
  destruct (if _ && _ && _ then None else Cur) as [cur|]; simpl.
  - destruct (decGetOrAddNode _ _ _). simpl. by eapply dfollows_trans.
  - by eapply dfollows_trans.
Qed.

(** Entering a node consumes the eight bytes of its GUID. *)
Lemma enterNode_Ok Cur F d Cur' d1 :
  enterNode Cur F d = (Ok Cur', d1) ->
  (dData d + 8 <= dData d1)%nat ∧ (dData d1 <= dEnd d1)%nat.
Proof.
  unfold enterNode.
  assert (H1 : dfollows d
    (if bool_decide (Cur = Some DummyInlineRoot)
     then (Ok (static_cast uint32_t
                 (childCount (MCPseudoProbeDecoder.Nodes d) DummyInlineRoot)), d)
     else rd (readUnsignedNumber uint32_t) d).2).
  { destruct (bool_decide _); [apply dfollows_refl|].
    apply rd_follows, readUnsignedNumber_follows. }
  destruct (if bool_decide (Cur = Some DummyInlineRoot) then _ else _)
    as [[|Index] d0]; [done|].
  destruct (rd (readUnencodedNumber uint64_t) d0) as [[|Guid] d2] eqn:E; [done|].
  apply rd_eq in E as [E _]. apply readUnencodedNumber_Ok in E as [E Hlen].
  simpl in *. intros Hd1.
  assert (MCPseudoProbeDecoder.cur d1 = MCPseudoProbeDecoder.cur d2) as Hc.
  { destruct (if _ && _ && _ then None else Cur) as [cur|].
    - destruct (decGetOrAddNode _ _ _). by inversion Hd1.
    - by inversion Hd1. }
  unfold dData, dEnd. rewrite Hc, E. unfold advance; simpl.
  destruct H1 as (_ & _ & ? & _). unfold dData in *. lia.
Qed.

(** C7. In a probe record whose index and type/flag byte have been read,
    a set delta flag makes the address [LastAddr + Offset] modulo 2^64,
    [Offset] being the decoded SLEB128 value; a clear delta flag makes it
    the little-endian value of the next eight bytes, unchanged.  In both
    cases the record is accepted, the address becomes the new [LastAddr]
    and, for a node that is kept, the probe is stored under it. *)
Theorem probe_address_decoding (Cur : option nat) (LastAddr : Z) (d : Decoder)
    (Index Value : Z) (c1 c2 : Cursor) :
  Forall (fun b => 0 <= b < 256) (Mem (MCPseudoProbeDecoder.cur d)) ->
  readUnsignedNumber uint32_t (MCPseudoProbeDecoder.cur d) = (Ok Index, c1) ->
  readUnencodedNumber uint8_t c1 = (Ok Value, c2) ->
  (∀ Offset c3,
     delta_flag Value = true ->
     readSignedNumber int64_t c2 = (Ok Offset, c3) ->
     ∃ d', decodeProbe Cur LastAddr d = (true, (LastAddr + Offset) mod 2 ^ 64, d') ∧
           MCPseudoProbeDecoder.cur d' = c3 ∧
           storedAt Cur ((LastAddr + Offset) mod 2 ^ 64) d') ∧
  (delta_flag Value = false ->
   (Data c2 + 8 <= End c2)%nat ->
     ∃ d', decodeProbe Cur LastAddr d = (true, readLE (take 8 (atData c2)), d') ∧
           MCPseudoProbeDecoder.cur d' = advance 8 c2 ∧
           storedAt Cur (readLE (take 8 (atData c2))) d').
Proof.
  intros Hbytes H1 H2.
  assert (Hmem : Mem c2 = Mem (MCPseudoProbeDecoder.cur d)).
  { pose proof (readUnsignedNumber_follows uint32_t (MCPseudoProbeDecoder.cur d))
      as Ha.
    pose proof (readUnencodedNumber_follows uint8_t c1) as Hb.
    rewrite H1 in Ha. rewrite H2 in Hb.
    destruct Ha as (Ha & _). destruct Hb as (Hb & _). simpl in *. congruence. }
  split.
  - intros Offset c3 Hf H3.
    unfold decodeProbe. rewrite rd_cur, H1. simpl.
    rewrite rd_cur. simpl. rewrite H2. simpl.
    rewrite rd_cur. simpl. unfold readAddr. rewrite Hf, H3. simpl.
    eexists. split; [reflexivity|]. split.
    + by rewrite populate_cur.
    + apply populate_storedAt.
  - intros Hf Hlen.
    assert (H3 : readUnencodedNumber int64_t c2 =
                 (Ok (static_cast int64_t (readLE (take 8 (atData c2)))),
                  advance 8 c2)).
    { unfold readUnencodedNumber. simpl sizeof.
      destruct (Nat.ltb_spec (End c2) (Data c2 + 8)); [lia|done]. }
    assert (Haddr : wrap64 (static_cast int64_t (readLE (take 8 (atData c2)))) =
                    readLE (take 8 (atData c2))).
    { rewrite wrap64_static_cast_int64. apply readLE_take8.
      unfold atData. rewrite Hmem. by apply Forall_drop. }
    unfold decodeProbe. rewrite rd_cur, H1. simpl.
    rewrite rd_cur. simpl. rewrite H2. simpl.
    rewrite rd_cur. simpl. unfold readAddr. rewrite Hf, H3. simpl.
    rewrite Haddr.
    eexists. split; [reflexivity|]. split.
    + by rewrite populate_cur.
    + apply populate_storedAt.
Qed.

(** ** The recursive parse always returns *)

Lemma inlineesLoop_total (call : Z -> Decoder -> option (bool * Z * Decoder))
    (bound : nat) :
  (∀ la d, (dEnd d - dData d < bound)%nat ->
           ∃ b la' d', call la d = Some (b, la', d') ∧ dfollows d d') ->
  ∀ n la d, (dEnd d - dData d < bound)%nat ->
    ∃ la' d', inlineesLoop call n la d = Some (true, la', d') ∧ dfollows d d'.
Proof.
  intros Hcall. induction n as [|n IH]; intros la d Hd; simpl.
  - eauto using dfollows_refl.
  - destruct (Hcall la d Hd) as (b & la1 & d1 & -> & Hf).
    destruct (IH la1 d1) as (la2 & d2 & -> & Hf2).
    + apply dfollows_remaining in Hf. lia.
    + eauto using dfollows_trans.
Qed.

Lemma buildAddress2ProbeMap_rec_total (fuel : nat) :
  ∀ Cur la F d, (dEnd d - dData d < fuel)%nat ->
    ∃ b la' d', buildAddress2ProbeMap_rec fuel Cur la F d = Some (b, la', d') ∧
                dfollows d d' ∧
                (b = true -> (dData d + 8 <= dData d')%nat).
Proof.
  induction fuel as [|fuel IH]; intros Cur la F d Hfuel; [lia|].
  cbn [buildAddress2ProbeMap_rec].
  pose proof (enterNode_follows Cur F d) as H0.
  destruct (enterNode Cur F d) as [[|Cur'] d1] eqn:E0; simpl in H0.
  { exists false, la, d1. done. }
  apply enterNode_Ok in E0 as [Hadv Hle].
  pose proof (rd_follows (readUnsignedNumber uint32_t) d1
                (readUnsignedNumber_follows _)) as H1.
  destruct (rd (readUnsignedNumber uint32_t) d1) as [[|NodeCount] d2];
    simpl in H1.
  { exists false, la, d2. split; [done|]. split; [|done].
    eauto using dfollows_trans. }
  pose proof (rd_follows (readUnsignedNumber uint32_t) d2
                (readUnsignedNumber_follows _)) as H2.
  destruct (rd (readUnsignedNumber uint32_t) d2) as [[|ChildrenToProcess] d3];
    simpl in H2.
  { exists false, la, d3. split; [done|]. split; [|done].
    eauto using dfollows_trans. }
  pose proof (decodeProbes_follows (Z.to_nat NodeCount) Cur' la d3) as H3.
  destruct (decodeProbes (Z.to_nat NodeCount) Cur' la d3) as [[[] la4] d4];
    simpl in H3; cycle 1.
  { exists false, la4, d4. split; [done|]. split; [|done].
    eauto using dfollows_trans. }
  assert (H04 : dfollows d d4) by eauto using dfollows_trans.
  assert (H14 : dfollows d1 d4) by eauto using dfollows_trans.
  destruct (inlineesLoop_total
              (fun la d => buildAddress2ProbeMap_rec fuel Cur' la F d) fuel)
    with (n := Z.to_nat ChildrenToProcess) (la := la4) (d := d4)
    as (la5 & d5 & -> & H5).
  - intros la0 d0 Hd0. destruct (IH Cur' la0 F d0 Hd0) as (b & la' & d' & ? & ? & _).
    eauto.
  - apply dfollows_remaining in H14.
    assert (dEnd d1 = dEnd d) as HE by (by destruct H0 as (_ & HE & _)).
    lia.
  - exists true, la5, d5. split; [done|]. split; [eauto using dfollows_trans|].
    intros _. assert (Hf : dfollows d1 d5) by eauto using dfollows_trans.
    destruct Hf as (_ & _ & ? & _). unfold dData in *. lia.
Qed.

(** ** Cursor coverage of the two section parsers *)


Lemma set_descs_cur m d :
  MCPseudoProbeDecoder.cur (set_descs m d) = MCPseudoProbeDecoder.cur d.
Proof. done. Qed.

(** A failed read inside a record: the loop has returned false and the
    bytes at the cursor are not a descriptor section. *)
Ltac desc_fails :=
  split; [done|]; split; [eauto using dfollows_trans|];
  split; [|done]; split; [done|];
  let Hs := fresh "Hs" in let Hrec := fresh "Hrec" in
  intros Hs; inversion Hs as [|? ? ? Hrec]; subst;
  [unfold dData, dEnd in *; lia|];
  inversion Hrec; subst; congruence.

Lemma descLoop_spec (fuel : nat) :
  ∀ d, (dEnd d - dData d < fuel)%nat ->
    ∃ b d', descLoop fuel d = Some (b, d') ∧ dfollows d d' ∧
            (b = true ↔ DescSection (MCPseudoProbeDecoder.cur d)) ∧
            (b = true -> (dEnd d' <= dData d')%nat).
Proof.
  induction fuel as [|fuel IH]; intros d Hfuel; [lia|].
  cbn [descLoop].
  destruct (Nat.ltb_spec (dData d) (dEnd d)) as [Hlt|Hge]; cycle 1.
  { exists true, d. split; [done|]. split; [apply dfollows_refl|].
    split; [|done]. split; [|done]. intros _. by apply desc_end. }
  pose proof (rd_follows (readUnencodedNumber uint64_t) d
                (readUnencodedNumber_follows _)) as H1.
  destruct (rd (readUnencodedNumber uint64_t) d) as [[|GUID] d1] eqn:E1;
    simpl in H1; apply rd_eq in E1 as [E1 _].
  { exists false, d1. desc_fails. }
  pose proof (rd_follows (readUnencodedNumber uint64_t) d1
                (readUnencodedNumber_follows _)) as H2.
  destruct (rd (readUnencodedNumber uint64_t) d1) as [[|Hash] d2] eqn:E2;
    simpl in H2; apply rd_eq in E2 as [E2 _].
  { exists false, d2. desc_fails. }
  pose proof (rd_follows (readUnsignedNumber uint32_t) d2
                (readUnsignedNumber_follows _)) as H3.
  destruct (rd (readUnsignedNumber uint32_t) d2) as [[|NameSize] d3] eqn:E3;
    simpl in H3; apply rd_eq in E3 as [E3 _].
  { exists false, d3. desc_fails. }
  pose proof (rd_follows (readString NameSize) d3 (readString_follows _)) as H4.
  destruct (rd (readString NameSize) d3) as [[|Name] d4] eqn:E4;
    simpl in H4; apply rd_eq in E4 as [E4 _].
  { exists false, d4. desc_fails. }
  set (d5 := set_descs _ d4).
  assert (H04 : dfollows d d4) by eauto using dfollows_trans.
  assert (Hadv : (dData d + 8 <= dData d1)%nat).
  { pose proof (readUnencodedNumber_Ok _ _ _ _ E1) as [Hc1 _].
    unfold dData. rewrite Hc1. simpl. lia. }
  assert (H14 : dfollows d1 d4) by eauto using dfollows_trans.
  destruct (IH d5) as (b & d' & -> & Hf & Hiff & Hend).
  { apply dfollows_remaining in H14.
    assert (dEnd d1 = dEnd d) as HE by (by destruct H1 as (_ & HE & _)).
    change (dEnd d5) with (dEnd d4). change (dData d5) with (dData d4). lia. }
  exists b, d'. split; [done|]. split.
  { eapply dfollows_trans; [exact H04|exact Hf]. }
  split; [|done]. rewrite Hiff. subst d5. rewrite set_descs_cur. split.
  - intros Hs. eapply desc_more; [done| |exact Hs]. by econstructor.
  - intros Hs. inversion Hs as [|? c' ? Hrec Hrest]; subst;
      [unfold dData, dEnd in *; lia|].
    inversion Hrec; subst. congruence.
Qed.


(** ** Invariants of the decoded forest *)

Lemma TopLevelGuidIn_kept G nodes nodes' id :
  kept nodes nodes' -> TopLevelGuidIn G nodes id -> TopLevelGuidIn G nodes' id.
Proof.
  intros Hk. induction 1 as [id n Hn Hp Hg|id n p Hn Hp _ IH];
    destruct (Hk id n Hn) as (n' & Hn' & Hp' & Hg').
  - eapply top_level; [exact Hn'|congruence|by rewrite Hg'].
  - eapply top_above; [exact Hn'|by rewrite Hp'|exact IH].
Qed.

Lemma kept_extends G nodes nodes' : kept nodes nodes' -> extends G nodes nodes'.
Proof.
  intros Hk. split.
  - intros id [n Hn]. destruct (Hk id n Hn) as (n' & Hn' & _). eauto.
  - intros id [HG|Ht]; [by left|]. right. by eapply TopLevelGuidIn_kept.
Qed.

Lemma extends_refl G nodes : extends G nodes nodes.
Proof. by split. Qed.

Lemma extends_trans G n1 n2 n3 :
  extends G n1 n2 -> extends G n2 n3 -> extends G n1 n3.
Proof. intros [A1 B1] [A2 B2]. split; eauto. Qed.

Lemma kept_alter (f : DecNode -> DecNode) c nodes :
  (∀ n, nodes !! c = Some n ->
        MCDecodedPseudoProbeInlineTree.Parent (f n) =
          MCDecodedPseudoProbeInlineTree.Parent n ∧
        MCDecodedPseudoProbeInlineTree.Guid (f n) =
          MCDecodedPseudoProbeInlineTree.Guid n) ->
  kept nodes (alter f c nodes).
Proof.
  intros Hf id n Hn. destruct (decide (c = id)) as [->|Hne].
  - exists (f n). rewrite list_lookup_alter_eq, Hn. split; [done|]. by apply Hf.
  - exists n. by rewrite list_lookup_alter_ne.
Qed.

Lemma store_ok_alter (f : DecNode -> DecNode) c nodes :
  (∀ n, nodes !! c = Some n ->
        MCDecodedPseudoProbeInlineTree.Parent (f n) =
          MCDecodedPseudoProbeInlineTree.Parent n ∧
        MCDecodedPseudoProbeInlineTree.Children (f n) =
          MCDecodedPseudoProbeInlineTree.Children n) ->
  store_ok nodes -> store_ok (alter f c nodes).
Proof.
  intros Hf [Hroot Hch].
  assert (Hlk : ∀ id n, nodes !! id = Some n ->
            ∃ n', alter f c nodes !! id = Some n' ∧
                  MCDecodedPseudoProbeInlineTree.Parent n' =
                    MCDecodedPseudoProbeInlineTree.Parent n).
  { intros id n Hn. destruct (decide (c = id)) as [->|Hne].
    - exists (f n). rewrite list_lookup_alter_eq, Hn. split; [done|]. by apply Hf.
    - exists n. by rewrite list_lookup_alter_ne. }
  split.
  - destruct Hroot as [r Hr]. destruct (Hlk _ _ Hr) as (r' & Hr' & _). eauto.
  - intros id n' Site c' Hn' Hc'.
    assert (∃ n, nodes !! id = Some n ∧
                 MCDecodedPseudoProbeInlineTree.Children n !! Site = Some c')
      as (n & Hn & Hc).
    { destruct (decide (c = id)) as [->|Hne].
      - rewrite list_lookup_alter_eq in Hn'.
        destruct (nodes !! id) as [n|] eqn:E; [|done].
        injection Hn' as <-. exists n. split; [done|].
        destruct (Hf n eq_refl) as [_ <-]. done.
      - rewrite list_lookup_alter_ne in Hn' by done. eauto. }
    destruct (Hch id n Site c' Hn Hc) as (Hne & nc & Hnc & Hp).
    split; [done|]. destruct (Hlk _ _ Hnc) as (nc' & Hnc' & Hp').
    exists nc'. split; [done|]. congruence.
Qed.

Lemma extends_set_Guid G g c nodes :
  (∀ nc, nodes !! c = Some nc ->
         MCDecodedPseudoProbeInlineTree.Parent nc = Some DummyInlineRoot ->
         G = ∅ ∨ g ∈ G) ->
  extends G nodes (alter (set_Guid g) c nodes).
Proof.
  intros Hg. split.
  - intros id. rewrite !lookup_lt_is_Some, length_alter. done.
  - intros id [HG|Ht]; [by left|].
    destruct (decide (G = ∅)) as [HG|HG]; [by left|]. right.
    induction Ht as [id n Hn Hp Hin|id n p Hn Hp _ IH].
    + destruct (decide (c = id)) as [->|Hne].
      * eapply top_level.
        -- by rewrite list_lookup_alter_eq, Hn.
        -- done.
        -- simpl. destruct (Hg n Hn Hp); done.
      * eapply top_level; [by rewrite list_lookup_alter_ne|done|done].
    + destruct (decide (c = id)) as [->|Hne].
      * eapply top_above; [by rewrite list_lookup_alter_eq, Hn|done|done].
      * eapply top_above; [by rewrite list_lookup_alter_ne|done|done].
Qed.

Lemma decGetOrAddNode_ok this Site nodes c nodes' :
  store_ok nodes -> is_Some (nodes !! this) ->
  decGetOrAddNode this Site nodes = (c, nodes') ->
  c ≠ DummyInlineRoot ∧
  (∃ nc, nodes' !! c = Some nc ∧
         MCDecodedPseudoProbeInlineTree.Parent nc = Some this) ∧
  store_ok nodes' ∧ kept nodes nodes' ∧
  (∀ id, is_Some (nodes' !! id) -> is_Some (nodes !! id) ∨ id = c).
Proof.
  intros Hok [n Hn]. unfold decGetOrAddNode. rewrite Hn.
  destruct (MCDecodedPseudoProbeInlineTree.Children n !! Site) as [c0|] eqn:Hc.
  - intros [= <- <-]. destruct Hok as [Hroot Hch].
    destruct (Hch _ _ _ _ Hn Hc) as (Hne & nc & Hnc & Hp).
    assert (Hf : ∀ m, nodes !! c0 = Some m ->
              MCDecodedPseudoProbeInlineTree.Parent (set_Parent this m) =
                MCDecodedPseudoProbeInlineTree.Parent m ∧
              MCDecodedPseudoProbeInlineTree.Children (set_Parent this m) =
                MCDecodedPseudoProbeInlineTree.Children m ∧
              MCDecodedPseudoProbeInlineTree.Guid (set_Parent this m) =
                MCDecodedPseudoProbeInlineTree.Guid m).
    { intros m Hm. assert (m = nc) as -> by congruence. by rewrite Hp. }
    split; [done|]. split.
    { exists (set_Parent this nc). by rewrite list_lookup_alter_eq, Hnc. }
    split.
    { apply store_ok_alter; [|done].
      intros m Hm. destruct (Hf m Hm) as (? & ? & ?). auto. }
    split.
    { apply kept_alter. intros m Hm. destruct (Hf m Hm) as (? & ? & ?). auto. }
    intros id. rewrite !lookup_lt_is_Some, length_alter. auto.
  - intros [= <- <-].
    set (n1 := add_Child Site (length nodes) n).
    set (new := MCDecodedPseudoProbeInlineTree.mk 0 Site (Some this) ∅ []).
    pose proof (lookup_lt_Some _ _ _ Hn) as Hlt.
    assert (Hold : ∀ id, (id < length nodes)%nat ->
              (<[this:=n1]> nodes ++ [new]) !! id = <[this:=n1]> nodes !! id).
    { intros id Hid. apply lookup_app_l. by rewrite length_insert. }
    assert (Hnew : (<[this:=n1]> nodes ++ [new]) !! length nodes = Some new).
    { rewrite lookup_app_r by (rewrite length_insert; lia).
      rewrite length_insert. by rewrite Nat.sub_diag. }
    assert (Hkept : kept nodes (<[this:=n1]> nodes ++ [new])).
    { intros id m Hm. pose proof (lookup_lt_Some _ _ _ Hm) as Hid.
      rewrite Hold by done. destruct (decide (this = id)) as [->|Hne].
      - exists n1. rewrite list_lookup_insert_eq by done.
        assert (m = n) as -> by congruence. done.
      - exists m. by rewrite list_lookup_insert_ne. }
    split; [unfold DummyInlineRoot; lia|].
    split; [by exists new|]. split; [|split; [done|]].
    + destruct Hok as [Hroot Hch]. split.
      { destruct Hroot as [r Hr]. destruct (Hkept _ _ Hr) as (r' & Hr' & _). eauto. }
      intros id m' Site' c' Hm' Hc'.
      assert (Hcases : id = length nodes ∧ m' = new ∨
                ∃ m, nodes !! id = Some m ∧
                  (MCDecodedPseudoProbeInlineTree.Children m !! Site' = Some c' ∨
                   id = this ∧ c' = length nodes)).
      { pose proof (lookup_lt_Some _ _ _ Hm') as Hid.
        rewrite length_app, length_insert in Hid. simpl in Hid.
        destruct (decide (id = length nodes)) as [->|Hne].
        - left. split; [done|]. congruence.
        - right. rewrite Hold in Hm' by lia.
          destruct (decide (this = id)) as [->|Hne'].
          + rewrite list_lookup_insert_eq in Hm' by done.
            injection Hm' as <-. exists n. split; [done|].
            simpl in Hc'. apply lookup_insert_Some in Hc' as [[_ <-]|[_ Hc']]; auto.
          + rewrite list_lookup_insert_ne in Hm' by done. eauto. }
      destruct Hcases as [[-> ->]|(m & Hm & [Hc0|[-> ->]])].
      * unfold new in Hc'. simpl in Hc'. by rewrite lookup_empty in Hc'.
      * destruct (Hch _ _ _ _ Hm Hc0) as (Hne & nc & Hnc & Hp).
        split; [done|]. destruct (Hkept _ _ Hnc) as (nc' & Hnc' & Hp' & _).
        exists nc'. split; [done|]. congruence.
      * split; [unfold DummyInlineRoot; lia|]. by exists new.
    + intros id His. apply lookup_lt_is_Some in His.
      rewrite length_app, length_insert in His. simpl in His.
      destruct (decide (id = length nodes)); [by right|].
      left. apply lookup_lt_is_Some. lia.
Qed.

Lemma rd_same {A : Type} (r : Cursor -> ErrorOr A * Cursor) (d : Decoder) x d' :
  rd r d = (x, d') ->
  MCPseudoProbeDecoder.Nodes d' = MCPseudoProbeDecoder.Nodes d ∧
  MCPseudoProbeDecoder.Address2ProbesMap d' =
    MCPseudoProbeDecoder.Address2ProbesMap d.
Proof. intros H. apply rd_eq in H as [_ ->]. done. Qed.

Lemma decoder_ok_same G d d' :
  MCPseudoProbeDecoder.Nodes d' = MCPseudoProbeDecoder.Nodes d ->
  MCPseudoProbeDecoder.Address2ProbesMap d' =
    MCPseudoProbeDecoder.Address2ProbesMap d ->
  decoder_ok G d -> decoder_ok G d'.
Proof. unfold decoder_ok. by intros -> ->. Qed.

Lemma valid_kept_refl nodes : valid_kept nodes nodes.
Proof. by intros id. Qed.

Lemma valid_kept_trans n1 n2 n3 :
  valid_kept n1 n2 -> valid_kept n2 n3 -> valid_kept n1 n3.
Proof. unfold valid_kept. eauto. Qed.

Lemma set_Guid_links g n :
  MCDecodedPseudoProbeInlineTree.Parent (set_Guid g n) =
    MCDecodedPseudoProbeInlineTree.Parent n ∧
  MCDecodedPseudoProbeInlineTree.Children (set_Guid g n) =
    MCDecodedPseudoProbeInlineTree.Children n.
Proof. done. Qed.

Lemma enterNode_inv G F Cur d r d1 :
  G = ∅ ∨ G = F ->
  decoder_ok G d -> cur_valid (MCPseudoProbeDecoder.Nodes d) Cur ->
  enterNode Cur F d = (r, d1) ->
  decoder_ok G d1 ∧
  valid_kept (MCPseudoProbeDecoder.Nodes d) (MCPseudoProbeDecoder.Nodes d1) ∧
  match r with
  | Ok Cur' => cur_valid (MCPseudoProbeDecoder.Nodes d1) Cur' ∧
               Cur' ≠ Some DummyInlineRoot
  | Err => True
  end.
Proof.
  intros HG Hok Hcur. unfold enterNode.
  assert (H0 : ∀ x d0,
    (if bool_decide (Cur = Some DummyInlineRoot)
     then (Ok (static_cast uint32_t
                 (childCount (MCPseudoProbeDecoder.Nodes d) DummyInlineRoot)), d)
     else rd (readUnsignedNumber uint32_t) d) = (x, d0) ->
    MCPseudoProbeDecoder.Nodes d0 = MCPseudoProbeDecoder.Nodes d ∧
    MCPseudoProbeDecoder.Address2ProbesMap d0 =
      MCPseudoProbeDecoder.Address2ProbesMap d).
  { intros x d0. destruct (bool_decide _); [by intros [= <- <-]|apply rd_same]. }
  destruct (if bool_decide (Cur = Some DummyInlineRoot) then _ else _)
    as [[|Index] d0].
  { destruct (H0 _ _ eq_refl) as [Hn Hm]. intros [= <- <-].
    split; [by eapply decoder_ok_same|]. split; [|done].
    rewrite Hn. apply valid_kept_refl. }
  destruct (H0 _ _ eq_refl) as [Hn0 Hm0]. clear H0.
  destruct (rd (readUnencodedNumber uint64_t) d0) as [[|Guid] d2] eqn:E2;
    apply rd_same in E2 as [Hn2 Hm2]; rewrite Hn0 in Hn2; rewrite Hm0 in Hm2.
  { intros [= <- <-]. split; [by eapply decoder_ok_same|]. split; [|done].
    rewrite Hn2. apply valid_kept_refl. }
  destruct (bool_decide (Cur = Some DummyInlineRoot) && negb (bool_decide (F = ∅)) &&
            negb (bool_decide (Guid ∈ F))) eqn:Hfilter.
  { intros [= <- <-]. split; [by eapply decoder_ok_same|].
    split; [rewrite Hn2; apply valid_kept_refl|done]. }
  destruct Cur as [cur|]; cycle 1.
  { intros [= <- <-]. split; [by eapply decoder_ok_same|].
    split; [rewrite Hn2; apply valid_kept_refl|done]. }
  rewrite Hn2. simpl in Hcur.
  destruct (decGetOrAddNode cur (Guid, Index) (MCPseudoProbeDecoder.Nodes d))
    as [c nodes'] eqn:Eg.
  destruct Hok as (Hstore & Hunder & Hprobes).
  destruct (decGetOrAddNode_ok _ _ _ _ _ Hstore Hcur Eg)
    as (Hc0 & (nc & Hnc & Hpc) & Hstore' & Hkept & Hnew).
  intros [= <- <-]. unfold set_nodes.
  cbn [MCPseudoProbeDecoder.Nodes MCPseudoProbeDecoder.Address2ProbesMap].
  assert (Hext : extends G nodes' (alter (set_Guid Guid) c nodes')).
  { apply extends_set_Guid. intros nc0 Hnc0 Hp0.
    assert (nc0 = nc) as -> by congruence.
    assert (cur = DummyInlineRoot) as -> by congruence.
    rewrite bool_decide_eq_true_2 in Hfilter by done. simpl in Hfilter.
    destruct HG as [->| ->]; [by left|].
    destruct (decide (F = ∅)) as [HF|HF]; [by left|]. right.
    rewrite (bool_decide_eq_false_2 _ HF) in Hfilter. simpl in Hfilter.
    apply negb_false_iff, bool_decide_eq_true in Hfilter. done. }
  assert (Hvalid : valid_kept (MCPseudoProbeDecoder.Nodes d)
                              (alter (set_Guid Guid) c nodes')).
  { intros id His. apply (proj1 Hext).
    by apply (proj1 (kept_extends G _ _ Hkept)). }
  split; [|split; [done|]].
  - unfold decoder_ok.
    cbn [MCPseudoProbeDecoder.Nodes MCPseudoProbeDecoder.Address2ProbesMap].
    rewrite Hm2. split; [|split].
    + apply store_ok_alter; [|done]. intros; apply set_Guid_links.
    + intros id Hid His.
      assert (is_Some (nodes' !! id)) as His'.
      { revert His. rewrite !lookup_lt_is_Some, length_alter. done. }
      destruct (Hnew id His') as [Hold| ->].
      * apply (proj2 Hext). apply (proj2 (kept_extends G _ _ Hkept)).
        by apply Hunder.
      * destruct (decide (G = ∅)) as [HGe|HGe]; [by left|]. right.
        assert (Hc : alter (set_Guid Guid) c nodes' !! c = Some (set_Guid Guid nc))
          by (by rewrite list_lookup_alter_eq, Hnc).
        destruct (decide (cur = DummyInlineRoot)) as [->|Hcr].
        -- eapply top_level; [exact Hc|done|]. simpl.
           rewrite bool_decide_eq_true_2 in Hfilter by done. simpl in Hfilter.
           destruct HG as [->| ->]; [done|].
           rewrite (bool_decide_eq_false_2 _ HGe) in Hfilter. simpl in Hfilter.
           by apply negb_false_iff, bool_decide_eq_true in Hfilter.
        -- eapply top_above; [exact Hc|done|].
           assert (under G (alter (set_Guid Guid) c nodes') cur) as [?|Hu];
             [|done|done].
           apply (proj2 Hext). apply (proj2 (kept_extends G _ _ Hkept)).
           by apply Hunder.
    + intros Addr ps p Hps Hp. destruct (Hprobes _ _ _ Hps Hp) as [Hr Hv].
      split; [done|]. by apply Hvalid.
  - split; [|congruence]. simpl.
    rewrite lookup_lt_is_Some, length_alter, <- lookup_lt_is_Some. eauto.
Qed.

Lemma populate_inv G Cur Addr Index Kind Attr d :
  decoder_ok G d ->
  cur_valid (MCPseudoProbeDecoder.Nodes d) Cur -> Cur ≠ Some DummyInlineRoot ->
  decoder_ok G (populate Cur Addr Index Kind Attr d) ∧
  valid_kept (MCPseudoProbeDecoder.Nodes d)
             (MCPseudoProbeDecoder.Nodes (populate Cur Addr Index Kind Attr d)).
Proof.
  intros (Hstore & Hunder & Hprobes) Hcur Hroot.
  destruct Cur as [cur|]; [|split; [done|apply valid_kept_refl]].
  simpl in *.
  set (f := addProbes _).
  assert (Hkept : kept (MCPseudoProbeDecoder.Nodes d)
                       (alter f cur (MCPseudoProbeDecoder.Nodes d)))
    by (by apply kept_alter).
  assert (Hvalid : valid_kept (MCPseudoProbeDecoder.Nodes d)
                              (alter f cur (MCPseudoProbeDecoder.Nodes d))).
  { intros id His. by apply (proj1 (kept_extends G _ _ Hkept)). }
  split; [|done]. unfold decoder_ok, set_nodes, set_probes.
  cbn [MCPseudoProbeDecoder.Nodes MCPseudoProbeDecoder.Address2ProbesMap].
  fold f. split; [|split].
  - by apply store_ok_alter.
  - intros id Hid His. apply (proj2 (kept_extends G _ _ Hkept)).
    apply Hunder; [done|].
    revert His. rewrite !lookup_lt_is_Some, length_alter. done.
  - intros A ps p Hps Hp.
    apply lookup_insert_Some in Hps as [[<- <-]|[_ Hps]].
    + apply elem_of_app in Hp as [Hp|Hp].
      * destruct (MCPseudoProbeDecoder.Address2ProbesMap d !! Addr) as [ps0|] eqn:E;
          simpl in Hp; [|by apply elem_of_nil in Hp].
        destruct (Hprobes _ _ _ E Hp). split; [done|]. by apply Hvalid.
      * apply list_elem_of_singleton in Hp as ->. simpl.
        split; [congruence|]. by apply Hvalid.
    + destruct (Hprobes _ _ _ Hps Hp). split; [done|]. by apply Hvalid.
Qed.

Lemma decodeProbe_inv G Cur la d :
  decoder_ok G d ->
  cur_valid (MCPseudoProbeDecoder.Nodes d) Cur -> Cur ≠ Some DummyInlineRoot ->
  decoder_ok G (decodeProbe Cur la d).2 ∧
  valid_kept (MCPseudoProbeDecoder.Nodes d)
             (MCPseudoProbeDecoder.Nodes (decodeProbe Cur la d).2).
Proof.
  intros Hok Hcur Hroot. unfold decodeProbe.
  destruct (rd (readUnsignedNumber uint32_t) d) as [[|Index] d1] eqn:E1;
    apply rd_same in E1 as [Hn1 Hm1]; simpl.
  { split; [by eapply decoder_ok_same|]. rewrite Hn1. apply valid_kept_refl. }
  destruct (rd (readUnencodedNumber uint8_t) d1) as [[|Value] d2] eqn:E2;
    apply rd_same in E2 as [Hn2 Hm2]; rewrite Hn1 in Hn2; rewrite Hm1 in Hm2;
    simpl.
  { split; [by eapply decoder_ok_same|]. rewrite Hn2. apply valid_kept_refl. }
  destruct (rd (readAddr Value la) d2) as [[|Addr] d3] eqn:E3;
    apply rd_same in E3 as [Hn3 Hm3]; rewrite Hn2 in Hn3; rewrite Hm2 in Hm3;
    simpl.
  { split; [by eapply decoder_ok_same|]. rewrite Hn3. apply valid_kept_refl. }
  rewrite <- Hn3. apply populate_inv; [by eapply decoder_ok_same| |done].
  by rewrite Hn3.
Qed.

Lemma decodeProbes_inv G n Cur :
  Cur ≠ Some DummyInlineRoot ->
  ∀ la d,
    decoder_ok G d -> cur_valid (MCPseudoProbeDecoder.Nodes d) Cur ->
    decoder_ok G (decodeProbes n Cur la d).2 ∧
    valid_kept (MCPseudoProbeDecoder.Nodes d)
               (MCPseudoProbeDecoder.Nodes (decodeProbes n Cur la d).2).
Proof.
  intros Hroot. induction n as [|n IH]; intros la d Hok Hcur; simpl.
  { split; [done|apply valid_kept_refl]. }
  destruct (decodeProbe_inv G Cur la d Hok Hcur Hroot) as [Hok1 Hv1].
  destruct (decodeProbe Cur la d) as [[[] la1] d1]; simpl in *; [|done].
  destruct (IH la1 d1 Hok1) as [Hok2 Hv2].
  { destruct Cur; [|done]. by apply Hv1. }
  split; [done|]. by eapply valid_kept_trans.
Qed.

Lemma inlineesLoop_preserves (P : Decoder -> Prop)
    (call : Z -> Decoder -> option (bool * Z * Decoder)) :
  (∀ la d b la' d', P d -> call la d = Some (b, la', d') -> P d') ->
  ∀ n la d b la' d',
    P d -> inlineesLoop call n la d = Some (b, la', d') -> P d'.
Proof.
  intros Hcall. induction n as [|n IH]; intros la d b la' d' HP; simpl.
  - by intros [= <- <- <-].
  - destruct (call la d) as [[[b1 la1] d1]|] eqn:E; [|done].
    apply IH. by eapply Hcall.
Qed.

Lemma buildAddress2ProbeMap_rec_inv G F (fuel : nat) :
  G = ∅ ∨ G = F ->
  ∀ Cur la d b la' d',
    decoder_ok G d -> cur_valid (MCPseudoProbeDecoder.Nodes d) Cur ->
    buildAddress2ProbeMap_rec fuel Cur la F d = Some (b, la', d') ->
    decoder_ok G d' ∧
    valid_kept (MCPseudoProbeDecoder.Nodes d) (MCPseudoProbeDecoder.Nodes d').
Proof.
  intros HG. induction fuel as [|fuel IH]; intros Cur la d b la' d' Hok Hcur;
    [done|].
  cbn [buildAddress2ProbeMap_rec].
  destruct (enterNode Cur F d) as [r d1] eqn:E0.
  destruct (enterNode_inv G F Cur d r d1 HG Hok Hcur E0) as (Hok1 & Hv1 & Hr).
  destruct r as [|Cur']; [by intros [= <- <- <-]|]. destruct Hr as [Hcur1 Hroot].
  destruct (rd (readUnsignedNumber uint32_t) d1) as [[|NodeCount] d2] eqn:E1;
    apply rd_same in E1 as [Hn2 Hm2].
  { intros [= <- <- <-]. split; [by eapply decoder_ok_same|]. by rewrite Hn2. }
  destruct (rd (readUnsignedNumber uint32_t) d2) as [[|ChildrenToProcess] d3] eqn:E2;
    apply rd_same in E2 as [Hn3 Hm3]; rewrite Hn2 in Hn3; rewrite Hm2 in Hm3.
  { intros [= <- <- <-]. split; [by eapply decoder_ok_same|]. by rewrite Hn3. }
  assert (Hok3 : decoder_ok G d3) by (by eapply decoder_ok_same).
  assert (Hcur3 : cur_valid (MCPseudoProbeDecoder.Nodes d3) Cur') by (by rewrite Hn3).
  destruct (decodeProbes_inv G (Z.to_nat NodeCount) Cur' Hroot la d3 Hok3 Hcur3)
    as [Hok4 Hv4].
  rewrite Hn3 in Hv4.
  destruct (decodeProbes (Z.to_nat NodeCount) Cur' la d3) as [[[] la4] d4];
    simpl in *; cycle 1.
  { intros [= <- <- <-]. split; [done|]. by eapply valid_kept_trans. }
  intros Hloop.
  apply (inlineesLoop_preserves
           (fun d => decoder_ok G d ∧
                     valid_kept (MCPseudoProbeDecoder.Nodes d1)
                                (MCPseudoProbeDecoder.Nodes d))) in Hloop.
  - destruct Hloop as [Hok5 Hv5]. split; [done|]. by eapply valid_kept_trans.
  - intros la0 d0 b0 la0' d0' [Hok0 Hv0] Hcall.
    destruct (IH Cur' la0 d0 b0 la0' d0' Hok0) as [Hok0' Hv0']; [|done|].
    + destruct Cur'; [|done]. by apply Hv0.
    + split; [done|]. by eapply valid_kept_trans.
  - done.
Qed.

(** ** Parsing a well-formed probe section *)

Lemma decodeProbe_record Cur la d la' c' :
  ProbeRecord la (MCPseudoProbeDecoder.cur d) la' c' ->
  ∃ d', decodeProbe Cur la d = (true, la', d') ∧ MCPseudoProbeDecoder.cur d' = c'.
Proof.
  inversion 1 as [? ? Index c1 Value c2 Addr c3 H1 H2 H3]; subst.
  unfold decodeProbe. rewrite rd_cur, H1. cbn [fst snd].
  rewrite rd_cur. cbn [MCPseudoProbeDecoder.cur set_cur]. rewrite H2. cbn [fst snd].
  rewrite rd_cur. cbn [MCPseudoProbeDecoder.cur set_cur]. rewrite H3. cbn [fst snd].
  eexists. split; [reflexivity|]. by rewrite populate_cur.
Qed.

Lemma decodeProbes_records n la c la' c' :
  ProbeRecords n la c la' c' ->
  ∀ Cur d, MCPseudoProbeDecoder.cur d = c ->
    ∃ d', decodeProbes n Cur la d = (true, la', d') ∧
          MCPseudoProbeDecoder.cur d' = c'.
Proof.
  induction 1 as [|n la c la1 c1 la2 c2 Hrec _ IH]; intros Cur d Hd; simpl.
  - eauto.
  - subst c. destruct (decodeProbe_record Cur la d la1 c1 Hrec) as (d1 & -> & Hc1).
    apply IH. done.
Qed.

Lemma enterNode_body (top : bool) F Cur d c0 Guid c1 :
  (Cur = Some DummyInlineRoot ↔ top = true) ->
  (if top then c0 = MCPseudoProbeDecoder.cur d
   else ∃ Index, readUnsignedNumber uint32_t (MCPseudoProbeDecoder.cur d) =
                   (Ok Index, c0)) ->
  readUnencodedNumber uint64_t c0 = (Ok Guid, c1) ->
  ∃ Cur' d1, enterNode Cur F d = (Ok Cur', d1) ∧ MCPseudoProbeDecoder.cur d1 = c1.
Proof.
  intros Htop H0 H1. unfold enterNode.
  assert (∃ Index d0,
    (if bool_decide (Cur = Some DummyInlineRoot)
     then (Ok (static_cast uint32_t
                 (childCount (MCPseudoProbeDecoder.Nodes d) DummyInlineRoot)), d)
     else rd (readUnsignedNumber uint32_t) d) = (Ok Index, d0) ∧
    MCPseudoProbeDecoder.cur d0 = c0) as (Index & d0 & -> & Hc0).
  { destruct top.
    - rewrite bool_decide_eq_true_2 by (by apply Htop). eauto.
    - rewrite bool_decide_eq_false_2 by (intros ?; by apply Htop in H).
      destruct H0 as [Index H0]. rewrite rd_cur, H0. eauto. }
  rewrite rd_cur, Hc0, H1. cbn [fst snd].
  destruct (if _ && _ && _ then None else Cur) as [cur|].
  - destruct (decGetOrAddNode _ _ _). eauto.
  - eauto.
Qed.

Lemma buildAddress2ProbeMap_rec_follows fuel Cur la F d b la' d' :
  (dEnd d - dData d < fuel)%nat ->
  buildAddress2ProbeMap_rec fuel Cur la F d = Some (b, la', d') ->
  dfollows d d'.
Proof.
  intros Hfuel Heq.
  destruct (buildAddress2ProbeMap_rec_total fuel Cur la F d Hfuel)
    as (b0 & la0 & d0 & Heq0 & Hf & _).
  congruence.
Qed.

Lemma body_parse :
  (∀ top la c la' c', FunctionBody top la c la' c' ->
     ∀ G F fuel Cur d,
       G = ∅ ∨ G = F -> MCPseudoProbeDecoder.cur d = c ->
       decoder_ok G d -> cur_valid (MCPseudoProbeDecoder.Nodes d) Cur ->
       (Cur = Some DummyInlineRoot ↔ top = true) ->
       (End c - Data c < fuel)%nat ->
       ∃ d', buildAddress2ProbeMap_rec fuel Cur la F d = Some (true, la', d') ∧
             MCPseudoProbeDecoder.cur d' = c') ∧
  (∀ n la c la' c', InlinedBodies n la c la' c' ->
     ∀ G F fuel Cur d,
       G = ∅ ∨ G = F -> MCPseudoProbeDecoder.cur d = c ->
       decoder_ok G d -> cur_valid (MCPseudoProbeDecoder.Nodes d) Cur ->
       Cur ≠ Some DummyInlineRoot ->
       (End c - Data c < fuel)%nat ->
       ∃ d', inlineesLoop
               (fun la d => buildAddress2ProbeMap_rec fuel Cur la F d) n la d =
               Some (true, la', d') ∧
             MCPseudoProbeDecoder.cur d' = c').
Proof.
  apply body_mutind.
  - intros top la c c0 Guid c1 NProbes c2 NumInlined c3 la4 c4 la5 c5
      H0 H1 H2 H3 Hprobes _ IH G F fuel Cur d HG Hd Hok Hcur Htop Hfuel.
    destruct fuel as [|fuel]; [lia|]. subst c.
    cbn [buildAddress2ProbeMap_rec].
    destruct (enterNode_body top F Cur d c0 Guid c1 Htop H0 H1)
      as (Cur' & d1 & E0 & Hc1).
    rewrite E0.
    destruct (enterNode_inv G F Cur d _ d1 HG Hok Hcur E0) as (Hok1 & Hv1 & Hcur1 & Hroot).
    pose proof (enterNode_follows Cur F d) as Hf01. rewrite E0 in Hf01.
    apply enterNode_Ok in E0 as [Hadv Hle]. cbn [snd] in Hf01.
    rewrite rd_cur, Hc1, H2. cbn [fst snd].
    rewrite rd_cur. cbn [MCPseudoProbeDecoder.cur set_cur]. rewrite H3.
    cbn [fst snd].
    set (d3 := set_cur c3 (set_cur c2 d1)).
    assert (Hf13 : dfollows d1 d3).
    { unfold dfollows. subst d3. cbn [MCPseudoProbeDecoder.cur set_cur].
      rewrite Hc1. eapply follows_trans.
      - pose proof (readUnsignedNumber_follows uint32_t c1) as Hf. by rewrite H2 in Hf.
      - pose proof (readUnsignedNumber_follows uint32_t c2) as Hf. by rewrite H3 in Hf. }
    assert (Hok3 : decoder_ok G d3) by (by eapply decoder_ok_same).
    assert (Hcur3 : cur_valid (MCPseudoProbeDecoder.Nodes d3) Cur') by done.
    destruct (decodeProbes_records _ _ _ _ _ Hprobes Cur' d3 eq_refl)
      as (d4 & E4 & Hc4).
    pose proof (decodeProbes_follows (Z.to_nat NProbes) Cur' la d3) as Hf34.
    destruct (decodeProbes_inv G (Z.to_nat NProbes) Cur' Hroot la d3 Hok3 Hcur3)
      as [Hok4 Hv4].
    rewrite E4 in Hf34, Hok4, Hv4 |- *. cbn [snd] in Hf34, Hok4, Hv4.
    apply (IH G F fuel Cur' d4 HG Hc4 Hok4); [|done|].
    + destruct Cur'; [|done]. by apply Hv4.
    + assert (Hf : dfollows d1 d4) by eauto using dfollows_trans.
      apply dfollows_remaining in Hf.
      assert (dEnd d1 = dEnd d) as HE by (by destruct Hf01 as (_ & HE & _)).
      unfold dEnd, dData in *. rewrite Hc4 in Hf. lia.
  - intros la c G F fuel Cur d _ Hd _ _ _ _. simpl. eauto.
  - intros n la c la1 c1 la2 c2 _ IHbody _ IHrest
      G F fuel Cur d HG Hd Hok Hcur Hroot Hfuel.
    cbn [inlineesLoop].
    destruct (IHbody G F fuel Cur d HG Hd Hok Hcur) as (d1 & E1 & Hc1); [|done|].
    { split; [done|]. done. }
    rewrite E1. subst c.
    pose proof (buildAddress2ProbeMap_rec_follows _ _ _ _ _ _ _ _ Hfuel E1) as Hf.
    destruct (buildAddress2ProbeMap_rec_inv G F fuel HG _ _ _ _ _ _ Hok Hcur E1)
      as [Hok1 Hv1].
    apply (IHrest G F fuel Cur d1 HG Hc1 Hok1); [|done|].
    + destruct Cur; [|done]. by apply Hv1.
    + apply dfollows_remaining in Hf. unfold dEnd, dData in *.
      rewrite Hc1 in Hf. lia.
Qed.

Lemma section_parse la c la_end :
  ProbeSection la c la_end ->
  ∀ G F fuel d,
    G = ∅ ∨ G = F -> MCPseudoProbeDecoder.cur d = c -> decoder_ok G d ->
    (End c - Data c <= fuel)%nat ->
    ∃ d', topLoop fuel la F d = Some (la_end, d') ∧
          (dEnd d' <= dData d')%nat ∧ dfollows d d' ∧ decoder_ok G d'.
Proof.
  induction 1 as [la c Hend|la c la1 c1 la2 Hlt Hbody _ IH];
    intros G F fuel d HG Hd Hok Hfuel; subst c.
  - exists d. split; [|by eauto using dfollows_refl].
    destruct fuel; cbn [topLoop];
      by destruct (Nat.ltb_spec (dData d) (dEnd d)); [unfold dData, dEnd in *; lia|].
  - destruct fuel as [|fuel]; [lia|]. cbn [topLoop].
    destruct (Nat.ltb_spec (dData d) (dEnd d)); [|unfold dData, dEnd in *; lia].
    assert (Hcur : cur_valid (MCPseudoProbeDecoder.Nodes d) (Some DummyInlineRoot))
      by (by destruct Hok as [[? _] _]).
    destruct (proj1 body_parse _ _ _ _ _ Hbody G F (S (dEnd d - dData d))
                (Some DummyInlineRoot) d HG eq_refl Hok Hcur)
      as (d1 & E1 & Hc1); [done|unfold dData, dEnd; lia|].
    destruct (buildAddress2ProbeMap_rec_total (S (dEnd d - dData d))
                (Some DummyInlineRoot) la F d)
      as (b & la' & d1' & E1' & Hf & Hadv); [lia|].
    rewrite E1 in E1'. injection E1' as <- <- <-. specialize (Hadv eq_refl).
    rewrite E1.
    destruct (buildAddress2ProbeMap_rec_inv G F _ HG _ _ _ _ _ _ Hok Hcur E1)
      as [Hok1 _].
    destruct (IH G F fuel d1 HG Hc1 Hok1) as (d' & E' & Hend' & Hf' & Hok').
    { destruct Hf as (_ & HE & _ & _). unfold dData, dEnd in *.
      rewrite Hc1 in HE, Hadv. lia. }
    exists d'. split; [done|]. split; [done|]. split; [|done].
    by eapply dfollows_trans.
Qed.

Lemma freshDecoder_ok G (Start : list Z) :
  decoder_ok G (setInput Start freshDecoder).
Proof.
  split; [|split].
  - split; [by eexists|]. intros [|id] n Site c Hn Hc; [|done].
    injection Hn as <-. simpl in Hc. by rewrite lookup_empty in Hc.
  - intros [|id] Hid [n Hn]; done.
  - intros Addr ps p Hps. simpl in Hps. by rewrite lookup_empty in Hps.
Qed.

(** C3. With a non-empty GUID filter, the parse of a well-formed probe
    section by a fresh decoder returns true having consumed every byte;
    every probe of the address index, and every node of the forest other
    than the root, is then below a top-level function whose GUID is in
    the filter. *)
Theorem filter_containment (Start : list Z) (F : gset Z) (fuel : nat)
    (la_end : Z) :
  F ≠ ∅ ->
  ProbeSection 0 (mkCursor Start 0 (length Start)) la_end ->
  (length Start <= fuel)%nat ->
  ∃ d', buildAddress2ProbeMap fuel Start F freshDecoder = Some (true, d') ∧
        dData d' = length Start ∧
        (∀ Addr ps p,
           MCPseudoProbeDecoder.Address2ProbesMap d' !! Addr = Some ps ->
           p ∈ ps ->
           TopLevelGuidIn F (MCPseudoProbeDecoder.Nodes d')
             (MCDecodedPseudoProbe.InlineTree p)) ∧
        (∀ id, id ≠ DummyInlineRoot ->
               is_Some (MCPseudoProbeDecoder.Nodes d' !! id) ->
               TopLevelGuidIn F (MCPseudoProbeDecoder.Nodes d') id).
Proof.
  intros HF Hsec Hfuel.
  destruct (section_parse _ _ _ Hsec F F fuel (setInput Start freshDecoder))
    as (d' & E & Hend & Hf & Hstore & Hunder & Hprobes);
    [by right|done|apply freshDecoder_ok|simpl; lia|].
  exists d'. unfold buildAddress2ProbeMap. rewrite E. split; [done|].
  split; [|split].
  - destruct Hf as (_ & HE & HD & Hle). simpl in *.
    specialize (Hle ltac:(lia)). unfold dData, dEnd in *. lia.
  - intros Addr ps p Hps Hp. destruct (Hprobes _ _ _ Hps Hp) as [Hr Hv].
    by destruct (Hunder _ Hr Hv).
  - intros id Hid Hv. by destruct (Hunder _ Hid Hv).
Qed.

(** C4. Whatever the node pointer, null for a filtered subtree or not, a
    probe record leaves in [LastAddr] the address decoded for it.  The
    parse of a section starts from [LastAddr] 0 and, whatever the filter,
    ends with the address that results from carrying [LastAddr] through
    every record of every top-level function in turn. *)
Theorem last_addr_threading :
  (∀ Cur la d la' c',
     ProbeRecord la (MCPseudoProbeDecoder.cur d) la' c' ->
     ∃ d', decodeProbe Cur la d = (true, la', d') ∧
           MCPseudoProbeDecoder.cur d' = c') ∧
  (∀ Start F fuel la_end,
     ProbeSection 0 (mkCursor Start 0 (length Start)) la_end ->
     (length Start <= fuel)%nat ->
     ∃ d', topLoop fuel 0 F (setInput Start freshDecoder) = Some (la_end, d') ∧
           buildAddress2ProbeMap fuel Start F freshDecoder = Some (true, d')).
Proof.
  split; [apply decodeProbe_record|].
  intros Start F fuel la_end Hsec Hfuel.
  destruct (section_parse _ _ _ Hsec ∅ F fuel (setInput Start freshDecoder))
    as (d' & E & _); [by left|done|apply freshDecoder_ok|simpl; lia|].
  exists d'. unfold buildAddress2ProbeMap. by rewrite E.
Qed.

(** ** Inline context of a decoded probe *)

Lemma inlineContextLoop_walk nodes GUID2FuncMAP id frames :
  ContextWalk nodes GUID2FuncMAP id frames ->
  ∀ fuel ContextStack, (length frames <= fuel)%nat ->
    inlineContextLoop fuel nodes GUID2FuncMAP id ContextStack =
    Some (ContextStack ++ frames).
Proof.
  induction 1 as [id Hno|id n p pn FuncDesc frames Hhas Hn Hp Hpn Hdesc _ IH];
    intros fuel ContextStack Hfuel.
  - destruct fuel; simpl; rewrite Hno; by rewrite app_nil_r.
  - destruct fuel as [|fuel]; [simpl in Hfuel; lia|].
    cbn [inlineContextLoop]. rewrite Hhas, Hn. cbn [mbind option_bind].
    rewrite Hp. cbn [mbind option_bind]. rewrite Hpn. cbn [mbind option_bind].
    unfold getProbeFNameForGUID. rewrite Hdesc. cbn [fmap option_fmap option_map mbind option_bind].
    rewrite IH by (simpl in Hfuel; lia). by rewrite <- app_assoc.
Qed.

(** C9. When the walk from the probe's node up the parent links, taken
    while the node has an inline site, collects the frames [frames] (one
    per node: the name of the parent's function and the node's call-site
    index), the query returns, after what the caller's stack held, these
    frames in reverse, caller first, followed by the leaf frame (the name
    of the probe's function and the probe's index) when it is asked for. *)
Theorem inline_context_order (fuel : nat) (d : Decoder)
    (Probe : MCDecodedPseudoProbe.t) (InlineContextStack frames : list Frame) :
  ContextWalk (MCPseudoProbeDecoder.Nodes d)
    (MCPseudoProbeDecoder.GUID2FuncDescMap d)
    (MCDecodedPseudoProbe.InlineTree Probe) frames ->
  (length frames <= fuel)%nat ->
  getInlineContextForProbe fuel d Probe InlineContextStack false =
    Some (InlineContextStack ++ reverse frames) ∧
  (∀ FuncDesc,
     MCPseudoProbeDecoder.GUID2FuncDescMap d !! MCDecodedPseudoProbe.Guid Probe =
       Some FuncDesc ->
     getInlineContextForProbe fuel d Probe InlineContextStack true =
       Some (InlineContextStack ++ reverse frames ++
             [(MCPseudoProbeFuncDesc.FuncName FuncDesc,
               MCDecodedPseudoProbe.Index Probe)])).
Proof.
  intros Hwalk Hfuel.
  assert (Hctx : getInlineContext fuel (MCPseudoProbeDecoder.Nodes d) Probe
                   InlineContextStack (MCPseudoProbeDecoder.GUID2FuncDescMap d) =
                 Some (InlineContextStack ++ reverse frames)).
  { unfold getInlineContext.
    rewrite (inlineContextLoop_walk _ _ _ _ Hwalk) by done.
    cbn [mbind option_bind].
    by rewrite take_app_length, drop_app_length. }
  unfold getInlineContextForProbe. rewrite Hctx. cbn [mbind option_bind negb].
  split; [done|]. intros FuncDesc ->. cbn [mbind option_bind].
  by rewrite <- app_assoc.
Qed.

(** ** Values returned by the read primitives *)

Lemma sizeof_bits (T : IntTy) :
  256 ^ Z.of_nat (sizeof T) = 2 ^ (8 * Z.of_nat (sizeof T)) ∧
  2 ^ (8 * Z.of_nat (sizeof T)) =
    (if is_signed T then 2 * (numeric_limits_max T + 1) else numeric_limits_max T + 1).
Proof. by destruct T. Qed.

Lemma atData_bytes (c : Cursor) (n : nat) :
  Forall (fun b => 0 <= b < 256) (Mem c) ->
  Forall (fun b => 0 <= b < 256) (take n (atData c)).
Proof. intros H. by apply Forall_take, Forall_drop. Qed.

Lemma readLE_take_bound (c : Cursor) (n : nat) :
  Forall (fun b => 0 <= b < 256) (Mem c) ->
  0 <= readLE (take n (atData c)) < 256 ^ Z.of_nat n.
Proof.
  intros H. pose proof (readLE_bound _ (atData_bytes c n H)) as [H0 H1].
  split; [done|]. eapply Z.lt_le_trans; [exact H1|].
  apply Z.pow_le_mono_r; [lia|]. rewrite length_take. lia.
Qed.

(** X1.  A fixed-width read fails exactly when fewer than [sizeof(T)]
    bytes remain before [End].  When it succeeds the cursor has moved by
    [sizeof(T)] and has not passed [End]; the value lies in the range of
    [T], and for an unsigned [T] it is the little-endian value of the
    bytes read. *)
Theorem readUnencodedNumber_range (T : IntTy) (c : Cursor) :
  Forall (fun b => 0 <= b < 256) (Mem c) ->
  ((readUnencodedNumber T c).1 = Err ↔ (End c < Data c + sizeof T)%nat) ∧
  ∀ v c', readUnencodedNumber T c = (Ok v, c') ->
    Data c' = (Data c + sizeof T)%nat ∧ (Data c' <= End c')%nat ∧
    (if is_signed T
     then - (numeric_limits_max T + 1) <= v <= numeric_limits_max T ∧
          v mod 2 ^ 64 = readLE (take (sizeof T) (atData c))
     else 0 <= v <= numeric_limits_max T ∧
          v = readLE (take (sizeof T) (atData c))).
Proof.
  intros Hb. unfold readUnencodedNumber.
  destruct (Nat.ltb_spec (End c) (Data c + sizeof T)) as [Hlt|Hge].
  { split; [done|]. intros v c' [=]. }
  split; [simpl; split; [done|lia]|].
  intros v c' [= <- <-]. split; [done|]. split; [simpl; lia|].
  pose proof (readLE_take_bound c (sizeof T) Hb) as Hr.
  destruct (sizeof_bits T) as [E1 E2]. rewrite E1 in Hr.
  unfold static_cast. cbv zeta.
  set (x := readLE _) in *. set (w := 8 * Z.of_nat (sizeof T)) in *.
  rewrite (Z.mod_small x (2 ^ w)) by lia.
  destruct T; simpl in E2 |- *; try (split; [lia|done]).
  subst w. change (8 * Z.of_nat (sizeof int64_t)) with 64 in *.
  change (64 - 1) with 63. change (numeric_limits_max int64_t) with (2 ^ 63 - 1) in *.
  destruct (Z.leb_spec (2 ^ 63) x).
  - split; [lia|]. symmetry. apply Z.mod_unique with (-1); lia.
  - split; [lia|]. apply Z.mod_small. lia.
Qed.

(** X2.  [readString] fails exactly when [Size] bytes do not fit before
    [End].  When it succeeds the string is made of the [Size] bytes that
    stand at the read pointer, and the cursor has moved past them without
    passing [End]. *)
Theorem readString_slice (Size : Z) (c : Cursor) :
  (End c <= length (Mem c))%nat ->
  ((readString Size c).1 = Err ↔ (End c < Data c + Z.to_nat Size)%nat) ∧
  ∀ Str c', readString Size c = (Ok Str, c') ->
    length Str = Z.to_nat Size ∧
    (∀ i, (i < Z.to_nat Size)%nat -> Str !! i = Mem c !! (Data c + i)%nat) ∧
    Data c' = (Data c + Z.to_nat Size)%nat ∧ (Data c' <= End c')%nat.
Proof.
  intros Hmem. unfold readString.
  destruct (Nat.ltb_spec (End c) (Data c + Z.to_nat Size)) as [Hlt|Hge].
  { split; [done|]. intros Str c' [=]. }
  split; [simpl; split; [done|lia]|].
  intros Str c' [= <- <-]. unfold atData. split; [|split; [|split]].
  - rewrite length_take, length_drop. lia.
  - intros i Hi. by rewrite lookup_take_lt, lookup_drop.
  - done.
  - simpl. lia.
Qed.

(** X3.  The LEB128 reads return the decoded value itself.  For an
    unsigned [T] the read succeeds exactly when the value is at most the
    maximum of [T] and the bytes read end before [End]; for [int64_t] the
    comparison with the maximum never fails, only the bound does. *)
Theorem leb128_reads_exact (T : IntTy) (c : Cursor) :
  is_signed T = false ->
  0 <= (decodeULEB128 (atData c)).1 ->
  - 2 ^ 63 <= (decodeSLEB128 (atData c)).1 < 2 ^ 63 ->
  readUnsignedNumber T c =
    (if ((decodeULEB128 (atData c)).1 <=? numeric_limits_max T) &&
        (Data c + (decodeULEB128 (atData c)).2 <=? End c)%nat
     then (Ok (decodeULEB128 (atData c)).1, advance (decodeULEB128 (atData c)).2 c)
     else (Err, c)) ∧
  readSignedNumber int64_t c =
    (if (Data c + (decodeSLEB128 (atData c)).2 <=? End c)%nat
     then (Ok (decodeSLEB128 (atData c)).1, advance (decodeSLEB128 (atData c)).2 c)
     else (Err, c)).
Proof.
  intros Hu H0 Hs. unfold readUnsignedNumber, readSignedNumber.
  destruct (decodeULEB128 (atData c)) as [Val n].
  destruct (decodeSLEB128 (atData c)) as [Off m]. simpl in *. split.
  - destruct (Z.ltb_spec (numeric_limits_max T) Val) as [Hgt|Hle]; simpl.
    { by rewrite (proj2 (Z.leb_gt _ _) Hgt). }
    rewrite (proj2 (Z.leb_le _ _) Hle). simpl.
    destruct (Nat.ltb_spec (End c) (Data c + n)) as [Hlt|Hge].
    { by rewrite (proj2 (Nat.leb_gt _ _) Hlt). }
    rewrite (proj2 (Nat.leb_le _ _) Hge). do 2 f_equal.
    destruct (sizeof_bits T) as [_ E2]. rewrite Hu in E2.
    unfold static_cast. cbv zeta. rewrite Hu. simpl andb. cbv iota.
    apply Z.mod_small. lia.
  - change (numeric_limits_max int64_t) with (2 ^ 63 - 1).
    rewrite (proj2 (Z.ltb_ge _ _)) by lia. simpl orb.
    destruct (Nat.ltb_spec (End c) (Data c + m)) as [Hlt|Hge].
    { by rewrite (proj2 (Nat.leb_gt _ _) Hlt). }
    rewrite (proj2 (Nat.leb_le _ _) Hge). do 2 f_equal.
    unfold static_cast. cbv zeta.
    change (8 * Z.of_nat (sizeof int64_t)) with 64. change (64 - 1) with 63.
    simpl andb.
    destruct (Z.leb_spec (2 ^ 63) (Off mod 2 ^ 64)) as [Hh|Hl].
    + assert (Off mod 2 ^ 64 = Off + 2 ^ 64); [|lia].
      destruct (Z.lt_ge_cases Off 0).
      * symmetry. apply Z.mod_unique with (-1); lia.
      * rewrite Z.mod_small in Hh; lia.
    + destruct (Z.lt_ge_cases Off 0).
      * assert (Off mod 2 ^ 64 = Off + 2 ^ 64); [|lia].
        symmetry. apply Z.mod_unique with (-1); lia.
      * apply Z.mod_small. lia.
Qed.

(** ** Content of the descriptor map *)

Lemma rd_descs {A : Type} (r : Cursor -> ErrorOr A * Cursor) (d : Decoder) x d' :
  rd r d = (x, d') ->
  MCPseudoProbeDecoder.GUID2FuncDescMap d' = MCPseudoProbeDecoder.GUID2FuncDescMap d.
Proof. intros H. apply rd_eq in H as [_ ->]. done. Qed.

Lemma emplace_lookup GUID Desc m g :
  emplace GUID Desc m !! g =
  match m !! g with
  | Some x => Some x
  | None => if decide (GUID = g) then Some Desc else None
  end.
Proof.
  unfold emplace. destruct (m !! GUID) as [x|] eqn:E.
  - destruct (m !! g) eqn:Eg; [done|]. destruct (decide (GUID = g)); [congruence|done].
  - destruct (decide (GUID = g)) as [->|Hne].
    + by rewrite lookup_insert_eq, E.
    + rewrite lookup_insert_ne by done. by destruct (m !! g).
Qed.

Lemma descLoop_maps (fuel : nat) :
  ∀ d b d', descLoop fuel d = Some (b, d') ->
    MCPseudoProbeDecoder.Nodes d' = MCPseudoProbeDecoder.Nodes d ∧
    MCPseudoProbeDecoder.Address2ProbesMap d' =
      MCPseudoProbeDecoder.Address2ProbesMap d ∧
    (∀ g desc, MCPseudoProbeDecoder.GUID2FuncDescMap d !! g = Some desc ->
               MCPseudoProbeDecoder.GUID2FuncDescMap d' !! g = Some desc) ∧
    (∀ g desc, MCPseudoProbeDecoder.GUID2FuncDescMap d' !! g = Some desc ->
               MCPseudoProbeDecoder.GUID2FuncDescMap d !! g = Some desc ∨
               MCPseudoProbeFuncDesc.FuncGUID desc = g).
Proof.
  induction fuel as [|fuel IH]; intros d b d'; simpl.
  { destruct (dData d <? dEnd d)%nat; [done|]. intros [= <- <-]. eauto. }
  destruct (dData d <? dEnd d)%nat; [|intros [= <- <-]; eauto].
  destruct (rd (readUnencodedNumber uint64_t) d) as [[|GUID] d1] eqn:E1;
    pose proof (rd_same _ _ _ _ E1) as [Hn1 Hm1]; pose proof (rd_descs _ _ _ _ E1) as Hd1.
  { intros [= <- <-]. rewrite Hd1. eauto. }
  destruct (rd (readUnencodedNumber uint64_t) d1) as [[|Hash] d2] eqn:E2;
    pose proof (rd_same _ _ _ _ E2) as [Hn2 Hm2]; pose proof (rd_descs _ _ _ _ E2) as Hd2.
  { intros [= <- <-]. rewrite Hd2, Hd1, Hn2, Hm2. eauto. }
  destruct (rd (readUnsignedNumber uint32_t) d2) as [[|NameSize] d3] eqn:E3;
    pose proof (rd_same _ _ _ _ E3) as [Hn3 Hm3]; pose proof (rd_descs _ _ _ _ E3) as Hd3.
  { intros [= <- <-]. rewrite Hd3, Hd2, Hd1, Hn3, Hm3, Hn2, Hm2. eauto. }
  destruct (rd (readString NameSize) d3) as [[|Name] d4] eqn:E4;
    pose proof (rd_same _ _ _ _ E4) as [Hn4 Hm4]; pose proof (rd_descs _ _ _ _ E4) as Hd4.
  { intros [= <- <-]. rewrite Hd4, Hd3, Hd2, Hd1, Hn4, Hm4, Hn3, Hm3, Hn2, Hm2. eauto. }
  intros H. apply IH in H as (Hn & Hm & Hold & Hnew). simpl in *.
  rewrite Hd4, Hd3, Hd2, Hd1 in *.
  split; [congruence|]. split; [congruence|]. split.
  - intros g desc Hg. apply Hold. by rewrite emplace_lookup, Hg.
  - intros g desc Hg. apply Hnew in Hg as [Hg|Hg]; [|by right].
    rewrite emplace_lookup in Hg.
    destruct (MCPseudoProbeDecoder.GUID2FuncDescMap d !! g); [by left|].
    destruct (decide (GUID = g)) as [<-|]; [|done]. injection Hg as <-. by right.
Qed.

(** X4.  Whether the descriptor parse succeeds or fails, a descriptor
    that was in the map before the call is still there with the same
    content: a record for a GUID that is already described is dropped.
    Every descriptor of the map after the call was there before or is
    filed under its own GUID. *)
Theorem descriptors_first_wins (Start : list Z) (d : Decoder) (b : bool)
    (d' : Decoder) :
  buildGUID2FuncDescMap Start d = Some (b, d') ->
  (∀ g desc, MCPseudoProbeDecoder.GUID2FuncDescMap d !! g = Some desc ->
             MCPseudoProbeDecoder.GUID2FuncDescMap d' !! g = Some desc) ∧
  (∀ g desc, MCPseudoProbeDecoder.GUID2FuncDescMap d' !! g = Some desc ->
             MCPseudoProbeDecoder.GUID2FuncDescMap d !! g = Some desc ∨
             MCPseudoProbeFuncDesc.FuncGUID desc = g).
Proof.
  unfold buildGUID2FuncDescMap. intros H.
  apply descLoop_maps in H as (_ & _ & Hold & Hnew). done.
Qed.

Lemma foldl_emplace_lookup (recs : list MCPseudoProbeFuncDesc.t) :
  ∀ m g,
    foldl (fun m r => emplace (MCPseudoProbeFuncDesc.FuncGUID r) r m) m recs !! g =
    match m !! g with
    | Some x => Some x
    | None => firstDesc g recs
    end.
Proof.
  induction recs as [|r recs IH]; intros m g; simpl.
  { by destruct (m !! g). }
  rewrite IH, emplace_lookup. destruct (m !! g); [done|].
  by destruct (decide (MCPseudoProbeFuncDesc.FuncGUID r = g)).
Qed.

Lemma readString_Ok Size c Str c' :
  readString Size c = (Ok Str, c') -> follows c c'.
Proof. intros H. pose proof (readString_follows Size c) as Hf. by rewrite H in Hf. Qed.

Lemma readUnsignedNumber_Ok T c v c' :
  readUnsignedNumber T c = (Ok v, c') -> follows c c'.
Proof.
  intros H. pose proof (readUnsignedNumber_follows T c) as Hf. by rewrite H in Hf.
Qed.

Lemma descLoop_records c recs c' :
  DescRecordsAt c recs c' ->
  ∀ fuel d, MCPseudoProbeDecoder.cur d = c -> (End c - Data c < fuel)%nat ->
    ∃ fuel',
      descLoop fuel d =
      descLoop fuel'
        (set_descs
           (foldl (fun m r => emplace (MCPseudoProbeFuncDesc.FuncGUID r) r m)
                  (MCPseudoProbeDecoder.GUID2FuncDescMap d) recs)
           (set_cur c' d)) ∧
      (End c' - Data c' < fuel')%nat.
Proof.
  induction 1 as [c|c GUID c1 Hash c2 NameSize c3 Name c4 rest c' Hlt R1 R2 R3 R4 _ IH];
    intros fuel d Hc Hfuel.
  { exists fuel. split; [|done]. simpl. subst c. rewrite set_cur_id. by destruct d. }
  destruct fuel as [|fuel]; [lia|]. cbn [descLoop].
  unfold dData, dEnd. rewrite Hc. rewrite (proj2 (Nat.ltb_lt _ _) Hlt).
  rewrite (rd_cur (readUnencodedNumber uint64_t) d), Hc, R1. cbn [fst snd].
  rewrite (rd_cur (readUnencodedNumber uint64_t) (set_cur c1 d)).
  cbn [set_cur MCPseudoProbeDecoder.cur]. rewrite R2. cbn [fst snd].
  rewrite (rd_cur (readUnsignedNumber uint32_t)).
  cbn [set_cur MCPseudoProbeDecoder.cur]. rewrite R3. cbn [fst snd].
  rewrite (rd_cur (readString NameSize)).
  cbn [set_cur MCPseudoProbeDecoder.cur]. rewrite R4. cbn [fst snd].
  apply readUnencodedNumber_Ok in R1 as [-> Hb1].
  apply readUnencodedNumber_Ok in R2 as [-> Hb2].
  apply readUnsignedNumber_Ok in R3 as (M3 & E3 & D3 & B3).
  apply readString_Ok in R4 as (M4 & E4 & D4 & B4).
  simpl in *.
  edestruct (IH fuel) as (fuel' & Heq & Hf'); [| |exists fuel'; split; [|exact Hf']].
  3: { rewrite Heq. cbn [set_descs set_cur MCPseudoProbeDecoder.cur
         MCPseudoProbeDecoder.GUID2FuncDescMap MCPseudoProbeDecoder.Nodes
         MCPseudoProbeDecoder.Address2ProbesMap]. reflexivity. }
  - reflexivity.
  - lia.
Qed.

(** X5.  When the descriptor section starts with the records [recs], a
    GUID that the map did not describe before the call is afterwards
    described by the first of the records with that GUID, even when the
    parse fails further on.  When the records reach the end of the
    section the parse succeeds and the map holds nothing else. *)
Theorem descriptor_section_content (Start : list Z) (d : Decoder)
    (recs : list MCPseudoProbeFuncDesc.t) (c' : Cursor) :
  DescRecordsAt (mkCursor Start 0 (length Start)) recs c' ->
  ∃ b d', buildGUID2FuncDescMap Start d = Some (b, d') ∧
    (∀ g r, MCPseudoProbeDecoder.GUID2FuncDescMap d !! g = None ->
            firstDesc g recs = Some r ->
            MCPseudoProbeDecoder.GUID2FuncDescMap d' !! g = Some r) ∧
    ((End c' <= Data c')%nat ->
     b = true ∧
     ∀ g, MCPseudoProbeDecoder.GUID2FuncDescMap d' !! g =
          match MCPseudoProbeDecoder.GUID2FuncDescMap d !! g with
          | Some x => Some x
          | None => firstDesc g recs
          end).
Proof.
  intros Hrecs. unfold buildGUID2FuncDescMap.
  destruct (descLoop_records _ _ _ Hrecs (S (length Start)) (setInput Start d))
    as (fuel' & Heq & Hf'); [done|simpl; lia|].
  rewrite Heq. set (d1 := set_descs _ _) in *.
  destruct (descLoop_spec fuel' d1) as (b & d' & E & _); [exact Hf'|].
  exists b, d'. split; [exact E|].
  assert (Hd1 : ∀ g, MCPseudoProbeDecoder.GUID2FuncDescMap d1 !! g =
                 match MCPseudoProbeDecoder.GUID2FuncDescMap d !! g with
                 | Some x => Some x
                 | None => firstDesc g recs
                 end).
  { intros g. unfold d1. cbn [set_descs MCPseudoProbeDecoder.GUID2FuncDescMap].
    by rewrite foldl_emplace_lookup. }
  split.
  - intros g r Hg Hr. apply (descLoop_maps _ _ _ _ E). by rewrite Hd1, Hg.
  - intros Hend. destruct fuel' as [|fuel'']; simpl in E.
    + replace (dData d1 <? dEnd d1)%nat with false in E
        by (symmetry; apply Nat.ltb_ge; exact Hend).
      by injection E as <- <-.
    + replace (dData d1 <? dEnd d1)%nat with false in E
        by (symmetry; apply Nat.ltb_ge; exact Hend).
      by injection E as <- <-.
Qed.

(** ** A top-level record that does not start *)

Lemma enterNode_short (F : gset Z) (d : Decoder) :
  (dEnd d < dData d + 8)%nat ->
  enterNode (Some DummyInlineRoot) F d = (Err, d).
Proof.
  intros H. unfold enterNode. rewrite bool_decide_eq_true_2 by done.
  rewrite rd_cur. unfold readUnencodedNumber.
  change (sizeof uint64_t) with 8%nat.
  replace (End (MCPseudoProbeDecoder.cur d) <? Data (MCPseudoProbeDecoder.cur d) + 8)%nat
    with true by (symmetry; apply Nat.ltb_lt; exact H).
  cbn [fst snd]. by rewrite set_cur_id.
Qed.

Lemma topLoop_stalls (fuel : nat) (la : Z) (F : gset Z) (d : Decoder) :
  (dData d < dEnd d)%nat -> (dEnd d < dData d + 8)%nat ->
  topLoop fuel la F d = None.
Proof.
  intros Hlt Hshort. induction fuel as [|fuel IH]; cbn [topLoop];
    rewrite (proj2 (Nat.ltb_lt _ _) Hlt); [done|].
  cbn [buildAddress2ProbeMap_rec]. rewrite enterNode_short by done. exact IH.
Qed.

Lemma topLoop_trailing la c la' c' :
  TopBodies la c la' c' ->
  (Data c' < End c')%nat -> (End c' < Data c' + 8)%nat ->
  ∀ fuel F d, MCPseudoProbeDecoder.cur d = c -> decoder_ok ∅ d ->
    topLoop fuel la F d = None.
Proof.
  induction 1 as [la c|la c la1 c1 la2 c2 Hlt Hbody _ IH];
    intros Hlt' Hshort fuel F d Hc Hok.
  { apply topLoop_stalls; unfold dData, dEnd; by rewrite Hc. }
  destruct fuel as [|fuel]; cbn [topLoop]; unfold dData, dEnd; rewrite Hc;
    rewrite (proj2 (Nat.ltb_lt _ _) Hlt); [done|].
  destruct (proj1 body_parse _ _ _ _ _ Hbody ∅ F (S (End c - Data c))
              (Some DummyInlineRoot) d) as (d1 & E & Hc1);
    [by left|done|done|apply (proj1 (proj1 Hok))|done|lia|].
  rewrite E.
  apply (IH Hlt' Hshort); [done|].
  exact (proj1 (buildAddress2ProbeMap_rec_inv ∅ F _ (or_introl eq_refl)
                  (Some DummyInlineRoot) _ _ _ _ _ Hok (proj1 (proj1 Hok)) E)).
Qed.

(** X6.  When the probe section is made of top-level function bodies
    followed by one to seven more bytes, the top-level loop does not end:
    the call made on the trailing bytes fails to read a GUID, consumes
    nothing, and its result is dropped, so no number of iterations
    finishes the parse, whatever the filter. *)
Theorem trailing_bytes_never_return (Start : list Z) (la : Z) (c' : Cursor)
    (F : gset Z) (fuel : nat) (d : Decoder) :
  TopBodies 0 (mkCursor Start 0 (length Start)) la c' ->
  (Data c' < End c')%nat -> (End c' < Data c' + 8)%nat ->
  decoder_ok ∅ d ->
  buildAddress2ProbeMap fuel Start F d = None.
Proof.
  intros Hb Hlt Hshort Hok. unfold buildAddress2ProbeMap.
  rewrite (topLoop_trailing _ _ _ _ Hb Hlt Hshort fuel F (setInput Start d));
    [done|done|by apply (decoder_ok_same ∅ d)].
Qed.

(** ** The parse as a sequence of updates *)

Lemma alter_absent {A : Type} (f : A -> A) (i : nat) (l : list A) :
  l !! i = None -> alter f i l = l.
Proof.
  intros H. apply list_eq. intros j. destruct (decide (i = j)) as [<-|Hne].
  - by rewrite list_lookup_alter_eq, H.
  - by rewrite list_lookup_alter_ne.
Qed.

Lemma enterChild_cases (cur : nat) (Site : InlineSite) (nodes : list DecNode) :
  (nodes !! cur = None ∧ enterChild cur Site nodes = nodes) ∨
  (∃ n c, nodes !! cur = Some n ∧
          MCDecodedPseudoProbeInlineTree.Children n !! Site = Some c ∧
          enterChild cur Site nodes =
            alter (set_Guid Site.1) c (alter (set_Parent cur) c nodes)) ∨
  (∃ n, nodes !! cur = Some n ∧
        MCDecodedPseudoProbeInlineTree.Children n !! Site = None ∧
        enterChild cur Site nodes =
          <[cur := add_Child Site (length nodes) n]> nodes ++
          [MCDecodedPseudoProbeInlineTree.mk Site.1 Site (Some cur) ∅ []]).
Proof.
  unfold enterChild, decGetOrAddNode.
  destruct (nodes !! cur) as [n|] eqn:Hn; cycle 1.
  { left. split; [done|]. simpl. by apply alter_absent. }
  right. destruct (MCDecodedPseudoProbeInlineTree.Children n !! Site) as [c|] eqn:Hc.
  - left. exists n, c. done.
  - right. exists n. split; [done|]. split; [done|]. cbn [fst snd].
    rewrite alter_app_r_alt by (rewrite length_insert; lia).
    rewrite length_insert, Nat.sub_diag. done.
Qed.

Lemma rd_step valid {A : Type} (r : Cursor -> ErrorOr A * Cursor) (d : Decoder) x d' :
  rd r d = (x, d') -> ParseStep valid d d'.
Proof. intros H. apply rd_eq in H as [_ H]. rewrite H. constructor. Qed.

Lemma enterNode_steps valid Cur F d :
  (valid -> decoder_ok ∅ d ∧ cur_valid (MCPseudoProbeDecoder.Nodes d) Cur) ->
  rtc (ParseStep valid) d (enterNode Cur F d).2.
Proof.
  intros HV. unfold enterNode.
  assert (H0 : ∀ x d0,
    (if bool_decide (Cur = Some DummyInlineRoot)
     then (Ok (static_cast uint32_t
                 (childCount (MCPseudoProbeDecoder.Nodes d) DummyInlineRoot)), d)
     else rd (readUnsignedNumber uint32_t) d) = (x, d0) ->
    ParseStep valid d d0 ∧
    MCPseudoProbeDecoder.Nodes d0 = MCPseudoProbeDecoder.Nodes d).
  { intros x d0. destruct (bool_decide _).
    - intros [= <- <-]. split; [|done]. rewrite <- (set_cur_id d) at 2. constructor.
    - intros H. split; [by eapply rd_step|]. by apply rd_same in H as [? _]. }
  destruct (if bool_decide (Cur = Some DummyInlineRoot) then _ else _)
    as [[|Index] d0].
  { destruct (H0 _ _ eq_refl) as [Hs _]. by apply rtc_once. }
  destruct (H0 _ _ eq_refl) as [Hs0 Hn0]. clear H0.
  destruct (rd (readUnencodedNumber uint64_t) d0) as [[|Guid] d2] eqn:E2;
    pose proof (rd_step valid _ _ _ _ E2) as Hs2;
    apply rd_same in E2 as [Hn2 _]; rewrite Hn0 in Hn2.
  { simpl. eapply rtc_l; [exact Hs0|]. by apply rtc_once. }
  assert (H02 : rtc (ParseStep valid) d d2).
  { eapply rtc_l; [exact Hs0|]. by apply rtc_once. }
  destruct (bool_decide (Cur = Some DummyInlineRoot) && negb (bool_decide (F = ∅)) &&
            negb (bool_decide (Guid ∈ F))); [done|].
  destruct Cur as [cur|]; [|done].
  assert (Hs : ParseStep valid d2
                 (set_nodes (enterChild cur (Guid, Index)
                               (MCPseudoProbeDecoder.Nodes d2)) d2)).
  { constructor. intros Hv. destruct (HV Hv) as [Hok Hcur]. rewrite Hn2.
    split; [apply Hok|exact Hcur]. }
  unfold enterChild in Hs.
  destruct (decGetOrAddNode cur (Guid, Index) (MCPseudoProbeDecoder.Nodes d2))
    as [c nodes']. cbn [fst snd] in *.
  eapply rtc_r; [exact H02|exact Hs].
Qed.

Lemma decodeProbe_steps valid Cur la d :
  (valid -> cur_valid (MCPseudoProbeDecoder.Nodes d) Cur ∧
            Cur ≠ Some DummyInlineRoot) ->
  rtc (ParseStep valid) d (decodeProbe Cur la d).2.
Proof.
  intros HV. unfold decodeProbe.
  destruct (rd (readUnsignedNumber uint32_t) d) as [[|Index] d1] eqn:E1;
    pose proof (rd_step valid _ _ _ _ E1) as Hs1;
    apply rd_same in E1 as [Hn1 _].
  { by apply rtc_once. }
  destruct (rd (readUnencodedNumber uint8_t) d1) as [[|Value] d2] eqn:E2;
    pose proof (rd_step valid _ _ _ _ E2) as Hs2;
    apply rd_same in E2 as [Hn2 _]; rewrite Hn1 in Hn2.
  { eapply rtc_l; [exact Hs1|]. by apply rtc_once. }
  destruct (rd (readAddr Value la) d2) as [[|Addr] d3] eqn:E3;
    pose proof (rd_step valid _ _ _ _ E3) as Hs3;
    apply rd_same in E3 as [Hn3 _]; rewrite Hn2 in Hn3.
  { eapply rtc_l; [exact Hs1|]. eapply rtc_l; [exact Hs2|]. by apply rtc_once. }
  cbn [snd].
  eapply rtc_l; [exact Hs1|]. eapply rtc_l; [exact Hs2|]. eapply rtc_l; [exact Hs3|].
  destruct Cur as [cur|]; [|apply rtc_refl].
  apply rtc_once. constructor. intros Hv. destruct (HV Hv) as [Hcur Hroot].
  rewrite Hn3. split; [exact Hcur|congruence].
Qed.

Lemma decodeProbes_steps valid n Cur :
  ∀ la d,
    (valid -> decoder_ok ∅ d ∧ cur_valid (MCPseudoProbeDecoder.Nodes d) Cur ∧
              Cur ≠ Some DummyInlineRoot) ->
    rtc (ParseStep valid) d (decodeProbes n Cur la d).2.
Proof.
  induction n as [|n IH]; intros la d HV; simpl; [apply rtc_refl|].
  pose proof (decodeProbe_steps valid Cur la d) as Hs.
  assert (Hnext : valid ->
            decoder_ok ∅ (decodeProbe Cur la d).2 ∧
            cur_valid (MCPseudoProbeDecoder.Nodes (decodeProbe Cur la d).2) Cur ∧
            Cur ≠ Some DummyInlineRoot).
  { intros Hv. destruct (HV Hv) as (Hok & Hcur & Hroot).
    destruct (decodeProbe_inv ∅ Cur la d Hok Hcur Hroot) as [Hok1 Hv1].
    split; [done|]. split; [|done]. destruct Cur; [|done]. by apply Hv1. }
  destruct (decodeProbe Cur la d) as [[[] la1] d1]; simpl in *.
  - etrans; [apply Hs; intros Hv; by destruct (HV Hv) as (_ & ? & ?)|].
    by apply IH.
  - apply Hs. intros Hv. by destruct (HV Hv) as (_ & ? & ?).
Qed.

Lemma buildAddress2ProbeMap_rec_steps valid (fuel : nat) :
  ∀ Cur la F d b la' d',
    (valid -> decoder_ok ∅ d ∧ cur_valid (MCPseudoProbeDecoder.Nodes d) Cur) ->
    buildAddress2ProbeMap_rec fuel Cur la F d = Some (b, la', d') ->
    rtc (ParseStep valid) d d'.
Proof.
  induction fuel as [|fuel IH]; intros Cur la F d b la' d' HV; [done|].
  cbn [buildAddress2ProbeMap_rec].
  pose proof (enterNode_steps valid Cur F d HV) as Hs0.
  destruct (enterNode Cur F d) as [r d1] eqn:E0. cbn [snd] in Hs0.
  assert (HV1 : valid -> decoder_ok ∅ d1 ∧
            match r with
            | Ok Cur' => cur_valid (MCPseudoProbeDecoder.Nodes d1) Cur' ∧
                         Cur' ≠ Some DummyInlineRoot
            | Err => True
            end).
  { intros Hv. destruct (HV Hv) as [Hok Hcur].
    destruct (enterNode_inv ∅ F Cur d r d1 (or_introl eq_refl) Hok Hcur E0)
      as (Hok1 & _ & Hr). done. }
  destruct r as [|Cur']; [by intros [= <- <- <-]|].
  destruct (rd (readUnsignedNumber uint32_t) d1) as [[|NodeCount] d2] eqn:E1;
    pose proof (rd_step valid _ _ _ _ E1) as Hs1;
    apply rd_same in E1 as [Hn2 Hm2].
  { intros [= <- <- <-]. eapply rtc_r; [exact Hs0|exact Hs1]. }
  destruct (rd (readUnsignedNumber uint32_t) d2) as [[|ChildrenToProcess] d3] eqn:E2;
    pose proof (rd_step valid _ _ _ _ E2) as Hs2;
    apply rd_same in E2 as [Hn3 Hm3]; rewrite Hn2 in Hn3; rewrite Hm2 in Hm3.
  { intros [= <- <- <-]. eapply rtc_r; [|exact Hs2]. eapply rtc_r; [exact Hs0|exact Hs1]. }
  assert (H03 : rtc (ParseStep valid) d d3).
  { eapply rtc_r; [|exact Hs2]. eapply rtc_r; [exact Hs0|exact Hs1]. }
  assert (HV3 : valid -> decoder_ok ∅ d3 ∧
                  cur_valid (MCPseudoProbeDecoder.Nodes d3) Cur' ∧
                  Cur' ≠ Some DummyInlineRoot).
  { intros Hv. destruct (HV1 Hv) as (Hok1 & Hcur1 & Hroot).
    split; [by eapply decoder_ok_same|]. split; [by rewrite Hn3|done]. }
  pose proof (decodeProbes_steps valid (Z.to_nat NodeCount) Cur' la d3 HV3) as Hs4.
  assert (HV4 : valid ->
            decoder_ok ∅ (decodeProbes (Z.to_nat NodeCount) Cur' la d3).2 ∧
            cur_valid (MCPseudoProbeDecoder.Nodes
                         (decodeProbes (Z.to_nat NodeCount) Cur' la d3).2) Cur').
  { intros Hv. destruct (HV3 Hv) as (Hok3 & Hcur3 & Hroot).
    destruct (decodeProbes_inv ∅ (Z.to_nat NodeCount) Cur' Hroot la d3 Hok3 Hcur3)
      as [Hok4 Hv4].
    split; [done|]. destruct Cur'; [|done]. by apply Hv4. }
  destruct (decodeProbes (Z.to_nat NodeCount) Cur' la d3) as [[[] la4] d4];
    simpl in *; cycle 1.
  { intros [= <- <- <-]. by etrans. }
  intros Hloop.
  apply (inlineesLoop_preserves
           (fun d0 => rtc (ParseStep valid) d d0 ∧
                      (valid -> decoder_ok ∅ d0 ∧
                                cur_valid (MCPseudoProbeDecoder.Nodes d0) Cur')))
    in Hloop; [by destruct Hloop| |].
  - intros la0 d0 b0 la0' d0' [Hr0 HV0] Hcall. split.
    + etrans; [exact Hr0|]. by eapply IH.
    + intros Hv. destruct (HV0 Hv) as [Hok0 Hcur0].
      destruct (buildAddress2ProbeMap_rec_inv ∅ F fuel (or_introl eq_refl)
                  Cur' la0 d0 b0 la0' d0' Hok0 Hcur0 Hcall) as [Hok0' Hv0'].
      split; [done|]. destruct Cur'; [|done]. by apply Hv0'.
  - split; [by etrans|done].
Qed.

Lemma topLoop_inv (fuel : nat) :
  ∀ la F d la' d',
    decoder_ok ∅ d -> topLoop fuel la F d = Some (la', d') -> decoder_ok ∅ d'.
Proof.
  induction fuel as [|fuel IH]; intros la F d la' d' Hok; cbn [topLoop];
    destruct (dData d <? dEnd d)%nat; try done; try (by intros [= <- <-]).
  destruct (buildAddress2ProbeMap_rec _ _ _ _ _) as [[[b1 la1] d1]|] eqn:E; [|done].
  apply IH.
  exact (proj1 (buildAddress2ProbeMap_rec_inv ∅ F _ (or_introl eq_refl)
                  (Some DummyInlineRoot) _ _ _ _ _ Hok (proj1 (proj1 Hok)) E)).
Qed.

Lemma topLoop_steps valid (fuel : nat) :
  ∀ la F d la' d',
    (valid -> decoder_ok ∅ d) ->
    topLoop fuel la F d = Some (la', d') -> rtc (ParseStep valid) d d'.
Proof.
  induction fuel as [|fuel IH]; intros la F d la' d' HV; cbn [topLoop];
    destruct (dData d <? dEnd d)%nat; try done; try (by intros [= <- <-]).
  destruct (buildAddress2ProbeMap_rec _ _ _ _ _) as [[[b1 la1] d1]|] eqn:E; [|done].
  intros H. etrans.
  - eapply buildAddress2ProbeMap_rec_steps; [|exact E].
    intros Hv. split; [by apply HV|]. apply (proj1 (proj1 (HV Hv))).
  - eapply IH; [|exact H]. intros Hv.
    exact (proj1 (buildAddress2ProbeMap_rec_inv ∅ F _ (or_introl eq_refl)
                    (Some DummyInlineRoot) _ _ _ _ _ (HV Hv)
                    (proj1 (proj1 (HV Hv))) E)).
Qed.

Lemma setInput_ok Start d : decoder_ok ∅ d -> decoder_ok ∅ (setInput Start d).
Proof. by apply decoder_ok_same. Qed.

Lemma buildAddress2ProbeMap_steps valid fuel Start F d b d' :
  (valid -> decoder_ok ∅ d) ->
  buildAddress2ProbeMap fuel Start F d = Some (b, d') ->
  rtc (ParseStep valid) d d'.
Proof.
  intros HV. unfold buildAddress2ProbeMap.
  destruct (topLoop fuel 0 F (setInput Start d)) as [[la' d1]|] eqn:E; [|done].
  intros [= <- <-]. eapply rtc_l; [apply step_cursor|].
  eapply topLoop_steps; [|exact E]. intros Hv. by apply setInput_ok, HV.
Qed.

Lemma steps_preserve valid (P : Decoder -> Prop) :
  (∀ d d', ParseStep valid d d' -> P d -> P d') ->
  ∀ d d', rtc (ParseStep valid) d d' -> P d -> P d'.
Proof. intros Hstep d d' H. induction H; eauto. Qed.

(** ** What the parse leaves in place *)

Lemma step_descs valid d d' :
  ParseStep valid d d' ->
  MCPseudoProbeDecoder.GUID2FuncDescMap d' = MCPseudoProbeDecoder.GUID2FuncDescMap d.
Proof. by destruct 1. Qed.

(** X7.  The two parsers write different tables.  The descriptor parse
    leaves the forest and the address index as they are, and the probe
    parse leaves the descriptors as they are, whether the parses succeed
    or fail and whatever the filter. *)
Theorem parsers_write_disjoint_tables (Start1 Start2 : list Z) (fuel : nat)
    (F : gset Z) (d d1 d2 : Decoder) (b1 b2 : bool) :
  buildGUID2FuncDescMap Start1 d = Some (b1, d1) ->
  buildAddress2ProbeMap fuel Start2 F d1 = Some (b2, d2) ->
  MCPseudoProbeDecoder.Nodes d1 = MCPseudoProbeDecoder.Nodes d ∧
  MCPseudoProbeDecoder.Address2ProbesMap d1 =
    MCPseudoProbeDecoder.Address2ProbesMap d ∧
  MCPseudoProbeDecoder.GUID2FuncDescMap d2 =
    MCPseudoProbeDecoder.GUID2FuncDescMap d1.
Proof.
  intros H1 H2. unfold buildGUID2FuncDescMap in H1.
  apply descLoop_maps in H1 as (Hn & Hm & _ & _).
  split; [exact Hn|]. split; [exact Hm|].
  apply (buildAddress2ProbeMap_steps False) in H2; [|done].
  apply (steps_preserve False
    (fun d0 => MCPseudoProbeDecoder.GUID2FuncDescMap d0 =
               MCPseudoProbeDecoder.GUID2FuncDescMap d1)) with d1;
    [|exact H2|done].
  intros d0 d0' Hs <-. by apply step_descs in Hs.
Qed.

Lemma grown_refl d : grown d d.
Proof.
  split.
  - intros Addr ps H. exists []. by rewrite app_nil_r.
  - intros id n H. exists n. done.
Qed.

Lemma grown_trans d1 d2 d3 : grown d1 d2 -> grown d2 d3 -> grown d1 d3.
Proof.
  intros [A1 B1] [A2 B2]. split.
  - intros Addr ps H. destruct (A1 _ _ H) as (ps1 & H1).
    destruct (A2 _ _ H1) as (ps2 & H2). exists (ps1 ++ ps2). by rewrite app_assoc.
  - intros id n H. destruct (B1 _ _ H) as (n1 & H1 & I1 & P1 & C1).
    destruct (B2 _ _ H1) as (n2 & H2 & I2 & P2 & C2).
    exists n2. split; [done|]. split; [congruence|]. split; by etrans.
Qed.

Lemma enterChild_old (cur : nat) (Site : InlineSite) (nodes : list DecNode) id n :
  nodes !! id = Some n ->
  ∃ n', enterChild cur Site nodes !! id = Some n' ∧
        MCDecodedPseudoProbeInlineTree.ISite n' =
          MCDecodedPseudoProbeInlineTree.ISite n ∧
        MCDecodedPseudoProbeInlineTree.Probes n' =
          MCDecodedPseudoProbeInlineTree.Probes n ∧
        MCDecodedPseudoProbeInlineTree.Children n ⊆
          MCDecodedPseudoProbeInlineTree.Children n'.
Proof.
  intros Hn.
  destruct (enterChild_cases cur Site nodes)
    as [[_ ->]|[(m & c & Hm & Hc & ->)|(m & Hm & Hc & ->)]].
  - by exists n.
  - destruct (decide (c = id)) as [->|Hne].
    + exists (set_Guid Site.1 (set_Parent cur n)).
      by rewrite !list_lookup_alter_eq, Hn.
    + exists n. by rewrite !list_lookup_alter_ne.
  - pose proof (lookup_lt_Some _ _ _ Hn) as Hlt.
    rewrite lookup_app_l by (by rewrite length_insert).
    destruct (decide (cur = id)) as [->|Hne].
    + exists (add_Child Site (length nodes) n).
      rewrite list_lookup_insert_eq by done.
      assert (m = n) as -> by congruence.
      split; [done|]. split; [done|]. split; [done|]. simpl.
      by apply insert_subseteq.
    + exists n. by rewrite list_lookup_insert_ne.
Qed.

Lemma enterChild_new (cur : nat) (Site : InlineSite) (nodes : list DecNode) id n' :
  enterChild cur Site nodes !! id = Some n' ->
  (∃ n, nodes !! id = Some n ∧
        MCDecodedPseudoProbeInlineTree.ISite n' =
          MCDecodedPseudoProbeInlineTree.ISite n ∧
        MCDecodedPseudoProbeInlineTree.Probes n' =
          MCDecodedPseudoProbeInlineTree.Probes n) ∨
  (id = length nodes ∧
   n' = MCDecodedPseudoProbeInlineTree.mk Site.1 Site (Some cur) ∅ []).
Proof.
  intros Hn'.
  destruct (nodes !! id) as [n|] eqn:Hn.
  - left. exists n. split; [done|].
    destruct (enterChild_old cur Site nodes id n Hn) as (n1 & H1 & HI & HP & _).
    assert (n1 = n') as -> by congruence. done.
  - right.
    destruct (enterChild_cases cur Site nodes)
      as [[_ E]|[(m & c & Hm & Hc & E)|(m & Hm & Hc & E)]]; rewrite E in Hn'.
    + congruence.
    + apply lookup_ge_None in Hn.
      apply lookup_lt_Some in Hn'. rewrite !length_alter in Hn'. lia.
    + apply lookup_ge_None in Hn.
      rewrite lookup_app_r in Hn' by (rewrite length_insert; lia).
      rewrite length_insert in Hn'.
      apply list_lookup_singleton_Some in Hn' as [H0 <-].
      split; [lia|done].
Qed.

Lemma step_grown valid d d' : ParseStep valid d d' -> grown d d'.
Proof.
  destruct 1 as [c d|cur Site d _|cur Addr Index Kind Attr d _].
  - split.
    + intros Addr ps H. exists []. by rewrite app_nil_r.
    + intros id n H. exists n. done.
  - split; [intros Addr ps H; exists []; by rewrite app_nil_r|].
    intros id n Hn.
    destruct (enterChild_old cur Site _ id n Hn) as (n' & H' & HI & HP & HC).
    exists n'. split; [done|]. split; [done|]. split; [by rewrite HP|done].
  - unfold populate, set_nodes, set_probes. split;
      cbn [MCPseudoProbeDecoder.Nodes MCPseudoProbeDecoder.Address2ProbesMap].
    + intros A ps H. destruct (decide (Addr = A)) as [->|Hne].
      * rewrite lookup_insert_eq, H. simpl. by eexists.
      * rewrite lookup_insert_ne by done. exists []. by rewrite app_nil_r.
    + intros id n Hn. destruct (decide (cur = id)) as [->|Hne].
      * eexists. rewrite list_lookup_alter_eq, Hn. split; [done|]. simpl.
        split; [done|]. split; [by apply prefix_app_r|done].
      * exists n. by rewrite list_lookup_alter_ne.
Qed.

(** X8.  A probe-section parse only adds to the tables it finds, whether
    it succeeds or fails: every list of the address index keeps its
    probes in place and grows at its end, and every node of the forest
    keeps its index, its inline site and its children, its list of probes
    growing at its end. *)
Theorem probe_parse_only_adds (fuel : nat) (Start : list Z) (F : gset Z)
    (d d' : Decoder) (b : bool) :
  buildAddress2ProbeMap fuel Start F d = Some (b, d') -> grown d d'.
Proof.
  intros H. apply (buildAddress2ProbeMap_steps False) in H; [|done].
  induction H as [d|d1 d2 d3 Hs _ IH]; [apply grown_refl|].
  eapply grown_trans; [by eapply step_grown|exact IH].
Qed.

(** X9.  Whatever the bytes and the filter, a probe-section parse that
    returns leaves a forest whose links are consistent: every entry of a
    children map designates a node other than the root whose parent link
    points back at the owner of the map; and every probe of the address
    index points at a node of the forest other than the root. *)
Theorem forest_consistent_on_any_input (fuel : nat) (Start : list Z)
    (F : gset Z) (d d' : Decoder) (b : bool) :
  decoder_ok ∅ d ->
  buildAddress2ProbeMap fuel Start F d = Some (b, d') ->
  store_ok (MCPseudoProbeDecoder.Nodes d') ∧
  ∀ Addr ps p,
    MCPseudoProbeDecoder.Address2ProbesMap d' !! Addr = Some ps -> p ∈ ps ->
    MCDecodedPseudoProbe.InlineTree p ≠ DummyInlineRoot ∧
    is_Some (MCPseudoProbeDecoder.Nodes d' !! MCDecodedPseudoProbe.InlineTree p).
Proof.
  intros Hok. unfold buildAddress2ProbeMap.
  destruct (topLoop fuel 0 F (setInput Start d)) as [[la' d1]|] eqn:E; [|done].
  intros [= <- <-].
  apply topLoop_inv in E as (Hs & _ & Hp); [done|by apply setInput_ok].
Qed.

(** ** The address index and the forest point at each other *)

Lemma alter_addProbes_keeps (nodes : list DecNode) (cur : nat) (x y : Z * nat) id n :
  nodes !! id = Some n -> y ∈ MCDecodedPseudoProbeInlineTree.Probes n ->
  ∃ n', alter (addProbes x) cur nodes !! id = Some n' ∧
        y ∈ MCDecodedPseudoProbeInlineTree.Probes n'.
Proof.
  intros Hn Hy. destruct (decide (cur = id)) as [->|Hne].
  - eexists. rewrite list_lookup_alter_eq, Hn. split; [done|]. simpl.
    apply elem_of_app. by left.
  - exists n. by rewrite list_lookup_alter_ne.
Qed.

Lemma insert_append_keeps (m : gmap Z (list MCDecodedPseudoProbe.t)) Addr x A ps i p :
  m !! A = Some ps -> ps !! i = Some p ->
  ∃ ps', <[Addr := default [] (m !! Addr) ++ [x]]> m !! A = Some ps' ∧
         ps' !! i = Some p.
Proof.
  intros Hps Hi. destruct (decide (Addr = A)) as [->|Hne].
  - rewrite lookup_insert_eq, Hps. simpl. eexists. split; [done|].
    by apply lookup_app_l_Some.
  - rewrite lookup_insert_ne by done. eauto.
Qed.

Lemma step_linked d d' : ParseStep True d d' -> index_linked d -> index_linked d'.
Proof.
  destruct 1 as [c d|cur Site d _|cur Addr Index Kind Attr d Hv]; intros [H1 H2].
  - done.
  - split; cbn [set_nodes MCPseudoProbeDecoder.Nodes
                  MCPseudoProbeDecoder.Address2ProbesMap].
    + intros A ps i p Hps Hi. destruct (H1 _ _ _ _ Hps Hi) as (Ha & n & Hn & Hin).
      split; [done|].
      destruct (enterChild_old cur Site _ _ n Hn) as (n' & Hn' & _ & HP & _).
      exists n'. split; [done|]. by rewrite HP.
    + intros id n' A i Hn' Hin.
      destruct (enterChild_new cur Site _ _ _ Hn') as [(n & Hn & _ & HP)|[_ ->]].
      * rewrite HP in Hin. eauto.
      * simpl in Hin. by apply elem_of_nil in Hin.
  - destruct (Hv I) as [[ncur Hcur] _].
    unfold populate, set_nodes, set_probes.
    set (Probes := default [] (MCPseudoProbeDecoder.Address2ProbesMap d !! Addr)).
    set (Probe := MCDecodedPseudoProbe.mk _ _ _ _ _ _).
    split; cbn [MCPseudoProbeDecoder.Nodes MCPseudoProbeDecoder.Address2ProbesMap].
    + intros A ps i p Hps Hi.
      assert (Hold : ∀ ps0, MCPseudoProbeDecoder.Address2ProbesMap d !! A = Some ps0 ->
                ps0 !! i = Some p ->
                MCDecodedPseudoProbe.Address p = A ∧
                ∃ n, alter (addProbes (Addr, length Probes)) cur
                       (MCPseudoProbeDecoder.Nodes d)
                       !! MCDecodedPseudoProbe.InlineTree p = Some n ∧
                     (A, i) ∈ MCDecodedPseudoProbeInlineTree.Probes n).
      { intros ps0 Hps0 Hi0. destruct (H1 _ _ _ _ Hps0 Hi0) as (Ha & n & Hn & Hin).
        split; [done|]. by eapply alter_addProbes_keeps. }
      apply lookup_insert_Some in Hps as [[<- <-]|[_ Hps]]; [|by eapply Hold].
      apply lookup_app_Some in Hi as [Hi|[Hge Hi]].
      * unfold Probes in Hi.
        destruct (MCPseudoProbeDecoder.Address2ProbesMap d !! Addr) as [ps0|] eqn:E;
          simpl in Hi; [by eapply Hold|done].
      * apply list_lookup_singleton_Some in Hi as [Hi <-].
        split; [done|]. exists (addProbes (Addr, length Probes) ncur).
        cbn [MCDecodedPseudoProbe.InlineTree Probe].
        rewrite list_lookup_alter_eq, Hcur. split; [done|]. simpl.
        apply elem_of_app. right. apply list_elem_of_singleton.
        f_equal. lia.
    + intros id n' A i Hn' Hin.
      assert (Hold : ∀ n, MCPseudoProbeDecoder.Nodes d !! id = Some n ->
                (A, i) ∈ MCDecodedPseudoProbeInlineTree.Probes n ->
                ∃ ps p,
                  <[Addr := Probes ++ [Probe]]>
                    (MCPseudoProbeDecoder.Address2ProbesMap d) !! A = Some ps ∧
                  ps !! i = Some p ∧ MCDecodedPseudoProbe.InlineTree p = id).
      { intros n Hn Hin0. destruct (H2 _ _ _ _ Hn Hin0) as (ps & p & Hps & Hi & Hp).
        destruct (insert_append_keeps _ Addr Probe _ _ _ _ Hps Hi) as (ps' & E & Hi').
        exists ps', p. done. }
      destruct (decide (cur = id)) as [->|Hne].
      * rewrite list_lookup_alter_eq, Hcur in Hn'. injection Hn' as <-.
        simpl in Hin. apply elem_of_app in Hin as [Hin|Hin]; [by eapply Hold|].
        apply list_elem_of_singleton in Hin. injection Hin as -> ->.
        exists (Probes ++ [Probe]), Probe. rewrite lookup_insert_eq.
        split; [done|]. split; [|done]. by apply list_lookup_middle.
      * rewrite list_lookup_alter_ne in Hn' by done. by eapply Hold.
Qed.

Lemma freshDecoder_linked : index_linked freshDecoder.
Proof.
  split.
  - intros Addr ps i p H. simpl in H. by rewrite lookup_empty in H.
  - intros id n Addr i Hn Hin. destruct id as [|id]; simpl in Hn; [|done].
    injection Hn as <-. simpl in Hin. by apply elem_of_nil in Hin.
Qed.

(** X10.  After a probe-section parse the address index and the forest
    still point at each other, whatever the bytes and the filter: every
    probe of the index is filed under its own address and is listed, by
    its address and its position, by the node it points at; and every
    entry of a node's list designates a probe of the index that points
    back at that node. *)
Theorem index_and_forest_agree (fuel : nat) (Start : list Z) (F : gset Z)
    (d d' : Decoder) (b : bool) :
  decoder_ok ∅ d -> index_linked d ->
  buildAddress2ProbeMap fuel Start F d = Some (b, d') ->
  index_linked d'.
Proof.
  intros Hok Hl H. apply (buildAddress2ProbeMap_steps True) in H; [|done].
  by apply (steps_preserve True index_linked step_linked d d').
Qed.

(** ** GUIDs of the nodes and of the probes *)

Lemma enterChild_guids (cur : nat) (Site : InlineSite) (nodes : list DecNode) :
  (∀ id n S c,
     nodes !! id = Some n ->
     MCDecodedPseudoProbeInlineTree.Children n !! S = Some c ->
     ∃ nc, nodes !! c = Some nc ∧ MCDecodedPseudoProbeInlineTree.ISite nc = S) ->
  (∀ id n, nodes !! id = Some n ->
           MCDecodedPseudoProbeInlineTree.Guid n =
             (MCDecodedPseudoProbeInlineTree.ISite n).1) ->
  (∀ id n, nodes !! id = Some n ->
     ∃ n', enterChild cur Site nodes !! id = Some n' ∧
           MCDecodedPseudoProbeInlineTree.Guid n' =
             MCDecodedPseudoProbeInlineTree.Guid n ∧
           MCDecodedPseudoProbeInlineTree.ISite n' =
             MCDecodedPseudoProbeInlineTree.ISite n) ∧
  (∀ id n', enterChild cur Site nodes !! id = Some n' ->
     (∃ n, nodes !! id = Some n ∧
           MCDecodedPseudoProbeInlineTree.Guid n' =
             MCDecodedPseudoProbeInlineTree.Guid n ∧
           MCDecodedPseudoProbeInlineTree.ISite n' =
             MCDecodedPseudoProbeInlineTree.ISite n ∧
           (MCDecodedPseudoProbeInlineTree.Children n' =
              MCDecodedPseudoProbeInlineTree.Children n ∨
            MCDecodedPseudoProbeInlineTree.Children n' =
              <[Site := length nodes]> (MCDecodedPseudoProbeInlineTree.Children n) ∧
            enterChild cur Site nodes !! length nodes =
              Some (MCDecodedPseudoProbeInlineTree.mk Site.1 Site (Some cur) ∅ []))) ∨
     n' = MCDecodedPseudoProbeInlineTree.mk Site.1 Site (Some cur) ∅ []).
Proof.
  intros Hkey Hguid.
  destruct (enterChild_cases cur Site nodes)
    as [[_ ->]|[(m & c & Hm & Hc & ->)|(m & Hm & Hc & ->)]].
  - split; [by eauto|]. intros id n' Hn'. left. exists n'. auto.
  - destruct (Hkey _ _ _ _ Hm Hc) as (nc & Hnc & Hs).
    pose proof (Hguid _ _ Hnc) as Hg. rewrite Hs in Hg.
    assert (Hlk : ∀ id, alter (set_Guid Site.1) c (alter (set_Parent cur) c nodes) !! id =
                    if decide (c = id) then Some (set_Guid Site.1 (set_Parent cur nc))
                    else nodes !! id).
    { intros id. destruct (decide (c = id)) as [<-|Hne].
      - by rewrite !list_lookup_alter_eq, Hnc.
      - by rewrite !list_lookup_alter_ne. }
    split.
    + intros id n Hn. rewrite Hlk. destruct (decide (c = id)) as [<-|Hne]; [|by eauto].
      assert (n = nc) as -> by congruence. eexists. split; [done|]. simpl.
      split; [by rewrite Hg|done].
    + intros id n' Hn'. rewrite Hlk in Hn'. left.
      destruct (decide (c = id)) as [<-|Hne]; [|by exists n'; auto].
      injection Hn' as <-. exists nc. simpl. rewrite Hg. auto.
  - set (new := MCDecodedPseudoProbeInlineTree.mk Site.1 Site (Some cur) ∅ []).
    pose proof (lookup_lt_Some _ _ _ Hm) as Hlt.
    assert (Hnew : (<[cur:=add_Child Site (length nodes) m]> nodes ++ [new])
                     !! length nodes = Some new).
    { rewrite lookup_app_r by (rewrite length_insert; lia).
      by rewrite length_insert, Nat.sub_diag. }
    assert (Hlk : ∀ id, (id < length nodes)%nat ->
              (<[cur:=add_Child Site (length nodes) m]> nodes ++ [new]) !! id =
              if decide (cur = id) then Some (add_Child Site (length nodes) m)
              else nodes !! id).
    { intros id Hid. rewrite lookup_app_l by (by rewrite length_insert).
      destruct (decide (cur = id)) as [<-|Hne].
      - by rewrite list_lookup_insert_eq.
      - by rewrite list_lookup_insert_ne. }
    split.
    + intros id n Hn. rewrite Hlk by (by eapply lookup_lt_Some).
      destruct (decide (cur = id)) as [<-|Hne]; [|by eauto].
      assert (n = m) as -> by congruence. eexists. split; [done|]. done.
    + intros id n' Hn'.
      destruct (decide (id < length nodes)%nat) as [Hid|Hid].
      * rewrite Hlk in Hn' by done. left.
        destruct (decide (cur = id)) as [<-|Hne]; [|by exists n'; auto].
        injection Hn' as <-. exists m. simpl.
        split; [done|]. split; [done|]. split; [done|]. right. done.
      * right. rewrite lookup_app_r in Hn' by (rewrite length_insert; lia).
        rewrite length_insert in Hn'.
        by apply list_lookup_singleton_Some in Hn' as [_ <-].
Qed.

Lemma step_guids d d' : ParseStep True d d' -> guids_agree d -> guids_agree d'.
Proof.
  destruct 1 as [c d|cur Site d _|cur Addr Index Kind Attr d Hv];
    intros (Hkey & Hguid & Hprobe).
  - done.
  - destruct (enterChild_guids cur Site _ Hkey Hguid) as [Hold Horigin].
    split; [|split]; cbn [set_nodes MCPseudoProbeDecoder.Nodes
                            MCPseudoProbeDecoder.Address2ProbesMap].
    + intros id n' S c Hn' Hc.
      assert (Hfrom : ∀ n, MCPseudoProbeDecoder.Nodes d !! id = Some n ->
                MCDecodedPseudoProbeInlineTree.Children n !! S = Some c ->
                ∃ nc, enterChild cur Site (MCPseudoProbeDecoder.Nodes d) !! c = Some nc ∧
                      MCDecodedPseudoProbeInlineTree.ISite nc = S).
      { intros n Hn Hcn. destruct (Hkey _ _ _ _ Hn Hcn) as (nc & Hnc & Hs).
        destruct (Hold _ _ Hnc) as (nc' & Hnc' & _ & Hs').
        exists nc'. split; [done|congruence]. }
      destruct (Horigin _ _ Hn') as [(n & Hn & _ & _ & [HC|[HC Hnew]])| ->].
      * rewrite HC in Hc. by eapply Hfrom.
      * rewrite HC in Hc. apply lookup_insert_Some in Hc as [[<- <-]|[_ Hc]].
        -- eexists. split; [exact Hnew|done].
        -- by eapply Hfrom.
      * simpl in Hc. by rewrite lookup_empty in Hc.
    + intros id n' Hn'.
      destruct (Horigin _ _ Hn') as [(n & Hn & Hg & Hs & _)| ->]; [|done].
      rewrite Hg, Hs. by eapply Hguid.
    + intros A ps p Hps Hp. destruct (Hprobe _ _ _ Hps Hp) as (n & Hn & Hg).
      destruct (Hold _ _ Hn) as (n' & Hn' & Hg' & _).
      exists n'. split; [done|congruence].
  - destruct (Hv I) as [[ncur Hcur] _].
    unfold populate, set_nodes, set_probes.
    set (Probes := default [] (MCPseudoProbeDecoder.Address2ProbesMap d !! Addr)).
    assert (Hlk : ∀ id n, MCPseudoProbeDecoder.Nodes d !! id = Some n ->
              ∃ n', alter (addProbes (Addr, length Probes)) cur
                      (MCPseudoProbeDecoder.Nodes d) !! id = Some n' ∧
                    MCDecodedPseudoProbeInlineTree.Guid n' =
                      MCDecodedPseudoProbeInlineTree.Guid n ∧
                    MCDecodedPseudoProbeInlineTree.ISite n' =
                      MCDecodedPseudoProbeInlineTree.ISite n ∧
                    MCDecodedPseudoProbeInlineTree.Children n' =
                      MCDecodedPseudoProbeInlineTree.Children n).
    { intros id n Hn. destruct (decide (cur = id)) as [->|Hne].
      - eexists. by rewrite list_lookup_alter_eq, Hn.
      - exists n. by rewrite list_lookup_alter_ne. }
    assert (Hback : ∀ id n', alter (addProbes (Addr, length Probes)) cur
                      (MCPseudoProbeDecoder.Nodes d) !! id = Some n' ->
              ∃ n, MCPseudoProbeDecoder.Nodes d !! id = Some n ∧
                   MCDecodedPseudoProbeInlineTree.Guid n' =
                     MCDecodedPseudoProbeInlineTree.Guid n ∧
                   MCDecodedPseudoProbeInlineTree.ISite n' =
                     MCDecodedPseudoProbeInlineTree.ISite n ∧
                   MCDecodedPseudoProbeInlineTree.Children n' =
                     MCDecodedPseudoProbeInlineTree.Children n).
    { intros id n' Hn'.
      destruct (MCPseudoProbeDecoder.Nodes d !! id) as [n|] eqn:Hn.
      - destruct (Hlk _ _ Hn) as (n1 & Hn1 & ?). exists n.
        assert (n1 = n') as -> by congruence. done.
      - apply lookup_ge_None in Hn. apply lookup_lt_Some in Hn'.
        rewrite length_alter in Hn'. lia. }
    split; [|split]; cbn [MCPseudoProbeDecoder.Nodes
                            MCPseudoProbeDecoder.Address2ProbesMap].
    + intros id n' S c Hn' Hc.
      destruct (Hback _ _ Hn') as (n & Hn & _ & _ & HC). rewrite HC in Hc.
      destruct (Hkey _ _ _ _ Hn Hc) as (nc & Hnc & Hs).
      destruct (Hlk _ _ Hnc) as (nc' & Hnc' & _ & Hs' & _).
      exists nc'. split; [done|congruence].
    + intros id n' Hn'. destruct (Hback _ _ Hn') as (n & Hn & Hg & Hs & _).
      rewrite Hg, Hs. by eapply Hguid.
    + intros A ps p Hps Hp.
      assert (Hfrom : ∀ ps0, MCPseudoProbeDecoder.Address2ProbesMap d !! A = Some ps0 ->
                p ∈ ps0 ->
                ∃ n, alter (addProbes (Addr, length Probes)) cur
                       (MCPseudoProbeDecoder.Nodes d)
                       !! MCDecodedPseudoProbe.InlineTree p = Some n ∧
                     MCDecodedPseudoProbe.Guid p =
                       MCDecodedPseudoProbeInlineTree.Guid n).
      { intros ps0 Hps0 Hp0. destruct (Hprobe _ _ _ Hps0 Hp0) as (n & Hn & Hg).
        destruct (Hlk _ _ Hn) as (n' & Hn' & Hg' & _).
        exists n'. split; [done|congruence]. }
      apply lookup_insert_Some in Hps as [[<- <-]|[_ Hps]]; [|by eapply Hfrom].
      apply elem_of_app in Hp as [Hp|Hp].
      * unfold Probes in Hp.
        destruct (MCPseudoProbeDecoder.Address2ProbesMap d !! Addr) as [ps0|] eqn:E;
          simpl in Hp; [by eapply Hfrom|by apply elem_of_nil in Hp].
      * apply list_elem_of_singleton in Hp as ->.
        cbn [MCDecodedPseudoProbe.InlineTree MCDecodedPseudoProbe.Guid].
        destruct (Hlk _ _ Hcur) as (n' & Hn' & Hg' & _).
        exists n'. split; [done|]. unfold nodeGuid. by rewrite Hcur, Hg'.
Qed.

Lemma freshDecoder_guids : guids_agree freshDecoder.
Proof.
  split; [|split].
  - intros id n Site c Hn Hc. destruct id as [|id]; simpl in Hn; [|done].
    injection Hn as <-. simpl in Hc. by rewrite lookup_empty in Hc.
  - intros id n Hn. destruct id as [|id]; simpl in Hn; [|done].
    by injection Hn as <-.
  - intros Addr ps p H. simpl in H. by rewrite lookup_empty in H.
Qed.

(** X11.  After a probe-section parse the GUIDs still agree, whatever the
    bytes and the filter: every child is filed in its parent's map under
    its own inline site, the GUID of every node is the GUID of its inline
    site, and the GUID recorded in a probe is the GUID of the node the
    probe points at. *)
Theorem decoded_guids_agree (fuel : nat) (Start : list Z) (F : gset Z)
    (d d' : Decoder) (b : bool) :
  decoder_ok ∅ d -> guids_agree d ->
  buildAddress2ProbeMap fuel Start F d = Some (b, d') ->
  guids_agree d'.
Proof.
  intros Hok Hg H. apply (buildAddress2ProbeMap_steps True) in H; [|done].
  by apply (steps_preserve True guids_agree step_guids d d').
Qed.

(** ** Queries on the decoded tables *)

Lemma callLoop_last (Probes : list MCDecodedPseudoProbe.t) :
  ∀ CallProbe,
    foldl (fun CallProbe Probe => if isCall Probe then Some Probe else CallProbe)
          CallProbe Probes =
    match last (List.filter isCall Probes) with
    | Some Probe => Some Probe
    | None => CallProbe
    end.
Proof.
  induction Probes as [|p ps IH]; intros acc; [done|].
  cbn [foldl List.filter]. rewrite IH. destruct (isCall p); [|done].
  rewrite last_cons. by destruct (last (List.filter isCall ps)).
Qed.

(** X12.  [getCallProbeForAddr] returns the null pointer for an address
    that the index does not hold and for an address none of whose probes
    is a call probe.  Otherwise it returns a call probe filed under the
    address: the last one in the list, which is the only one when the
    list holds a single call probe, as the assertion demands. *)
Theorem call_probe_for_address (d : Decoder) (Address : Z) :
  (MCPseudoProbeDecoder.Address2ProbesMap d !! Address = None ->
   getCallProbeForAddr d Address = None) ∧
  (∀ Probes,
     MCPseudoProbeDecoder.Address2ProbesMap d !! Address = Some Probes ->
     (getCallProbeForAddr d Address = None ↔
      Forall (fun Probe => isCall Probe = false) Probes) ∧
     (∀ Probe, getCallProbeForAddr d Address = Some Probe ->
               isCall Probe = true ∧ Probe ∈ Probes) ∧
     (∀ before Probe after,
        Probes = before ++ Probe :: after -> isCall Probe = true ->
        Forall (fun Probe => isCall Probe = false) after ->
        getCallProbeForAddr d Address = Some Probe)).
Proof.
  unfold getCallProbeForAddr. split; [by intros ->|].
  intros Probes ->. rewrite callLoop_last.
  split; [|split].
  - destruct (last (List.filter isCall Probes)) as [p|] eqn:E.
    + split; [done|]. intros Hall.
      apply last_Some_elem_of, list_elem_of_In, List.filter_In in E as [Hin Hc].
      apply list_elem_of_In in Hin.
      rewrite Forall_forall in Hall. rewrite (Hall _ Hin) in Hc. done.
    + split; [|done]. intros _. apply Forall_forall. intros p Hp.
      destruct (isCall p) eqn:Hc; [|done].
      assert (Hin : p ∈ List.filter isCall Probes).
      { apply list_elem_of_In, List.filter_In. split; [by apply list_elem_of_In|done]. }
      apply last_None in E. rewrite E in Hin. by apply elem_of_nil in Hin.
  - intros p Hp.
    destruct (last (List.filter isCall Probes)) as [q|] eqn:E; [|done].
    injection Hp as ->.
    apply last_Some_elem_of, list_elem_of_In, List.filter_In in E as [Hin Hc].
    by apply list_elem_of_In in Hin.
  - intros before p after -> Hc Hafter.
    rewrite List.filter_app. cbn [List.filter]. rewrite Hc.
    assert (List.filter isCall after = []) as ->.
    { induction Hafter as [|q qs Hq _ IH]; [done|]. simpl. by rewrite Hq. }
    by rewrite last_snoc.
Qed.

Lemma getInlineContext_walk fuel nodes Probe GUID2FuncMAP frames :
  ContextWalk nodes GUID2FuncMAP (MCDecodedPseudoProbe.InlineTree Probe) frames ->
  (length frames <= fuel)%nat ->
  getInlineContext fuel nodes Probe [] GUID2FuncMAP = Some (reverse frames).
Proof.
  intros Hw Hf. unfold getInlineContext.
  rewrite (inlineContextLoop_walk _ _ _ _ Hw fuel [] Hf). done.
Qed.

(** X13.  [getInlinerDescForProbe] returns the null pointer exactly for a
    probe whose inline context is empty.  Otherwise it returns the
    descriptor of the innermost caller: the function named in the last
    frame of the context that [getInlineContextForProbe] builds for the
    probe without its leaf. *)
Theorem inliner_is_innermost_caller (fuel : nat) (d : Decoder)
    (Probe : MCDecodedPseudoProbe.t) (frames : list Frame) :
  ContextWalk (MCPseudoProbeDecoder.Nodes d)
    (MCPseudoProbeDecoder.GUID2FuncDescMap d)
    (MCDecodedPseudoProbe.InlineTree Probe) frames ->
  (length frames <= fuel)%nat ->
  ∃ InlineContextStack,
    getInlineContextForProbe fuel d Probe [] false = Some InlineContextStack ∧
    match last InlineContextStack with
    | None => getInlinerDescForProbe d Probe = Some None
    | Some Caller =>
        ∃ FuncDesc,
          getInlinerDescForProbe d Probe = Some (Some FuncDesc) ∧
          MCPseudoProbeFuncDesc.FuncName FuncDesc = Caller.1
    end.
Proof.
  intros Hw Hf. exists (reverse frames). split.
  { unfold getInlineContextForProbe.
    by rewrite (getInlineContext_walk _ _ _ _ _ Hw Hf). }
  rewrite last_reverse. unfold getInlinerDescForProbe, getFuncDescForGUID.
  destruct Hw as [id Hno|id n p pn FuncDesc rest Hyes Hn Hp Hpn Hdesc _]; simpl.
  - by rewrite Hno.
  - rewrite Hyes. simpl. rewrite Hn. simpl. rewrite Hp. simpl. rewrite Hpn. simpl.
    rewrite Hdesc. simpl. by exists FuncDesc.
Qed.

Lemma contextStrLoop_cons (Cxt : Frame) (rest : list Frame) (OContextStr : list Z) :
  contextStrLoop (Cxt :: rest) OContextStr =
  contextStrLoop rest
    ((if (0 <? length OContextStr)%nat
      then OContextStr ++ [32; 64; 32] else OContextStr) ++ showFrame Cxt).
Proof. done. Qed.

Lemma contextStrLoop_from (ContextStack : list Frame) :
  ∀ OContextStr, OContextStr ≠ [] ->
    contextStrLoop ContextStack OContextStr =
    OContextStr ++ concat (map (fun part => [32; 64; 32] ++ part)
                               (map showFrame ContextStack)).
Proof.
  induction ContextStack as [|Cxt rest IH]; intros acc Hacc.
  { simpl. by rewrite app_nil_r. }
  rewrite contextStrLoop_cons. destruct acc as [|a acc]; [done|].
  change (0 <? length (a :: acc))%nat with true. cbv iota.
  rewrite IH by done. cbn [map concat]. by rewrite <- !app_assoc.
Qed.

(** X14.  The inline context string of a probe is made of its frames in
    caller to callee order, each written as the name, a colon and the
    index, with " @ " between two frames and nowhere else.  It is empty
    exactly when the probe has no inline context. *)
Theorem inline_context_string (fuel : nat) (nodes : list DecNode)
    (Probe : MCDecodedPseudoProbe.t)
    (GUID2FuncMAP : gmap Z MCPseudoProbeFuncDesc.t) (frames : list Frame) :
  ContextWalk nodes GUID2FuncMAP (MCDecodedPseudoProbe.InlineTree Probe) frames ->
  (length frames <= fuel)%nat ->
  getInlineContextStr fuel nodes Probe GUID2FuncMAP =
    Some (joinWith [32; 64; 32] (map showFrame (reverse frames))) ∧
  (joinWith [32; 64; 32] (map showFrame (reverse frames)) = [] ↔ frames = []).
Proof.
  intros Hw Hf. unfold getInlineContextStr.
  rewrite (getInlineContext_walk _ _ _ _ _ Hw Hf). simpl. split.
  - f_equal. destruct (reverse frames) as [|Cxt rest]; [done|].
    rewrite contextStrLoop_cons. change (0 <? length [])%nat with false. cbv iota.
    rewrite contextStrLoop_from; [done|].
    unfold showFrame. by destruct Cxt.1.
  - destruct frames as [|f rest] using rev_ind; [done|].
    rewrite reverse_snoc. simpl. split; [|by destruct rest].
    unfold showFrame. destruct f.1; done.
Qed.

(** ** The emitted stream does not depend on the iteration order *)

Lemma sorted_perm_eq {V : Type} (l1 : list (InlineSite * V)) :
  ∀ l2,
    StronglySorted site_before l1.*1 -> StronglySorted site_before l2.*1 ->
    l1 ≡ₚ l2 -> l1 = l2.
Proof.
  induction l1 as [|x1 l1 IH]; intros [|x2 l2] S1 S2 E.
  - done.
  - by apply Permutation_nil_cons in E.
  - symmetry in E. by apply Permutation_nil_cons in E.
  - simpl in S1, S2.
    apply StronglySorted_cons in S1 as [F1 S1].
    apply StronglySorted_cons in S2 as [F2 S2].
    rewrite Forall_forall in F1, F2.
    assert (x1 = x2) as ->.
    { assert (H2 : x2 ∈ x1 :: l1) by (rewrite E; left).
      assert (H1 : x1 ∈ x2 :: l2) by (rewrite <- E; left).
      apply elem_of_cons in H1 as [H1|H1]; [done|].
      apply elem_of_cons in H2 as [H2|H2]; [done|].
      assert (B1 : site_before x1.1 x2.1).
      { apply F1. apply list_elem_of_fmap. by exists x2. }
      assert (B2 : site_before x2.1 x1.1).
      { apply F2. apply list_elem_of_fmap. by exists x1. }
      unfold site_before in B1, B2. lia. }
    f_equal. apply IH; [done|done|]. by apply (inj (x2 ::.)).
Qed.

Lemma Inlinees_perm {V : Type} (Children1 Children2 : list (InlineSite * V)) :
  NoDup Children1.*1 -> Children1 ≡ₚ Children2 ->
  Inlinees Children1 = Inlinees Children2.
Proof.
  intros Hnd Hp.
  assert (Hnd2 : NoDup Children2.*1) by (by rewrite <- Hp).
  destruct (Inlinees_from Children1 [] (SSorted_nil _)) as [S1 P1].
  destruct (Inlinees_from Children2 [] (SSorted_nil _)) as [S2 P2].
  apply sorted_perm_eq; [exact S1|exact S2|].
  unfold Inlinees. rewrite (P1 Hnd), (P2 Hnd2). exact Hp.
Qed.

(** X15.  The calls that [emit] makes for a node do not depend on the
    order in which the unordered map [Children] hands out its entries:
    two listings of the same children, under distinct inline sites, give
    the same calls and the same [LastProbe]. *)
Theorem emit_independent_of_iteration_order (Guid : Z)
    (Probes : list MCPseudoProbe.t)
    (Children1 Children2 : list (InlineSite * MCPseudoProbeInlineTree))
    (LastProbe : option MCPseudoProbe.t) :
  NoDup Children1.*1 -> Children1 ≡ₚ Children2 ->
  MCPseudoProbeInlineTree_emit (Node Guid Probes Children1) LastProbe =
  MCPseudoProbeInlineTree_emit (Node Guid Probes Children2) LastProbe.
Proof.
  intros Hnd Hp. rewrite !MCPseudoProbeInlineTree_emit_proj.
  rewrite (Inlinees_perm _ _ Hnd Hp). by rewrite Hp.
Qed.

(** ** Trees built by [addPseudoProbe] *)

Lemma tree_wf_eq Guid Probes Children :
  tree_wf (Node Guid Probes Children) ↔
  NoDup Children.*1 ∧
  Forall (fun Child => tree_Guid Child.2 = Child.1.1 ∧ tree_wf Child.2) Children.
Proof.
  cbn [tree_wf].
  assert (H : foldr (fun Child rest =>
                       (tree_Guid Child.2 = Child.1.1 ∧ tree_wf Child.2) ∧ rest)
                    True Children ↔
              Forall (fun Child => tree_Guid Child.2 = Child.1.1 ∧ tree_wf Child.2)
                     Children).
  { induction Children as [|c cs IH]; simpl.
    - split; [by constructor|done].
    - rewrite Forall_cons, IH. done. }
  by rewrite H.
Qed.

Lemma withChild_keys Site f Children :
  (withChild Site f Children).*1 = Children.*1 ∨
  ((Site ∉ Children.*1) ∧ (withChild Site f Children).*1 = Children.*1 ++ [Site]).
Proof.
  induction Children as [|[k c] cs IH]; csimpl.
  { right. split; [apply not_elem_of_nil|done]. }
  destruct (decide (k = Site)) as [->|Hne]; csimpl; [by left|].
  destruct IH as [->|[Hn ->]]; [by left|]. right. split; [|done].
  intros H. apply elem_of_cons in H as [->|H]; done.
Qed.

Lemma withChild_NoDup Site f Children :
  NoDup Children.*1 -> NoDup (withChild Site f Children).*1.
Proof.
  intros H. destruct (withChild_keys Site f Children) as [->|[Hn ->]]; [done|].
  apply NoDup_app. split; [done|]. split; [|apply NoDup_singleton].
  intros x Hx Hs. apply list_elem_of_singleton in Hs as ->. done.
Qed.

Lemma withChild_Forall (P : InlineSite * MCPseudoProbeInlineTree -> Prop)
    Site f Children :
  Forall P Children ->
  (∀ c, P (Site, c) -> P (Site, f c)) ->
  P (Site, f (Node Site.1 [] [])) ->
  Forall P (withChild Site f Children).
Proof.
  intros Hall Hf Hnew. induction Hall as [|[k c] cs Hc Hcs IH]; simpl.
  { by constructor. }
  destruct (decide (k = Site)) as [->|Hne]; constructor; auto.
Qed.

Lemma addAlong_wf (Probe : MCPseudoProbe.t) (edges : list InlineSite) :
  ∀ t, tree_wf t ->
    tree_wf (addAlong edges Probe t) ∧
    tree_Guid (addAlong edges Probe t) = tree_Guid t.
Proof.
  induction edges as [|Site rest IH]; intros [g ps cs] Hwf.
  { cbn [addAlong push_back]. split; [|done].
    apply (proj2 (tree_wf_eq _ _ _)). by apply (proj1 (tree_wf_eq _ _ _)) in Hwf. }
  cbn [addAlong getOrAddNode]. split; [|done].
  apply (proj1 (tree_wf_eq _ _ _)) in Hwf as [Hnd Hall].
  apply (proj2 (tree_wf_eq _ _ _)). split.
  - by apply withChild_NoDup.
  - apply withChild_Forall; [done| |].
    + intros c [Hg Hc]. simpl in *. destruct (IH c Hc) as [Hw' Hg'].
      split; [congruence|done].
    + simpl. destruct (IH (Node Site.1 [] [])) as [Hw' Hg'].
      { apply (proj2 (tree_wf_eq _ _ _)). split; [apply NoDup_nil_2|constructor]. }
      done.
Qed.

(** X16.  [addPseudoProbe] keeps a tree well formed: at every node the
    inline sites of the children stay distinct and every child carries
    the GUID of the site it is filed under.  The node it is called on
    keeps its GUID and receives no probe, so that the root of a tree
    filled by [addPseudoProbe] has no probes when [emit] checks it. *)
Theorem addPseudoProbe_keeps_tree_wellformed (Probe : MCPseudoProbe.t)
    (InlineStack : list InlineSite) (t : MCPseudoProbeInlineTree) :
  tree_wf t ->
  tree_wf (addPseudoProbe Probe InlineStack t) ∧
  tree_Guid (addPseudoProbe Probe InlineStack t) = tree_Guid t ∧
  tree_Probes (addPseudoProbe Probe InlineStack t) = tree_Probes t.
Proof.
  intros Hwf. unfold addPseudoProbe.
  destruct (addAlong_wf Probe (probeEdges Probe InlineStack) t Hwf) as [H1 H2].
  split; [done|]. split; [done|].
  destruct t as [g ps cs]. by destruct InlineStack.
Qed.

(** ** The probes that reach the stream *)

Lemma concat_map_perm {A B : Type} (f : A -> list B) (l l' : list A) :
  l ≡ₚ l' -> concat (map f l) ≡ₚ concat (map f l').
Proof.
  induction 1 as [|x l l' _ IH|x y l|l l' l'' _ IH1 _ IH2]; simpl.
  - done.
  - by rewrite IH.
  - rewrite !app_assoc. by rewrite (Permutation_app_comm (f y) (f x)).
  - by etrans.
Qed.

Lemma emittedProbes_perm Guid Probes Children :
  NoDup Children.*1 ->
  emittedProbes (Node Guid Probes Children) ≡ₚ
  (if Guid =? 0 then [] else Probes) ++
  concat (map (fun c => emittedProbes c.2) Children).
Proof.
  intros Hnd. rewrite emittedProbes_eq.
  destruct (Inlinees_from Children [] (SSorted_nil _)) as [_ HP].
  apply Permutation_app_head, concat_map_perm, (HP Hnd).
Qed.

Lemma withChild_concat {A : Type} (g : MCPseudoProbeInlineTree -> list A)
    Site f Children (X : list A) :
  (∀ c, (Site, c) ∈ Children -> g (f c) ≡ₚ X ++ g c) ->
  g (f (Node Site.1 [] [])) ≡ₚ X ->
  concat (map (fun c => g c.2) (withChild Site f Children)) ≡ₚ
  X ++ concat (map (fun c => g c.2) Children).
Proof.
  intros Hf Hnew. induction Children as [|[k c] cs IH]; simpl.
  { by rewrite !app_nil_r. }
  destruct (decide (k = Site)) as [->|Hne]; simpl.
  - rewrite Hf by left. by rewrite app_assoc.
  - rewrite IH by (intros c' Hc'; apply Hf; by right).
    rewrite !app_assoc. by rewrite (Permutation_app_comm (g c) X).
Qed.

Lemma targetGuid_cons Site rest c :
  tree_Guid c = Site.1 -> targetGuid rest c = targetGuid (Site :: rest) c.
Proof.
  intros Hg. unfold targetGuid. destruct rest as [|e rest]; [done|].
  by rewrite last_cons_cons.
Qed.

Lemma targetGuid_irrelevant Site rest c c' :
  targetGuid (Site :: rest) c = targetGuid (Site :: rest) c'.
Proof.
  unfold targetGuid. destruct (last (Site :: rest)) eqn:E; [done|].
  by apply last_None in E.
Qed.

Lemma addAlong_emitted (Probe : MCPseudoProbe.t) (edges : list InlineSite) :
  ∀ t, tree_wf t ->
    emittedProbes (addAlong edges Probe t) ≡ₚ
    (if targetGuid edges t =? 0 then [] else [Probe]) ++ emittedProbes t.
Proof.
  induction edges as [|Site rest IH]; intros [g ps cs] Hwf.
  { cbn [addAlong push_back]. unfold targetGuid. cbn [last tree_Guid].
    rewrite !emittedProbes_eq. destruct (g =? 0); [done|].
    simpl. rewrite <- !app_assoc. simpl.
    by rewrite <- Permutation_middle. }
  cbn [addAlong getOrAddNode].
  pose proof (proj1 (tree_wf_eq _ _ _) Hwf) as [Hnd Hall].
  rewrite !emittedProbes_perm by (try apply withChild_NoDup; done).
  set (X := if targetGuid (Site :: rest) (Node g ps cs) =? 0 then [] else [Probe]).
  rewrite (withChild_concat emittedProbes Site (addAlong rest Probe) cs X).
  - rewrite !app_assoc.
    by rewrite (Permutation_app_comm (if g =? 0 then [] else ps) X).
  - intros c Hc. rewrite Forall_forall in Hall.
    destruct (Hall _ Hc) as [Hg Hc']. simpl in Hg, Hc'.
    rewrite (IH c Hc'). rewrite (targetGuid_cons Site rest c Hg).
    unfold X. by rewrite (targetGuid_irrelevant Site rest c (Node g ps cs)).
  - rewrite (IH (Node Site.1 [] [])).
    + rewrite (targetGuid_cons Site rest (Node Site.1 [] []) eq_refl).
      unfold X.
      rewrite (targetGuid_irrelevant Site rest (Node Site.1 [] []) (Node g ps cs)).
      rewrite emittedProbes_eq. simpl. destruct (Site.1 =? 0); by rewrite app_nil_r.
    + apply (proj2 (tree_wf_eq _ _ _)). split; [apply NoDup_nil_2|constructor].
Qed.

Lemma probeEdges_last (Probe : MCPseudoProbe.t) (InlineStack : list InlineSite) :
  ∃ Index, last (probeEdges Probe InlineStack) = Some (MCPseudoProbe.Guid Probe, Index).
Proof.
  assert (H : ∀ Iter Index0, ∃ Index,
            last (interiorEdges Index0 Iter (MCPseudoProbe.Guid Probe)) =
            Some (MCPseudoProbe.Guid Probe, Index)).
  { induction Iter as [|it rest IH]; intros Index0; simpl; [by eexists|].
    destruct (IH it.2) as (Index & E). exists Index.
    destruct (interiorEdges it.2 rest (MCPseudoProbe.Guid Probe)) eqn:Ei; [done|].
    by rewrite last_cons_cons. }
  destruct InlineStack as [|front rest]; simpl; [by eexists|].
  destruct (H rest front.2) as (Index & E). exists Index.
  destruct (interiorEdges front.2 rest (MCPseudoProbe.Guid Probe)) eqn:Ei; [done|].
  by rewrite last_cons_cons.
Qed.

(** X17.  In a well-formed tree, a probe added by [addPseudoProbe] joins
    the probes that [emit] writes, none of which is lost or repeated;
    unless its function GUID is 0: the node it is pushed on is then taken
    for a root, and the probes that [emit] writes stay what they were. *)
Theorem added_probe_is_emitted (Probe : MCPseudoProbe.t)
    (InlineStack : list InlineSite) (t : MCPseudoProbeInlineTree) :
  tree_wf t ->
  emittedProbes (addPseudoProbe Probe InlineStack t) ≡ₚ
  (if MCPseudoProbe.Guid Probe =? 0 then [] else [Probe]) ++ emittedProbes t.
Proof.
  intros Hwf. unfold addPseudoProbe.
  rewrite (addAlong_emitted Probe _ t Hwf). unfold targetGuid.
  destruct (probeEdges_last Probe InlineStack) as (Index & ->). done.
Qed.

(** X18.  After [emit] has walked a tree, [LastProbe] points at the last
    probe written, and is left as it was when the walk wrote none. *)
Theorem last_probe_after_walk (t : MCPseudoProbeInlineTree)
    (LastProbe : option MCPseudoProbe.t) :
  (MCPseudoProbeInlineTree_emit t LastProbe).2 =
  match last (emittedProbes t) with
  | Some Probe => Some Probe
  | None => LastProbe
  end.
Proof.
  rewrite (proj2 (emit_as_emitProbes t LastProbe)).
  rewrite (proj2 (emitProbes_order _ _)).
  destruct (emittedProbes t) as [|p ps] using rev_ind; [done|].
  rewrite map_app. simpl. rewrite app_comm_cons, !last_snoc. done.
Qed.

(** ** The emitted calls follow the format that the decoder reads *)

Lemma guids_nonzero_eq Guid Probes Children :
  guids_nonzero (Node Guid Probes Children) ↔
  Guid ≠ 0 ∧ Forall (fun Child => guids_nonzero Child.2) Children.
Proof.
  cbn [guids_nonzero].
  assert (H : foldr (fun Child rest => guids_nonzero Child.2 ∧ rest) True Children ↔
              Forall (fun Child => guids_nonzero Child.2) Children).
  { induction Children as [|c cs IH]; simpl.
    - split; [by constructor|done].
    - rewrite Forall_cons, IH. done. }
  by rewrite H.
Qed.

Lemma MCPseudoProbe_emit_record (Probe : MCPseudoProbe.t)
    (LastProbe : option MCPseudoProbe.t) :
  RecordCalls (MCPseudoProbe_emit Probe LastProbe).
Proof.
  unfold MCPseudoProbe_emit. destruct LastProbe as [Last|]; simpl.
  - destruct (evaluateAsAbsolute _ _); by constructor.
  - by constructor.
Qed.

Lemma emitProbes_recs (Probes : list MCPseudoProbe.t)
    (LastProbe : option MCPseudoProbe.t) :
  ∃ recs, (emitProbes Probes LastProbe).1 = concat recs ∧
          Forall RecordCalls recs ∧ length recs = length Probes.
Proof.
  revert LastProbe. induction Probes as [|Probe rest IH]; intros L.
  { exists []. done. }
  destruct (IH (Some Probe)) as (recs & E & Hall & Hlen).
  exists (MCPseudoProbe_emit Probe L :: recs). simpl.
  destruct (emitProbes rest (Some Probe)) as [tr Last'] eqn:Er. simpl in *.
  split; [by rewrite E|]. split; [|by rewrite Hlen].
  constructor; [apply MCPseudoProbe_emit_record|done].
Qed.

Lemma emitInlinees_bodies (Guid : Z)
    (inl : list (InlineSite * MCPseudoProbeInlineTree)) :
  Guid ≠ 0 ->
  Forall (fun c => ∀ L, BodyCalls (MCPseudoProbeInlineTree_emit c.2 L).1) inl ->
  ∀ L, ∃ bodies,
    (emitInlinees MCPseudoProbeInlineTree_emit Guid inl L).1 =
      concat (map (fun body => emitULEB128IntValue body.1 :: body.2) bodies) ∧
    Forall (fun body => BodyCalls body.2) bodies ∧
    length bodies = length inl.
Proof.
  intros Hg Hall. induction Hall as [|[k c] rest Hc _ IH]; intros L.
  { exists []. done. }
  rewrite emitInlinees_cons. cbn [fst snd].
  destruct (IH (MCPseudoProbeInlineTree_emit c L).2) as (bodies & E & Hb & Hlen).
  exists ((k.2, (MCPseudoProbeInlineTree_emit c L).1) :: bodies).
  rewrite (proj2 (Z.eqb_neq _ _) Hg). simpl. rewrite E.
  split; [done|]. split; [|by rewrite Hlen].
  constructor; [apply Hc|done].
Qed.

Lemma Inlinees_length {V : Type} (Children : list (InlineSite * V)) :
  NoDup Children.*1 -> length (Inlinees Children) = length Children.
Proof.
  intros Hnd. destruct (Inlinees_from Children [] (SSorted_nil _)) as [_ HP].
  unfold Inlinees. by rewrite (HP Hnd).
Qed.

Lemma emitInlinees_top (inl : list (InlineSite * MCPseudoProbeInlineTree)) :
  Forall (fun c => ∀ L, BodyCalls (MCPseudoProbeInlineTree_emit c.2 L).1) inl ->
  ∀ L, ∃ bodies,
    (emitInlinees MCPseudoProbeInlineTree_emit 0 inl L).1 = concat bodies ∧
    Forall BodyCalls bodies ∧ length bodies = length inl.
Proof.
  intros Hall. induction Hall as [|[k c] rest Hc _ IH]; intros L.
  { exists []. done. }
  rewrite emitInlinees_cons. cbn [fst snd].
  destruct (IH (MCPseudoProbeInlineTree_emit c L).2) as (bodies & E & Hb & Hlen).
  exists ((MCPseudoProbeInlineTree_emit c L).1 :: bodies).
  simpl. rewrite E. split; [done|]. split; [|by rewrite Hlen].
  constructor; [apply Hc|done].
Qed.

Lemma emit_body (t : MCPseudoProbeInlineTree) :
  tree_wf t -> guids_nonzero t ->
  ∀ LastProbe, BodyCalls (MCPseudoProbeInlineTree_emit t LastProbe).1.
Proof.
  induction t as [Guid Probes Children IH] using tree_induction.
  intros Hwf Hnz L.
  apply (proj1 (tree_wf_eq _ _ _)) in Hwf as [Hnd Hwf].
  apply (proj1 (guids_nonzero_eq _ _ _)) in Hnz as [Hg Hnz].
  rewrite MCPseudoProbeInlineTree_emit_proj. cbn [fst].
  unfold emitHeader. rewrite (proj2 (Z.eqb_neq _ _) Hg). cbn [fst snd].
  destruct (emitProbes_recs Probes L) as (recs & Er & Hrecs & Hlr).
  assert (Hall : Forall (fun c => ∀ L, BodyCalls (MCPseudoProbeInlineTree_emit c.2 L).1)
                        (Inlinees Children)).
  { apply (Inlinees_Forall
             (fun c => ∀ L, BodyCalls (MCPseudoProbeInlineTree_emit c L).1)).
    rewrite Forall_forall in IH, Hwf, Hnz. apply Forall_forall.
    intros c Hc. apply IH; [done|by apply Hwf|by apply Hnz]. }
  destruct (emitInlinees_bodies Guid _ Hg Hall (emitProbes Probes L).2)
    as (bodies & Eb & Hbodies & Hlb).
  rewrite Eb, Er, <- Hlr, <- (Inlinees_length Children Hnd), <- Hlb.
  rewrite <- app_assoc. by constructor.
Qed.

(** X19.  For a well-formed tree none of whose nodes has the GUID 0, the
    calls that [emit] makes follow the format of a function body: the
    GUID, the number of probe records and the number of inlined bodies,
    followed by exactly as many probe records of three calls each and by
    exactly as many inlined bodies, each after the index of its call
    site.  For a root, whose GUID is 0, the calls are the function bodies
    of its children one after the other, without call-site indices. *)
Theorem emitted_calls_follow_format (Guid : Z) (Probes : list MCPseudoProbe.t)
    (Children : list (InlineSite * MCPseudoProbeInlineTree))
    (LastProbe : option MCPseudoProbe.t) :
  tree_wf (Node Guid Probes Children) ->
  Forall (fun Child => guids_nonzero Child.2) Children ->
  if Guid =? 0
  then ∃ bodies,
         (MCPseudoProbeInlineTree_emit (Node Guid Probes Children) LastProbe).1 =
           concat bodies ∧
         Forall BodyCalls bodies ∧ length bodies = length Children
  else BodyCalls (MCPseudoProbeInlineTree_emit (Node Guid Probes Children) LastProbe).1.
Proof.
  intros Hwf Hnz. destruct (Z.eqb_spec Guid 0) as [->|Hg].
  - apply (proj1 (tree_wf_eq _ _ _)) in Hwf as [Hnd Hwf].
    rewrite MCPseudoProbeInlineTree_emit_proj. cbn [fst].
    unfold emitHeader. cbn [Z.eqb fst snd app].
    assert (Hall : Forall (fun c => ∀ L, BodyCalls (MCPseudoProbeInlineTree_emit c.2 L).1)
                          (Inlinees Children)).
    { apply (Inlinees_Forall
               (fun c => ∀ L, BodyCalls (MCPseudoProbeInlineTree_emit c L).1)).
      rewrite Forall_forall in Hwf, Hnz. apply Forall_forall.
      intros c Hc. apply emit_body; [by apply Hwf|by apply Hnz]. }
    destruct (emitInlinees_top _ Hall LastProbe) as (bodies & E & Hb & Hlen).
    exists bodies. split; [done|]. split; [done|].
    by rewrite Hlen, (Inlinees_length Children Hnd).
  - apply emit_body; [done|]. by apply (proj2 (guids_nonzero_eq _ _ _)).
Qed.

(** ** Unpacking the type/flag byte loses nothing *)

Lemma byte_cases (P : Z -> bool) :
  forallb P (map Z.of_nat (seq 0 256)) = true ->
  ∀ Value, 0 <= Value < 256 -> P Value = true.
Proof.
  intros H Value Hv. rewrite forallb_forall in H. apply H.
  apply in_map_iff. exists (Z.to_nat Value). split; [lia|].
  apply in_seq. lia.
Qed.

(** X20.  For every byte, the kind unpacked from it is at most 15 and the
    attributes at most 7; and a probe with that kind and those attributes,
    emitted after a previous probe exactly when the delta flag of the
    byte is set, has the byte itself written as its packed byte. *)
Theorem packed_byte_unpack_repack (Value : Z) (Probe : MCPseudoProbe.t)
    (LastProbe : option MCPseudoProbe.t) :
  0 <= Value < 256 ->
  MCPseudoProbe.Type_ Probe = Kind_of Value ->
  MCPseudoProbe.Attributes Probe = Attr_of Value ->
  bool_decide (is_Some LastProbe) = delta_flag Value ->
  0 <= MCPseudoProbe.Type_ Probe <= 15 ∧
  0 <= MCPseudoProbe.Attributes Probe <= 7 ∧
  MCPseudoProbe_emit Probe LastProbe !! 1%nat = Some (emitInt8 Value).
Proof.
  intros Hv Ht Ha Hf.
  pose proof (byte_cases
    (fun v => (0 <=? Kind_of v) && (Kind_of v <=? 15) &&
              (0 <=? Attr_of v) && (Attr_of v <=? 7) &&
              (Z.lor (if delta_flag v then Z.shiftl AddressDelta 7 mod 256 else 0)
                     (Z.lor (Kind_of v) (Z.shiftl (Attr_of v) 4) mod 256) =? v))
    eq_refl Value Hv) as H.
  cbv beta in H. rewrite !andb_true_iff in H.
  destruct H as [[[[H1 H2] H3] H4] H5].
  rewrite Ht, Ha. split; [lia|]. split; [lia|].
  unfold MCPseudoProbe_emit. cbn [app lookup list_lookup]. do 2 f_equal.
  unfold PackedType. rewrite Ht, Ha.
  apply Z.eqb_eq in H5. rewrite <- H5 at 3. f_equal.
  unfold Flag. rewrite <- Hf. by destruct LastProbe.
Qed.

(** ** A filter that holds every top-level GUID *)

Lemma enterNode_filter_inner (Cur : option nat) (F : gset Z) (d : Decoder) :
  Cur ≠ Some DummyInlineRoot -> enterNode Cur F d = enterNode Cur ∅ d.
Proof.
  intros H. unfold enterNode. by rewrite (bool_decide_eq_false_2 _ H).
Qed.

Lemma enterNode_filter_top (F : gset Z) (d : Decoder) Guid c0 :
  readUnencodedNumber uint64_t (MCPseudoProbeDecoder.cur d) = (Ok Guid, c0) ->
  Guid ∈ F ->
  enterNode (Some DummyInlineRoot) F d = enterNode (Some DummyInlineRoot) ∅ d.
Proof.
  intros Hr Hin. unfold enterNode. rewrite bool_decide_eq_true_2 by done.
  rewrite rd_cur, Hr. cbn [fst snd].
  rewrite (bool_decide_eq_true_2 (Guid ∈ F)) by done.
  rewrite (bool_decide_eq_true_2 (∅ = ∅)) by done.
  by rewrite andb_false_r.
Qed.

Lemma inlineesLoop_ext (P : Decoder -> Prop)
    (call1 call2 : Z -> Decoder -> option (bool * Z * Decoder)) :
  (∀ la d, P d -> call1 la d = call2 la d) ->
  (∀ la d b la' d', P d -> call2 la d = Some (b, la', d') -> P d') ->
  ∀ n la d, P d -> inlineesLoop call1 n la d = inlineesLoop call2 n la d.
Proof.
  intros Heq Hpres. induction n as [|n IH]; intros la d HP; [done|].
  simpl. rewrite (Heq la d HP).
  destruct (call2 la d) as [[[b la1] d1]|] eqn:E; [|done].
  apply IH. by eapply Hpres.
Qed.

Lemma rec_filter_from_enter (F : gset Z) (fuel : nat) Cur la d :
  (∀ Cur la d, Cur ≠ Some DummyInlineRoot -> decoder_ok ∅ d ->
               cur_valid (MCPseudoProbeDecoder.Nodes d) Cur ->
               buildAddress2ProbeMap_rec fuel Cur la F d =
               buildAddress2ProbeMap_rec fuel Cur la ∅ d) ->
  enterNode Cur F d = enterNode Cur ∅ d ->
  decoder_ok ∅ d -> cur_valid (MCPseudoProbeDecoder.Nodes d) Cur ->
  buildAddress2ProbeMap_rec (S fuel) Cur la F d =
  buildAddress2ProbeMap_rec (S fuel) Cur la ∅ d.
Proof.
  intros Hinner Henter Hok Hcur. cbn [buildAddress2ProbeMap_rec]. rewrite Henter.
  destruct (enterNode Cur ∅ d) as [r d1] eqn:E0.
  destruct (enterNode_inv ∅ ∅ Cur d r d1 (or_introl eq_refl) Hok Hcur E0)
    as (Hok1 & _ & Hr).
  destruct r as [|Cur']; [done|]. destruct Hr as [Hcur1 Hroot].
  destruct (rd (readUnsignedNumber uint32_t) d1) as [[|NodeCount] d2] eqn:E1;
    [done|]. apply rd_same in E1 as [Hn2 Hm2].
  destruct (rd (readUnsignedNumber uint32_t) d2) as [[|ChildrenToProcess] d3] eqn:E2;
    [done|]. apply rd_same in E2 as [Hn3 Hm3]. rewrite Hn2 in Hn3. rewrite Hm2 in Hm3.
  assert (Hok3 : decoder_ok ∅ d3) by (by eapply decoder_ok_same).
  assert (Hcur3 : cur_valid (MCPseudoProbeDecoder.Nodes d3) Cur') by (by rewrite Hn3).
  destruct (decodeProbes_inv ∅ (Z.to_nat NodeCount) Cur' Hroot la d3 Hok3 Hcur3)
    as [Hok4 Hv4].
  destruct (decodeProbes (Z.to_nat NodeCount) Cur' la d3) as [[[] la4] d4];
    simpl in *; [|done].
  apply (inlineesLoop_ext
           (fun d0 => decoder_ok ∅ d0 ∧
                      cur_valid (MCPseudoProbeDecoder.Nodes d0) Cur')).
  - intros la0 d0 [Hok0 Hcur0]. by apply Hinner.
  - intros la0 d0 b0 la0' d0' [Hok0 Hcur0] Hcall.
    destruct (buildAddress2ProbeMap_rec_inv ∅ ∅ fuel (or_introl eq_refl)
                Cur' la0 d0 b0 la0' d0' Hok0 Hcur0 Hcall) as [Hok0' Hv0'].
    split; [done|]. destruct Cur'; [|done]. by apply Hv0'.
  - split; [done|]. destruct Cur'; [|done]. by apply Hv4.
Qed.

Lemma rec_filter_inner (F : gset Z) (fuel : nat) :
  ∀ Cur la d, Cur ≠ Some DummyInlineRoot -> decoder_ok ∅ d ->
    cur_valid (MCPseudoProbeDecoder.Nodes d) Cur ->
    buildAddress2ProbeMap_rec fuel Cur la F d =
    buildAddress2ProbeMap_rec fuel Cur la ∅ d.
Proof.
  induction fuel as [|fuel IH]; intros Cur la d Hroot Hok Hcur; [done|].
  apply rec_filter_from_enter; [exact IH| |done|done].
  by apply enterNode_filter_inner.
Qed.

Lemma topLoop_filter (F : gset Z) la c guids :
  TopGuids la c guids -> Forall (fun g => g ∈ F) guids ->
  ∀ fuel d, MCPseudoProbeDecoder.cur d = c -> decoder_ok ∅ d ->
    (End c - Data c <= fuel)%nat ->
    topLoop fuel la F d = topLoop fuel la ∅ d ∧
    ∃ la' d', topLoop fuel la ∅ d = Some (la', d').
Proof.
  induction 1 as [la c Hend|la c Guid c0 la1 c1 rest Hlt Hr Hbody _ IH];
    intros HF fuel d Hc Hok Hfuel; subst c.
  - assert (E : ∀ G, topLoop fuel la G d = Some (la, d)).
    { intros G. destruct fuel; cbn [topLoop];
        by destruct (Nat.ltb_spec (dData d) (dEnd d)); [unfold dData, dEnd in *; lia|]. }
    rewrite !E. eauto.
  - apply Forall_cons in HF as [Hin HF].
    destruct fuel as [|fuel]; [lia|]. cbn [topLoop].
    destruct (Nat.ltb_spec (dData d) (dEnd d)); [|unfold dData, dEnd in *; lia].
    assert (Hcur : cur_valid (MCPseudoProbeDecoder.Nodes d) (Some DummyInlineRoot))
      by (by destruct Hok as [[? _] _]).
    rewrite (rec_filter_from_enter F (dEnd d - dData d) (Some DummyInlineRoot) la d);
      [|apply rec_filter_inner|by eapply enterNode_filter_top|done|done].
    destruct (proj1 body_parse _ _ _ _ _ Hbody ∅ ∅ (S (dEnd d - dData d))
                (Some DummyInlineRoot) d (or_introl eq_refl) eq_refl Hok Hcur)
      as (d1 & E1 & Hc1); [done|unfold dData, dEnd; lia|].
    destruct (buildAddress2ProbeMap_rec_total (S (dEnd d - dData d))
                (Some DummyInlineRoot) la ∅ d)
      as (b & la' & d1' & E1' & Hf & Hadv); [lia|].
    rewrite E1 in E1'. injection E1' as <- <- <-. specialize (Hadv eq_refl).
    rewrite E1.
    destruct (buildAddress2ProbeMap_rec_inv ∅ ∅ _ (or_introl eq_refl)
                _ _ _ _ _ _ Hok Hcur E1) as [Hok1 _].
    apply IH; [done|done|done|].
    destruct Hf as (_ & HE & _ & _). unfold dData, dEnd in *.
    rewrite Hc1 in HE, Hadv. lia.
Qed.

(** X21.  A filter that holds the GUID of every top-level function of a
    well-formed probe section filters nothing: the parse returns, with
    the same decoder as the parse without a filter. *)
Theorem filter_of_every_top_level_guid (Start : list Z) (F : gset Z)
    (guids : list Z) (fuel : nat) (d : Decoder) :
  TopGuids 0 (mkCursor Start 0 (length Start)) guids ->
  Forall (fun g => g ∈ F) guids ->
  (length Start <= fuel)%nat ->
  decoder_ok ∅ d ->
  ∃ d', buildAddress2ProbeMap_unfiltered fuel Start d = Some (true, d') ∧
        buildAddress2ProbeMap fuel Start F d = Some (true, d').
Proof.
  intros Hg HF Hfuel Hok. unfold buildAddress2ProbeMap_unfiltered, buildAddress2ProbeMap.
  destruct (topLoop_filter F _ _ _ Hg HF fuel (setInput Start d))
    as (E & la' & d' & E'); [done|by apply setInput_ok|simpl; lia|].
  rewrite E, E'. by exists d'.
Qed.

(** ** The parse without a filter indexes every record *)

Lemma indexed_same d d' :
  MCPseudoProbeDecoder.Address2ProbesMap d' = MCPseudoProbeDecoder.Address2ProbesMap d ->
  indexed d d' [].
Proof. intros H Addr. rewrite H. unfold fieldsAt. by rewrite filter_nil, app_nil_r. Qed.

Lemma indexed_trans d1 d2 d3 r1 r2 :
  indexed d1 d2 r1 -> indexed d2 d3 r2 -> indexed d1 d3 (r1 ++ r2).
Proof.
  intros H1 H2 Addr. rewrite H2, H1. unfold fieldsAt.
  by rewrite filter_app, app_assoc.
Qed.

Lemma populate_indexed cur Addr Index Kind Attr d :
  indexed d (populate (Some cur) Addr Index Kind Attr d) [(Addr, Index, Kind, Attr)].
Proof.
  intros A. unfold populate, set_nodes, set_probes, fieldsAt.
  cbn [MCPseudoProbeDecoder.Address2ProbesMap].
  destruct (decide (Addr = A)) as [->|Hne].
  - rewrite lookup_insert_eq. simpl. rewrite fmap_app.
    rewrite filter_cons_True by done. by rewrite filter_nil.
  - rewrite lookup_insert_ne by done.
    rewrite filter_cons_False by done. by rewrite filter_nil, app_nil_r.
Qed.

Lemma decodeProbes_T n la c la' c' recs :
  ProbeRecordsT n la c la' c' recs ->
  ∀ Cur d, MCPseudoProbeDecoder.cur d = c ->
    ∃ d', decodeProbes n Cur la d = (true, la', d') ∧
          MCPseudoProbeDecoder.cur d' = c' ∧
          indexed d d' (match Cur with Some _ => recs | None => [] end).
Proof.
  induction 1 as [la c|n la c Index c1 Value c2 Addr c3 la2 c4 rest H1 H2 H3 _ IH];
    intros Cur d Hd.
  { exists d. split; [done|]. split; [done|].
    destruct Cur; by apply indexed_same. }
  subst c. cbn [decodeProbes]. unfold decodeProbe.
  rewrite rd_cur, H1. cbn [fst snd].
  rewrite rd_cur. cbn [MCPseudoProbeDecoder.cur set_cur]. rewrite H2. cbn [fst snd].
  rewrite rd_cur. cbn [MCPseudoProbeDecoder.cur set_cur]. rewrite H3. cbn [fst snd].
  set (d3 := set_cur c3 _).
  destruct (IH Cur (populate Cur Addr Index (Kind_of Value) (Attr_of Value) d3))
    as (d' & E & Hc & Hi); [by rewrite populate_cur|].
  exists d'. split; [done|]. split; [done|].
  apply (indexed_trans d d3 d' [] _ (indexed_same d d3 eq_refl)).
  destruct Cur as [cur|].
  - eapply (indexed_trans d3 _ d' [_]); [apply populate_indexed|exact Hi].
  - exact Hi.
Qed.

Lemma enterNode_index Cur F d :
  MCPseudoProbeDecoder.Address2ProbesMap (enterNode Cur F d).2 =
  MCPseudoProbeDecoder.Address2ProbesMap d.
Proof.
  unfold enterNode.
  assert (H0 : ∀ x d0,
    (if bool_decide (Cur = Some DummyInlineRoot)
     then (Ok (static_cast uint32_t
                 (childCount (MCPseudoProbeDecoder.Nodes d) DummyInlineRoot)), d)
     else rd (readUnsignedNumber uint32_t) d) = (x, d0) ->
    MCPseudoProbeDecoder.Address2ProbesMap d0 =
      MCPseudoProbeDecoder.Address2ProbesMap d).
  { intros x d0. destruct (bool_decide _); [by intros [= <- <-]|].
    intros H. by apply rd_same in H as [_ ?]. }
  destruct (if bool_decide (Cur = Some DummyInlineRoot) then _ else _)
    as [[|Index] d0]; pose proof (H0 _ _ eq_refl) as Hm0; [done|].
  destruct (rd (readUnencodedNumber uint64_t) d0) as [[|Guid] d2] eqn:E2;
    apply rd_same in E2 as [_ Hm2]; rewrite Hm0 in Hm2; [done|].
  destruct (if _ && _ && _ then None else Cur) as [cur|]; [|done].
  by destruct (decGetOrAddNode _ _ _).
Qed.

Lemma enterNode_keeps (top : bool) F Cur d c0 Guid c1 :
  (Cur = Some DummyInlineRoot ↔ top = true) ->
  (if top then c0 = MCPseudoProbeDecoder.cur d
   else ∃ Index, readUnsignedNumber uint32_t (MCPseudoProbeDecoder.cur d) =
                   (Ok Index, c0)) ->
  readUnencodedNumber uint64_t c0 = (Ok Guid, c1) ->
  ∃ Cur' d1, enterNode Cur F d = (Ok Cur', d1) ∧ MCPseudoProbeDecoder.cur d1 = c1 ∧
             keeps F top Guid Cur = bool_decide (is_Some Cur').
Proof.
  intros Htop H0 H1. unfold enterNode.
  assert (∃ Index d0,
    (if bool_decide (Cur = Some DummyInlineRoot)
     then (Ok (static_cast uint32_t
                 (childCount (MCPseudoProbeDecoder.Nodes d) DummyInlineRoot)), d)
     else rd (readUnsignedNumber uint32_t) d) = (Ok Index, d0) ∧
    MCPseudoProbeDecoder.cur d0 = c0) as (Index & d0 & -> & Hc0).
  { destruct top.
    - rewrite bool_decide_eq_true_2 by (by apply Htop). eauto.
    - rewrite bool_decide_eq_false_2 by (intros ?; by apply Htop in H).
      destruct H0 as [Index H0]. rewrite rd_cur, H0. eauto. }
  rewrite rd_cur, Hc0, H1. cbn [fst snd].
  assert (Hk : keeps F top Guid Cur =
               bool_decide (is_Some
                 (if bool_decide (Cur = Some DummyInlineRoot) &&
                     negb (bool_decide (F = ∅)) && negb (bool_decide (Guid ∈ F))
                  then None else Cur))).
  { unfold keeps. destruct top.
    - assert (Cur = Some DummyInlineRoot) as -> by (by apply Htop).
      rewrite (bool_decide_eq_true_2 (Some DummyInlineRoot = Some DummyInlineRoot))
        by done.
      cbn [negb orb andb].
      destruct (bool_decide (F = ∅)); [done|].
      destruct (bool_decide (Guid ∈ F)); [done|]. cbn [negb orb andb].
      symmetry. apply bool_decide_eq_false_2. by intros [? ?].
    - rewrite (bool_decide_eq_false_2 (Cur = Some DummyInlineRoot))
        by (intros ?; by apply Htop in H).
      cbn [negb orb andb]. destruct Cur; [done|].
      symmetry. apply bool_decide_eq_false_2. by intros [? ?]. }
  rewrite Hk.
  destruct (if _ && _ && _ then None else Cur) as [cur|].
  - destruct (decGetOrAddNode _ _ _). eexists _, _. split; [done|]. split; [done|].
    rewrite !bool_decide_eq_true_2; eauto.
  - eexists _, _. split; [done|]. split; done.
Qed.

Lemma bodyT_parse (F : gset Z) :
  (∀ top Guid la c la' c' recs, FunctionBodyT top Guid la c la' c' recs ->
     ∀ fuel Cur d,
       MCPseudoProbeDecoder.cur d = c -> decoder_ok ∅ d ->
       cur_valid (MCPseudoProbeDecoder.Nodes d) Cur ->
       (Cur = Some DummyInlineRoot ↔ top = true) ->
       (End c - Data c < fuel)%nat ->
       ∃ d', buildAddress2ProbeMap_rec fuel Cur la F d = Some (true, la', d') ∧
             MCPseudoProbeDecoder.cur d' = c' ∧
             indexed d d' (if keeps F top Guid Cur then recs else [])) ∧
  (∀ n la c la' c' recs, InlinedBodiesT n la c la' c' recs ->
     ∀ fuel Cur d,
       MCPseudoProbeDecoder.cur d = c -> decoder_ok ∅ d ->
       cur_valid (MCPseudoProbeDecoder.Nodes d) Cur ->
       Cur ≠ Some DummyInlineRoot ->
       (End c - Data c < fuel)%nat ->
       ∃ d', inlineesLoop
               (fun la d => buildAddress2ProbeMap_rec fuel Cur la F d) n la d =
               Some (true, la', d') ∧
             MCPseudoProbeDecoder.cur d' = c' ∧
             indexed d d' (match Cur with Some _ => recs | None => [] end)).
Proof.
  apply bodyT_mutind.
  - intros top la c c0 Guid c1 NProbes c2 NumInlined c3 la4 c4 la5 c5 own inl
      H0 H1 H2 H3 Hprobes _ IH fuel Cur d Hd Hok Hcur Htop Hfuel.
    destruct fuel as [|fuel]; [lia|]. subst c.
    cbn [buildAddress2ProbeMap_rec].
    destruct (enterNode_keeps top F Cur d c0 Guid c1 Htop H0 H1)
      as (Cur' & d1 & E0 & Hc1 & Hk).
    pose proof (enterNode_index Cur F d) as Hm1. rewrite E0 in Hm1 |- *.
    cbn [snd] in Hm1.
    destruct (enterNode_inv ∅ F Cur d _ d1 (or_introl eq_refl) Hok Hcur E0)
      as (Hok1 & Hv1 & Hcur1 & Hroot).
    pose proof (enterNode_follows Cur F d) as Hf01. rewrite E0 in Hf01.
    apply enterNode_Ok in E0 as [Hadv Hle]. cbn [snd] in Hf01.
    rewrite rd_cur, Hc1, H2. cbn [fst snd].
    rewrite rd_cur. cbn [MCPseudoProbeDecoder.cur set_cur]. rewrite H3.
    cbn [fst snd].
    set (d3 := set_cur c3 (set_cur c2 d1)).
    assert (Hf13 : dfollows d1 d3).
    { unfold dfollows. subst d3. cbn [MCPseudoProbeDecoder.cur set_cur].
      rewrite Hc1. eapply follows_trans.
      - pose proof (readUnsignedNumber_follows uint32_t c1) as Hf. by rewrite H2 in Hf.
      - pose proof (readUnsignedNumber_follows uint32_t c2) as Hf. by rewrite H3 in Hf. }
    assert (Hok3 : decoder_ok ∅ d3) by (by eapply decoder_ok_same).
    assert (Hcur3 : cur_valid (MCPseudoProbeDecoder.Nodes d3) Cur') by done.
    destruct (decodeProbes_T _ _ _ _ _ _ Hprobes Cur' d3 eq_refl)
      as (d4 & E4 & Hc4 & Hi4).
    pose proof (decodeProbes_follows (Z.to_nat NProbes) Cur' la d3) as Hf34.
    destruct (decodeProbes_inv ∅ (Z.to_nat NProbes) Cur' Hroot la d3 Hok3 Hcur3)
      as [Hok4 Hv4].
    rewrite E4 in Hf34, Hok4, Hv4 |- *. cbn [snd] in Hf34, Hok4, Hv4.
    destruct (IH fuel Cur' d4 Hc4 Hok4) as (d5 & E5 & Hc5 & Hi5).
    + destruct Cur'; [|done]. by apply Hv4.
    + done.
    + assert (Hf : dfollows d1 d4) by eauto using dfollows_trans.
      apply dfollows_remaining in Hf.
      assert (dEnd d1 = dEnd d) as HE by (by destruct Hf01 as (_ & HE & _)).
      unfold dEnd, dData in *. rewrite Hc4 in Hf. lia.
    + exists d5. split; [done|]. split; [done|].
      apply (indexed_trans d d3 d5 [] _); [by apply indexed_same|].
      rewrite Hk. destruct Cur' as [cur'|].
      * rewrite bool_decide_eq_true_2 by eauto. by eapply indexed_trans.
      * rewrite bool_decide_eq_false_2 by (by intros [? ?]).
        by apply (indexed_trans d3 d4 d5 [] []).
  - intros la c fuel Cur d Hd _ _ _ _. exists d. split; [done|]. split; [done|].
    destruct Cur; by apply indexed_same.
  - intros n Guid la c la1 c1 la2 c2 first rest _ IHbody _ IHrest
      fuel Cur d Hd Hok Hcur Hroot Hfuel.
    cbn [inlineesLoop].
    destruct (IHbody fuel Cur d Hd Hok Hcur) as (d1 & E1 & Hc1 & Hi1); [|done|].
    { split; [done|]. done. }
    rewrite E1. subst c.
    pose proof (buildAddress2ProbeMap_rec_follows _ _ _ _ _ _ _ _ Hfuel E1) as Hf.
    destruct (buildAddress2ProbeMap_rec_inv ∅ F fuel (or_introl eq_refl)
                Cur _ _ _ _ _ Hok Hcur E1) as [Hok1 Hv1].
    destruct (IHrest fuel Cur d1 Hc1 Hok1) as (d2 & E2 & Hc2 & Hi2); [|done| |].
    + destruct Cur; [|done]. by apply Hv1.
    + apply dfollows_remaining in Hf. unfold dEnd, dData in *.
      rewrite Hc1 in Hf. lia.
    + exists d2. split; [done|]. split; [done|].
      unfold keeps in Hi1. destruct Cur as [cur|].
      * cbn [negb orb] in Hi1. by eapply indexed_trans.
      * by apply (indexed_trans d d1 d2 [] []).
Qed.

Lemma sectionT_parse (F : gset Z) la c bodies :
  ProbeSectionT la c bodies ->
  ∀ fuel d,
    MCPseudoProbeDecoder.cur d = c -> decoder_ok ∅ d ->
    (End c - Data c <= fuel)%nat ->
    ∃ la' d', topLoop fuel la F d = Some (la', d') ∧
              indexed d d' (keptRecords F bodies).
Proof.
  induction 1 as [la c Hend|la c Guid la1 c1 first rest Hlt Hbody _ IH];
    intros fuel d Hd Hok Hfuel; subst c.
  - exists la, d. split; [|by apply indexed_same].
    destruct fuel; cbn [topLoop];
      by destruct (Nat.ltb_spec (dData d) (dEnd d)); [unfold dData, dEnd in *; lia|].
  - destruct fuel as [|fuel]; [lia|]. cbn [topLoop].
    destruct (Nat.ltb_spec (dData d) (dEnd d)); [|unfold dData, dEnd in *; lia].
    assert (Hcur : cur_valid (MCPseudoProbeDecoder.Nodes d) (Some DummyInlineRoot))
      by (by destruct Hok as [[? _] _]).
    destruct (proj1 (bodyT_parse F) _ _ _ _ _ _ _ Hbody (S (dEnd d - dData d))
                (Some DummyInlineRoot) d eq_refl Hok Hcur)
      as (d1 & E1 & Hc1 & Hi1); [done|unfold dData, dEnd; lia|].
    destruct (buildAddress2ProbeMap_rec_total (S (dEnd d - dData d))
                (Some DummyInlineRoot) la F d)
      as (b & la' & d1' & E1' & Hf & Hadv); [lia|].
    rewrite E1 in E1'. injection E1' as <- <- <-. specialize (Hadv eq_refl).
    rewrite E1.
    destruct (buildAddress2ProbeMap_rec_inv ∅ F _ (or_introl eq_refl)
                (Some DummyInlineRoot) _ _ _ _ _ Hok Hcur E1) as [Hok1 _].
    destruct (IH fuel d1 Hc1 Hok1) as (la2 & d2 & E2 & Hi2).
    { destruct Hf as (_ & HE & _ & _). unfold dData, dEnd in *.
      rewrite Hc1 in HE, Hadv. lia. }
    exists la2, d2. split; [done|].
    unfold keptRecords. cbn [map concat fst snd].
    eapply indexed_trans; [exact Hi1|exact Hi2].
Qed.

(** X22.  The parse of a well-formed probe section files the records of
    the top-level functions that pass the filter, all of them when there
    is no filter, and no other record: the list that the address index
    holds for an address is what it was before the parse, followed by one
    probe for each kept record with that address, in the order of the
    section and with the index, the kind and the attributes of the
    record. *)
Theorem parse_indexes_the_kept_records (Start : list Z) (F : gset Z)
    (fuel : nat) (bodies : list (Z * list ProbeFields)) (d : Decoder) :
  ProbeSectionT 0 (mkCursor Start 0 (length Start)) bodies ->
  (length Start <= fuel)%nat ->
  decoder_ok ∅ d ->
  ∃ d', buildAddress2ProbeMap fuel Start F d = Some (true, d') ∧
        ∀ Addr,
          fieldsOf <$> default [] (MCPseudoProbeDecoder.Address2ProbesMap d' !! Addr) =
          (fieldsOf <$> default [] (MCPseudoProbeDecoder.Address2ProbesMap d !! Addr)) ++
          fieldsAt Addr (keptRecords F bodies).
Proof.
  intros Hs Hfuel Hok. unfold buildAddress2ProbeMap.
  destruct (sectionT_parse F _ _ _ Hs fuel (setInput Start d))
    as (la' & d' & E & Hi); [done|by apply setInput_ok|simpl; lia|].
  rewrite E. exists d'. split; [done|]. exact Hi.
Qed.

End PseudoProbe.

(** * Worked instances *)

(** A read that succeeds on concrete bytes. *)
Ltac read_ok := vm_compute; reflexivity.

(** Derivations of the wire format on concrete bytes: the counts are
    evaluated first, then the matching rule is applied. *)
Ltac probe_records :=
  lazymatch goal with
  | |- ProbeRecords _ _ ?n _ _ _ _ =>
      let k := eval vm_compute in n in
      change n with k;
      lazymatch k with
      | O => apply probes_nil
      | S _ =>
          eapply probes_cons;
          [eapply probe_record; [read_ok|read_ok|read_ok]|probe_records]
      end
  end.

Ltac function_body :=
  eapply function_body;
  [ first [reflexivity | eexists; read_ok]
  | read_ok | read_ok | read_ok
  | probe_records
  | inlined_bodies ]
with inlined_bodies :=
  lazymatch goal with
  | |- InlinedBodies _ _ ?n _ _ _ _ =>
      let k := eval vm_compute in n in
      change n with k;
      lazymatch k with
      | O => apply inlined_nil
      | S _ => eapply inlined_cons; [function_body|inlined_bodies]
      end
  end.

Ltac probe_section :=
  lazymatch goal with
  | |- ProbeSection _ _ _ ?c _ =>
      let b := eval vm_compute in (Data c <? End c)%nat in
      lazymatch b with
      | true => eapply section_body; [vm_compute; lia|function_body|probe_section]
      | false => apply section_end; vm_compute; lia
      end
  end.

Lemma sectionTwo_wellformed :
  ProbeSection decodeULEB128_model decodeSLEB128_model 0
    (mkCursor sectionTwo 0 (length sectionTwo)) 4101.
Proof. probe_section. Qed.

(** The worked decoder is the one the two parses build. *)
Lemma decodedInlined_built :
  buildGUID2FuncDescMap decodeULEB128_model descInlined freshDecoder =
    Some (true, set_cur (mkCursor descInlined 36 36)
                  (set_descs (MCPseudoProbeDecoder.GUID2FuncDescMap decodedInlined)
                     freshDecoder)) ∧
  buildAddress2ProbeMap decodeULEB128_model decodeSLEB128_model 34 sectionInlined ∅
    (set_descs (MCPseudoProbeDecoder.GUID2FuncDescMap decodedInlined) freshDecoder) =
    Some (true, decodedInlined).
Proof. split; vm_compute; reflexivity. Qed.



(** C2, counterexample.  The node has function 2 inlined at call site 1
    and function 1 inlined at call site 5.  The emitter walks function 1
    first: the call-site index 5 and the GUID 1 are written before the
    call-site index 1 and the GUID 2.  The walk is not in ascending order
    of call-site index. *)
Lemma children_order_counterexample :
  childOrder treeTwoInlinees = [(1, 5); (2, 1)] ∧
  (MCPseudoProbeInlineTree_emit foldAll 8 treeTwoInlinees None).1 =
    [emitInt64 10; emitULEB128IntValue 0; emitULEB128IntValue 2;
     emitULEB128IntValue 5; emitInt64 1; emitULEB128IntValue 0;
     emitULEB128IntValue 0;
     emitULEB128IntValue 1; emitInt64 2; emitULEB128IntValue 0;
     emitULEB128IntValue 0] ∧
  ¬ StronglySorted index_then_guid (childOrder treeTwoInlinees).
Proof.
  split; [reflexivity|]. split; [reflexivity|].
  change (childOrder treeTwoInlinees) with [(1, 5); (2, 1)].
  intros H. apply StronglySorted_cons in H as [H _].
  apply Forall_cons in H as [H _]. unfold index_then_guid in H. simpl in H. lia.
Qed.

(** On the node of the counterexample the calls of function 1, inlined at
    call site 5, stand in the stream before those of function 2, inlined
    at call site 1. *)
Lemma children_emitted_in_site_order_witness :
  StronglySorted site_before (childOrder treeTwoInlinees) ∧
  Inlinees (tree_Children treeTwoInlinees) ≡ₚ tree_Children treeTwoInlinees ∧
  ∃ pre mid post La Lb,
    (MCPseudoProbeInlineTree_emit foldAll 8 treeTwoInlinees None).1 =
      pre ++ inlineeCalls foldAll 8 10 ((1, 5), Node 1 [] []) La ++
      mid ++ inlineeCalls foldAll 8 10 ((2, 1), Node 2 [] []) Lb ++ post.
Proof.
  destruct (children_emitted_in_site_order foldAll 8 treeTwoInlinees None)
    as (H1 & H2 & _ & H3 & _).
  - simpl. apply NoDup_cons. split; [|apply NoDup_singleton].
    rewrite list_elem_of_singleton. discriminate.
  - split; [exact H1|]. split; [exact H2|].
    apply (H3 ((1, 5), Node 1 [] []) ((2, 1), Node 2 [] [])).
    + right. left.
    + left.
    + left. simpl. lia.
Defined.

Lemma filter_containment_witness :
  ∃ d', buildAddress2ProbeMap decodeULEB128_model decodeSLEB128_model 33
          sectionTwo {[2]} freshDecoder = Some (true, d') ∧
        dData d' = length sectionTwo ∧
        MCPseudoProbeDecoder.Address2ProbesMap d' =
          {[4101 := [MCDecodedPseudoProbe.mk 4101 2 1 0 0 1]]}.
Proof.
  destruct (filter_containment decodeULEB128_model decodeSLEB128_model
              sectionTwo {[2]} 33 4101) as (d' & E & Hd & _).
  - intros H. apply (f_equal (fun s : gset Z => bool_decide (2 ∈ s))) in H.
    vm_compute in H. discriminate.
  - exact sectionTwo_wellformed.
  - vm_compute. lia.
  - exists d'. split; [exact E|]. split; [exact Hd|].
    revert E. vm_compute. intros [= <-]. reflexivity.
Defined.

Lemma last_addr_threading_witness :
  ∃ d', topLoop decodeULEB128_model decodeSLEB128_model 33 0 {[2]}
          (setInput sectionTwo freshDecoder) = Some (4101, d').
Proof.
  destruct (proj2 (last_addr_threading decodeULEB128_model decodeSLEB128_model)
              sectionTwo {[2]} 33%nat 4101) as (d' & E & _).
  - exact sectionTwo_wellformed.
  - vm_compute. lia.
  - exists d'. exact E.
Defined.

Lemma packed_byte_round_trip_witness :
  ∃ Value,
    MCPseudoProbe_emit foldAll 8 probeA (Some probeC) !! 1%nat =
      Some (emitInt8 Value) ∧
    static_cast uint8_t (readLE [Value]) = Value ∧
    Kind_of Value = 2 ∧ Attr_of Value = 1 ∧ delta_flag Value = true.
Proof.
  destruct (packed_byte_round_trip foldAll 8 probeA (Some probeC))
    as (Value & H1 & H2 & H3 & H4 & H5).
  - simpl. lia.
  - simpl. lia.
  - exists Value. repeat split; assumption.
Defined.

Lemma addPseudoProbe_path_witness :
  claimedPath probeC [(1, 88); (2, 66)] = [(1, 0); (2, 88); (3, 66)] ∧
  probesAt [(1, 0); (2, 88); (3, 66)] treeABC = [probeC] ∧
  probesAt [(1, 0)] treeABC = [probeA].
Proof.
  destruct (addPseudoProbe_path probeC [(1, 88); (2, 66)]
              (addPseudoProbe probeA [] (Node 0 [] [])))
    as (_ & Hat & _ & Hother & _).
  split; [reflexivity|]. split; [exact Hat|].
  apply (Hother [(1, 0)]). discriminate.
Defined.

Lemma probe_address_decoding_witness :
  ∃ d', decodeProbe decodeULEB128_model decodeSLEB128_model (Some 1%nat) 4096
          (set_cur (mkCursor sectionDelta 20 23) freshDecoder) =
          (true, 4101, d').
Proof.
  destruct (proj1 (probe_address_decoding decodeULEB128_model decodeSLEB128_model
              (Some 1%nat) 4096 (set_cur (mkCursor sectionDelta 20 23) freshDecoder)
              2 128 (mkCursor sectionDelta 21 23) (mkCursor sectionDelta 22 23)
              ltac:(repeat constructor; lia)
              ltac:(vm_compute; reflexivity) ltac:(vm_compute; reflexivity))
            5 (mkCursor sectionDelta 23 23)) as (d' & E & _).
  - vm_compute. reflexivity.
  - vm_compute. reflexivity.
  - exists d'. exact E.
Defined.

Lemma section_walk_delta_flags_witness :
  probeCalls (MCPseudoProbeInlineTree_emit foldAll 8 treeABC None).1 =
    [emitInt8 18; emitSymbolValue 16%nat 8;
     emitInt8 128; emitSLEB128IntValue 4].
Proof.
  destruct (section_walk_delta_flags foldAll 8 sectionOfKey
              [] [] 1%nat 1%nat treeABC) as (_ & H & _).
  - reflexivity.
  - change (emittedProbes treeABC) with [probeA; probeC].
    repeat constructor; simpl; lia.
  - exact H.
Defined.

Lemma inline_context_order_witness :
  getInlineContextForProbe hasInlineSite_model 1 decodedInlined
    (MCDecodedPseudoProbe.mk 4100 11 1 0 0 2) [] true =
    Some [([65], 7); ([66], 1)].
Proof.
  destruct (inline_context_order hasInlineSite_model 1 decodedInlined
              (MCDecodedPseudoProbe.mk 4100 11 1 0 0 2) [] [([65], 7)])
    as [_ H].
  - apply (walk_up hasInlineSite_model _ _ 2%nat
             (MCDecodedPseudoProbeInlineTree.mk 11 (11, 7) (Some 1%nat) ∅
                [(4100, 0%nat)])
             1%nat
             (MCDecodedPseudoProbeInlineTree.mk 10 (10, 0) (Some 0%nat)
                {[(11, 7) := 2%nat]} [(4096, 0%nat)])
             (MCPseudoProbeFuncDesc.mk 10 0 [65]) []);
      [vm_compute; reflexivity|reflexivity|reflexivity|reflexivity
      |vm_compute; reflexivity|].
    apply walk_done. vm_compute. reflexivity.
  - simpl. lia.
  - apply (H (MCPseudoProbeFuncDesc.mk 11 0 [66])). vm_compute. reflexivity.
Defined.

(** ** Worked instances of the further properties *)

(** X1, on the GUID that opens the probe section with the two block
    probes. *)
Lemma readUnencodedNumber_range_witness :
  0 <= 0xAAAA <= numeric_limits_max uint64_t ∧
  0xAAAA = readLE (take 8 (atData (mkCursor sectionDelta 0 23))).
Proof.
  destruct (readUnencodedNumber_range uint64_t (mkCursor sectionDelta 0 23)
              ltac:(repeat constructor; lia)) as [_ H].
  destruct (H 0xAAAA (mkCursor sectionDelta 8 23) ltac:(vm_compute; reflexivity))
    as (_ & _ & H').
  exact H'.
Defined.

(** X2, on the name of function 10 in the descriptor section. *)
Lemma readString_slice_witness :
  [65] !! 0%nat = descInlined !! 17%nat.
Proof.
  destruct (readString_slice 1 (mkCursor descInlined 17 36) ltac:(simpl; lia))
    as [_ H].
  destruct (H [65] (mkCursor descInlined 18 36) ltac:(vm_compute; reflexivity))
    as (_ & Hi & _).
  exact (Hi 0%nat ltac:(simpl; lia)).
Defined.

(** X3, on the probe count of the section with the two block probes. *)
Lemma leb128_reads_exact_witness :
  readUnsignedNumber decodeULEB128_model uint32_t (mkCursor sectionDelta 8 23) =
    (Ok 2, mkCursor sectionDelta 9 23).
Proof.
  destruct (leb128_reads_exact decodeULEB128_model decodeSLEB128_model uint32_t
              (mkCursor sectionDelta 8 23)) as [H _].
  - reflexivity.
  - vm_compute. discriminate.
  - split; vm_compute; [discriminate|reflexivity].
  - rewrite H. vm_compute. reflexivity.
Defined.

(** X4.  Function 10 is described before the parse, under the name Z and
    the hash 99; the record of the section for function 10 is dropped. *)
Lemma descriptors_first_wins_witness :
  ∃ d', buildGUID2FuncDescMap decodeULEB128_model descInlined
          (set_descs {[10 := MCPseudoProbeFuncDesc.mk 10 99 [90]]} freshDecoder) =
          Some (true, d') ∧
        MCPseudoProbeDecoder.GUID2FuncDescMap d' !! 10 =
          Some (MCPseudoProbeFuncDesc.mk 10 99 [90]).
Proof.
  eexists. split; [vm_compute; reflexivity|].
  apply (proj1 (descriptors_first_wins decodeULEB128_model descInlined
                  (set_descs {[10 := MCPseudoProbeFuncDesc.mk 10 99 [90]]} freshDecoder)
                  true _ ltac:(vm_compute; reflexivity))).
  vm_compute. reflexivity.
Defined.

(** Derivations of the records of a descriptor section on concrete
    bytes. *)
Ltac desc_records :=
  lazymatch goal with
  | |- DescRecordsAt _ ?c _ _ =>
      let b := eval vm_compute in (Data c <? End c)%nat in
      lazymatch b with
      | true =>
          eapply records_more;
          [vm_compute; lia|read_ok|read_ok|read_ok|read_ok|desc_records]
      | false => apply records_none
      end
  end.

(** X5.  The section describes function 10 twice; the map holds the first
    of the two descriptors. *)
Lemma descriptor_section_content_witness :
  ∃ d', buildGUID2FuncDescMap decodeULEB128_model descRepeated freshDecoder =
          Some (true, d') ∧
        MCPseudoProbeDecoder.GUID2FuncDescMap d' !! 10 =
          Some (MCPseudoProbeFuncDesc.mk 10 0 [65]).
Proof.
  eassert (H : DescRecordsAt decodeULEB128_model
                 (mkCursor descRepeated 0 (length descRepeated)) _ _)
    by desc_records.
  destruct (descriptor_section_content decodeULEB128_model descRepeated
              freshDecoder _ _ H) as (b & d' & E & _ & Hall).
  destruct (Hall ltac:(simpl; lia)) as [-> Hlk].
  exists d'. split; [exact E|]. rewrite Hlk. vm_compute. reflexivity.
Defined.

(** X6, on the section of the inlining example followed by three bytes. *)
Lemma trailing_bytes_never_return_witness :
  buildAddress2ProbeMap decodeULEB128_model decodeSLEB128_model 5
    sectionTrailing {[10]} freshDecoder = None.
Proof.
  eapply (trailing_bytes_never_return decodeULEB128_model decodeSLEB128_model
            sectionTrailing _ _ {[10]} 5 freshDecoder).
  - eapply bodies_more; [vm_compute; lia|function_body|apply bodies_none].
  - vm_compute. lia.
  - vm_compute. lia.
  - exact (freshDecoder_ok ∅ []).
Defined.

(** X7, on the two sections of the inlining example, parsed one after
    the other. *)
Lemma parsers_write_disjoint_tables_witness :
  ∃ d1 d2,
    buildGUID2FuncDescMap decodeULEB128_model descInlined freshDecoder =
      Some (true, d1) ∧
    buildAddress2ProbeMap decodeULEB128_model decodeSLEB128_model 34
      sectionInlined ∅ d1 = Some (true, d2) ∧
    MCPseudoProbeDecoder.Nodes d1 = [rootNode] ∧
    MCPseudoProbeDecoder.GUID2FuncDescMap d2 =
      MCPseudoProbeDecoder.GUID2FuncDescMap d1.
Proof.
  eexists _, _. split; [vm_compute; reflexivity|].
  split; [vm_compute; reflexivity|].
  destruct (parsers_write_disjoint_tables decodeULEB128_model decodeSLEB128_model
              descInlined sectionInlined 34 ∅ freshDecoder _ _ true true
              ltac:(vm_compute; reflexivity) ltac:(vm_compute; reflexivity))
    as (Hn & _ & Hd).
  split; [exact Hn|exact Hd].
Defined.

(** X8.  A second probe section is parsed by the decoder of the inlining
    example. *)
Lemma probe_parse_only_adds_witness :
  ∃ d', buildAddress2ProbeMap decodeULEB128_model decodeSLEB128_model 23
          sectionDelta ∅ decodedInlined = Some (true, d') ∧
        grown decodedInlined d'.
Proof.
  eexists. split; [vm_compute; reflexivity|].
  apply (probe_parse_only_adds decodeULEB128_model decodeSLEB128_model 23
           sectionDelta ∅ decodedInlined _ true).
  vm_compute. reflexivity.
Defined.

(** X9, on the section whose probe count is too wide. *)
Lemma forest_consistent_on_any_input_witness :
  ∃ d', buildAddress2ProbeMap decodeULEB128_model decodeSLEB128_model 2
          sectionOverflow ∅ freshDecoder = Some (true, d') ∧
        store_ok (MCPseudoProbeDecoder.Nodes d').
Proof.
  eexists. split; [vm_compute; reflexivity|].
  apply (forest_consistent_on_any_input decodeULEB128_model decodeSLEB128_model 2
           sectionOverflow ∅ freshDecoder _ true).
  - exact (freshDecoder_ok ∅ []).
  - vm_compute. reflexivity.
Defined.

(** X10, on the probe section of the inlining example. *)
Lemma index_and_forest_agree_witness :
  ∃ d', buildAddress2ProbeMap decodeULEB128_model decodeSLEB128_model 34
          sectionInlined ∅ freshDecoder = Some (true, d') ∧
        index_linked d'.
Proof.
  eexists. split; [vm_compute; reflexivity|].
  apply (index_and_forest_agree decodeULEB128_model decodeSLEB128_model 34
           sectionInlined ∅ freshDecoder _ true).
  - exact (freshDecoder_ok ∅ []).
  - exact freshDecoder_linked.
  - vm_compute. reflexivity.
Defined.

(** X11, on the probe section of the inlining example, filtered on
    function 10. *)
Lemma decoded_guids_agree_witness :
  ∃ d', buildAddress2ProbeMap decodeULEB128_model decodeSLEB128_model 34
          sectionInlined {[10]} freshDecoder = Some (true, d') ∧
        guids_agree d'.
Proof.
  eexists. split; [vm_compute; reflexivity|].
  apply (decoded_guids_agree decodeULEB128_model decodeSLEB128_model 34
           sectionInlined {[10]} freshDecoder _ true).
  - exact (freshDecoder_ok ∅ []).
  - exact freshDecoder_guids.
  - vm_compute. reflexivity.
Defined.

(** X12.  In the inlining example the probe at 0x1000 is a direct call,
    the probe at 0x1004 a block probe. *)
Lemma call_probe_for_address_witness :
  getCallProbeForAddr isCall_model decodedInlined 4096 =
    Some (MCDecodedPseudoProbe.mk 4096 10 7 2 0 1) ∧
  getCallProbeForAddr isCall_model decodedInlined 4100 = None.
Proof.
  split.
  - destruct (call_probe_for_address isCall_model decodedInlined 4096) as [_ H].
    destruct (H [MCDecodedPseudoProbe.mk 4096 10 7 2 0 1]
                ltac:(vm_compute; reflexivity)) as (_ & _ & H3).
    exact (H3 [] _ [] eq_refl eq_refl ltac:(constructor)).
  - destruct (call_probe_for_address isCall_model decodedInlined 4100) as [_ H].
    destruct (H [MCDecodedPseudoProbe.mk 4100 11 1 0 0 2]
                ltac:(vm_compute; reflexivity)) as (H1 & _).
    apply H1. by repeat constructor.
Defined.

(** X13.  The probe of function 11 was inlined into function 10, named
    A. *)
Lemma inliner_is_innermost_caller_witness :
  ∃ FuncDesc,
    getInlinerDescForProbe hasInlineSite_model decodedInlined
      (MCDecodedPseudoProbe.mk 4100 11 1 0 0 2) = Some (Some FuncDesc) ∧
    MCPseudoProbeFuncDesc.FuncName FuncDesc = [65].
Proof.
  destruct (inliner_is_innermost_caller hasInlineSite_model 1 decodedInlined
              (MCDecodedPseudoProbe.mk 4100 11 1 0 0 2) [([65], 7)])
    as (stack & E & H).
  - apply (walk_up hasInlineSite_model _ _ 2%nat
             (MCDecodedPseudoProbeInlineTree.mk 11 (11, 7) (Some 1%nat) ∅
                [(4100, 0%nat)])
             1%nat
             (MCDecodedPseudoProbeInlineTree.mk 10 (10, 0) (Some 0%nat)
                {[(11, 7) := 2%nat]} [(4096, 0%nat)])
             (MCPseudoProbeFuncDesc.mk 10 0 [65]) []);
      [vm_compute; reflexivity|reflexivity|reflexivity|reflexivity
      |vm_compute; reflexivity|].
    apply walk_done. vm_compute. reflexivity.
  - simpl. lia.
  - assert (Hs : stack = [([65], 7)]).
    { revert E. vm_compute. by intros [= <-]. }
    rewrite Hs in H. exact H.
Defined.

(** X14.  The context string of the same probe reads A:7. *)
Lemma inline_context_string_witness :
  getInlineContextStr hasInlineSite_model showDecimal 1
    (MCPseudoProbeDecoder.Nodes decodedInlined)
    (MCDecodedPseudoProbe.mk 4100 11 1 0 0 2)
    (MCPseudoProbeDecoder.GUID2FuncDescMap decodedInlined) = Some [65; 58; 55].
Proof.
  destruct (inline_context_string hasInlineSite_model showDecimal 1
              (MCPseudoProbeDecoder.Nodes decodedInlined)
              (MCDecodedPseudoProbe.mk 4100 11 1 0 0 2)
              (MCPseudoProbeDecoder.GUID2FuncDescMap decodedInlined) [([65], 7)])
    as [H _].
  - apply (walk_up hasInlineSite_model _ _ 2%nat
             (MCDecodedPseudoProbeInlineTree.mk 11 (11, 7) (Some 1%nat) ∅
                [(4100, 0%nat)])
             1%nat
             (MCDecodedPseudoProbeInlineTree.mk 10 (10, 0) (Some 0%nat)
                {[(11, 7) := 2%nat]} [(4096, 0%nat)])
             (MCPseudoProbeFuncDesc.mk 10 0 [65]) []);
      [vm_compute; reflexivity|reflexivity|reflexivity|reflexivity
      |vm_compute; reflexivity|].
    apply walk_done. vm_compute. reflexivity.
  - simpl. lia.
  - rewrite H. vm_compute. reflexivity.
Defined.

(** X15, on the node with two inlinees, listed in either order. *)
Lemma emit_independent_of_iteration_order_witness :
  MCPseudoProbeInlineTree_emit foldAll 8
    (Node 10 [] [((2, 1), Node 2 [] []); ((1, 5), Node 1 [] [])]) None =
  MCPseudoProbeInlineTree_emit foldAll 8
    (Node 10 [] [((1, 5), Node 1 [] []); ((2, 1), Node 2 [] [])]) None.
Proof.
  apply (emit_independent_of_iteration_order foldAll 8).
  - simpl. apply NoDup_cons. split; [|apply NoDup_singleton].
    rewrite list_elem_of_singleton. discriminate.
  - apply perm_swap.
Defined.

(** X16, on the tree of the two probes of the worked input. *)
Lemma addPseudoProbe_keeps_tree_wellformed_witness :
  tree_wf treeABC ∧ tree_Guid treeABC = 0 ∧ tree_Probes treeABC = [].
Proof.
  apply (addPseudoProbe_keeps_tree_wellformed probeC [(1, 88); (2, 66)]
           (addPseudoProbe probeA [] (Node 0 [] []))).
  apply (addPseudoProbe_keeps_tree_wellformed probeA [] (Node 0 [] [])).
  split; [apply NoDup_nil_2|exact I].
Defined.

(** X17, on the same tree. *)
Lemma added_probe_is_emitted_witness :
  emittedProbes treeABC ≡ₚ [probeC; probeA].
Proof.
  unfold treeABC.
  rewrite (added_probe_is_emitted probeC [(1, 88); (2, 66)]
             (addPseudoProbe probeA [] (Node 0 [] []))).
  - rewrite (added_probe_is_emitted probeA [] (Node 0 [] [])).
    + reflexivity.
    + split; [apply NoDup_nil_2|exact I].
  - apply (addAlong_wf probeA (probeEdges probeA []) (Node 0 [] [])).
    split; [apply NoDup_nil_2|exact I].
Defined.

(** X19.  The root of the same tree has one child: its calls are one
    function body. *)
Lemma emitted_calls_follow_format_witness :
  ∃ bodies,
    (MCPseudoProbeInlineTree_emit foldAll 8 treeABC None).1 = concat bodies ∧
    Forall BodyCalls bodies ∧ length bodies = 1%nat.
Proof.
  apply (emitted_calls_follow_format foldAll 8 0 [] (tree_Children treeABC) None).
  - change (Node 0 [] (tree_Children treeABC)) with treeABC. unfold treeABC.
    apply (addAlong_wf probeC (probeEdges probeC [(1, 88); (2, 66)])).
    apply (addAlong_wf probeA (probeEdges probeA []) (Node 0 [] [])).
    split; [apply NoDup_nil_2|exact I].
  - repeat (constructor || discriminate).
Defined.

(** X20, on the byte 0x92: a direct call with the attributes 1, as a
    delta. *)
Lemma packed_byte_unpack_repack_witness :
  MCPseudoProbe_emit foldAll 8 probeA (Some probeC) !! 1%nat =
    Some (emitInt8 146).
Proof.
  apply (packed_byte_unpack_repack foldAll 8 146 probeA (Some probeC)).
  - lia.
  - reflexivity.
  - reflexivity.
  - vm_compute. reflexivity.
Defined.

(** Derivations of the top-level bodies of a probe section on concrete
    bytes, with their GUIDs and with their records. *)
Ltac top_guids :=
  lazymatch goal with
  | |- TopGuids _ _ _ ?c _ =>
      let b := eval vm_compute in (Data c <? End c)%nat in
      lazymatch b with
      | true =>
          eapply top_guids_more; [vm_compute; lia|read_ok|function_body|top_guids]
      | false => apply top_guids_end; vm_compute; lia
      end
  end.

Ltac probe_recordsT :=
  lazymatch goal with
  | |- ProbeRecordsT _ _ ?n _ _ _ _ _ =>
      let k := eval vm_compute in n in
      change n with k;
      lazymatch k with
      | O => apply probesT_nil
      | S _ => eapply probesT_cons; [read_ok|read_ok|read_ok|probe_recordsT]
      end
  end.

Ltac function_bodyT :=
  eapply function_bodyT;
  [ first [reflexivity | eexists; read_ok]
  | read_ok | read_ok | read_ok
  | probe_recordsT
  | inlined_bodiesT ]
with inlined_bodiesT :=
  lazymatch goal with
  | |- InlinedBodiesT _ _ ?n _ _ _ _ _ =>
      let k := eval vm_compute in n in
      change n with k;
      lazymatch k with
      | O => apply inlinedT_nil
      | S _ => eapply inlinedT_cons; [function_bodyT|inlined_bodiesT]
      end
  end.

Ltac probe_sectionT :=
  lazymatch goal with
  | |- ProbeSectionT _ _ _ ?c _ =>
      let b := eval vm_compute in (Data c <? End c)%nat in
      lazymatch b with
      | true => eapply sectionT_body; [vm_compute; lia|function_bodyT|probe_sectionT]
      | false => apply sectionT_end; vm_compute; lia
      end
  end.

(** X21, on the section with the two top-level functions 1 and 2 and the
    filter that holds both. *)
Lemma filter_of_every_top_level_guid_witness :
  ∃ d', buildAddress2ProbeMap_unfiltered decodeULEB128_model decodeSLEB128_model
          33 sectionTwo freshDecoder = Some (true, d') ∧
        buildAddress2ProbeMap decodeULEB128_model decodeSLEB128_model
          33 sectionTwo {[1; 2]} freshDecoder = Some (true, d').
Proof.
  apply (filter_of_every_top_level_guid decodeULEB128_model decodeSLEB128_model
           sectionTwo {[1; 2]} [1; 2] 33 freshDecoder).
  - top_guids.
  - repeat constructor; set_solver.
  - vm_compute. lia.
  - exact (freshDecoder_ok ∅ []).
Defined.

(** X22, on the same section filtered on function 2: the record of
    function 2 at 0x1005 is filed, the record of function 1 at 0x1000 is
    not. *)
Lemma parse_indexes_the_kept_records_witness :
  ∃ d', buildAddress2ProbeMap decodeULEB128_model decodeSLEB128_model
          33 sectionTwo {[2]} freshDecoder = Some (true, d') ∧
        fieldsOf <$> default [] (MCPseudoProbeDecoder.Address2ProbesMap d' !! 4101) =
          [(4101, 1, 0, 0)] ∧
        fieldsOf <$> default [] (MCPseudoProbeDecoder.Address2ProbesMap d' !! 4096) =
          [].
Proof.
  eassert (H : ProbeSectionT decodeULEB128_model decodeSLEB128_model 0
                 (mkCursor sectionTwo 0 (length sectionTwo)) _)
    by probe_sectionT.
  destruct (parse_indexes_the_kept_records decodeULEB128_model decodeSLEB128_model
              sectionTwo {[2]} 33 _ freshDecoder H) as (d' & E & Hi).
  - vm_compute. lia.
  - exact (freshDecoder_ok ∅ []).
  - exists d'. split; [exact E|]. rewrite !Hi. split; vm_compute; reflexivity.
Defined.
